(** * Latin for Fun: the round and challenge engine of [src/App.tsx]

    A shallow embedding of the game logic of the single-file React
    application: the helpers ([clamp], [pick], [shuffle], [popLast]), the
    lexicon and its form resolvers ([nounForm], [adjForm]), the storage
    layer ([loadState], [saveState]), scoring and unlocking ([xpFor],
    [maybeUnlockBird], [awardXP]) and the two game modes (the handlers
    [chooseLatin], [chooseMeaning] of [MatchMode] and [makeChallenge],
    [makeTiles], [tapTile] of [SightingLogMode]).

    Conventions of the embedding.
    - JavaScript numbers that the game only ever holds as integers (seconds
      left, combo, score, experience) are [Z].  The two places that leave
      the integers, [secondsLeft * 1.6] and [(...) * d.xpMult], are computed
      over [Q]; the decimal literals 0.85, 1.2 and 1.6 are the rationals
      they denote.  For the integers involved the doubles give the same
      results: a product whose exact value is an integer or a half is
      computed exactly, and every other product lies at least 0.05 away from
      the next integer or half.
    - [Math.random()] is an explicit source of samples of the interval
      [0, 1), threaded through every function that draws from it.
    - [undefined] and [null] are [None]; a property access on them, which
      throws a [TypeError] in JavaScript, makes the enclosing function
      return [None] (or [Throws] for [loadState]).
    - React state is a record per component; a handler maps the state of the
      render it was created in to the next state.  A [setTimeout] callback
      is kept in the state as a pending timer together with the values its
      closure captured. *)

From Stdlib Require Import Ascii QArith Qround Lqa.
From stdpp Require Import base tactics option list strings numbers gmap pretty.

Local Open Scope string_scope.
Local Open Scope list_scope.
Local Open Scope Z_scope.

Set Warnings "-register-all".

(** ** Helpers *)

(** [clamp(n, a, b) = Math.max(a, Math.min(b, n))]. *)
Definition clamp (n a b : Z) : Z := Z.max a (Z.min b n).

(** [Math.floor] and [Math.round] on rationals; [Math.round] rounds a half
    towards plus infinity. *)
Definition Math_floor (x : Q) : Z := Qfloor x.
Definition Math_round (x : Q) : Z := Qfloor (x + (1 # 2))%Q.

(** *** The random source *)

(** One result of [Math.random()]: the rational [un / (un + ud + 1)], so
    every sample lies in [0, 1) and every rational of [0, 1) is a sample. *)
Record Sample : Type := mkSample { un : nat; ud : nat }.

(** [Math.floor(Math.random() * n)] for the sample [u]. *)
Definition scale (u : Sample) (n : nat) : nat :=
  (un u * n / (un u + ud u + 1))%nat.

(** [Math.random() < 0.5]. *)
Definition below_half (u : Sample) : bool :=
  bool_decide (2 * un u < un u + ud u + 1)%nat.

(** The generator: the infinite sequence of its future results and the
    number of results consumed so far. *)
Record Rng : Type := mkRng { draws : nat → Sample; pos : nat }.

Definition random (g : Rng) : Sample * Rng :=
  (draws g (pos g), mkRng (draws g) (S (pos g))).

(** [pick(arr) = arr[Math.floor(Math.random() * arr.length)]]; the result is
    [undefined] on the empty array. *)
Definition pick {T} (arr : list T) (g : Rng) : option T * Rng :=
  let '(u, g') := random g in
  (arr !! scale u (length arr), g').

(** The exchange [[a[i], a[j]] = [a[j], a[i]]] of [shuffle]. *)
Definition swap {T} (a : list T) (i j : nat) : list T :=
  match a !! i, a !! j with
  | Some x, Some y => <[j := x]> (<[i := y]> a)
  | _, _ => a
  end.

(** The loop [for (let i = ...; i > 0; i--)] of [shuffle], entered with the
    current value of [i]. *)
Fixpoint shuffle_from {T} (i : nat) (a : list T) (g : Rng) : list T * Rng :=
  match i with
  | O => (a, g)
  | S i' =>
      let '(u, g') := random g in
      let j := scale u (i + 1) in
      shuffle_from i' (swap a i j) g'
  end.

Definition shuffle {T} (arr : list T) (g : Rng) : list T * Rng :=
  shuffle_from (length arr - 1) arr g.

(** [popLast(arr) = arr.slice(0, Math.max(0, arr.length - 1))]. *)
Definition popLast {T} (arr : list T) : list T :=
  take (Z.to_nat (Z.max 0 (Z.of_nat (length arr) - 1))) arr.

(** [arr.slice(0, n)] for a non-negative [n]. *)
Definition slice0 {T} (n : nat) (arr : list T) : list T := take n arr.

(** [s.replace(pat, by)] with a string pattern: only the first occurrence
    is replaced. *)
Fixpoint replace_first (pat by_ s : string) : string :=
  if String.prefix pat s then by_ +:+ String.substring (String.length pat) (String.length s) s
  else match s with
       | EmptyString => EmptyString
       | String c s' => String c (replace_first pat by_ s')
       end.

(** [arr.join(sep)]: [undefined] and [null] elements print as the empty
    string. *)
Fixpoint join (sep : string) (arr : list (option string)) : string :=
  match arr with
  | [] => ""
  | [x] => default "" x
  | x :: rest => default "" x +:+ sep +:+ join sep rest
  end.

(** A value interpolated in a template literal. *)
Definition interp (x : option string) : string := default "undefined" x.

(** [x || d] on a possibly missing string: the empty string is falsy. *)
Definition or_else (x : option string) (d : string) : string :=
  match x with
  | Some s => if bool_decide (s = "") then d else s
  | None => d
  end.

(** ** The lexicon *)

Inductive GramCase : Type := nomSg | accSg.
(** The genders ["m"], ["f"] and ["n"]. *)
Inductive Gender : Type := g_m | g_f | g_n.

#[global] Instance GramCase_eq_dec : EqDecision GramCase.
Proof. solve_decision. Defined.
#[global] Instance Gender_eq_dec : EqDecision Gender.
Proof. solve_decision. Defined.

(** The objects are those of the TypeScript types, with every property that
    [nounForm] and [adjForm] read through [?.] optional, as it is at run
    time. *)
Record NounForms : Type := mkNounForms {
  nf_nomSg : option string;
  nf_accSg : option string }.

Record Noun : Type := mkNoun {
  noun_id : string;
  noun_lemma : string;
  noun_decl : Z;
  noun_gender : Gender;
  noun_meaning : string;
  noun_forms : option NounForms;
  noun_note : option string }.

Record GenderForms : Type := mkGenderForms {
  gf_m : option string;
  gf_f : option string;
  gf_n : option string }.

Record AdjForms : Type := mkAdjForms {
  af_nomSg : option GenderForms;
  af_accSg : option GenderForms }.

Record Adjective : Type := mkAdjective {
  adj_id : string;
  adj_lemma : string;
  adj_meaning : string;
  adj_forms : option AdjForms;
  adj_note : option string }.

Record Verb : Type := mkVerb {
  verb_id : string;
  pres1s : string;
  verb_meaning : string;
  pres3s : string;
  pattern : string }.

#[global] Instance NounForms_eq_dec : EqDecision NounForms.
Proof. solve_decision. Defined.
#[global] Instance Noun_eq_dec : EqDecision Noun.
Proof. solve_decision. Defined.
#[global] Instance GenderForms_eq_dec : EqDecision GenderForms.
Proof. solve_decision. Defined.
#[global] Instance AdjForms_eq_dec : EqDecision AdjForms.
Proof. solve_decision. Defined.
#[global] Instance Adjective_eq_dec : EqDecision Adjective.
Proof. solve_decision. Defined.
#[global] Instance Verb_eq_dec : EqDecision Verb.
Proof. solve_decision. Defined.

(** [noun.forms?.[gramCase]]. *)
Definition nounForm (noun : Noun) (gramCase : GramCase) : option string :=
  forms ← noun_forms noun;
  match gramCase with
  | nomSg => nf_nomSg forms
  | accSg => nf_accSg forms
  end.

(** [adj.forms?.[gramCase]?.[gender]]. *)
Definition adjForm (adj : Adjective) (gramCase : GramCase) (gender : Gender)
  : option string :=
  forms ← adj_forms adj;
  byGender ← match gramCase with
             | nomSg => af_nomSg forms
             | accSg => af_accSg forms
             end;
  match gender with
  | g_m => gf_m byGender
  | g_f => gf_f byGender
  | g_n => gf_n byGender
  end.

(** A literal of [data/nouns]: every entry writes both forms. *)
Definition noun_entry (id lemma : string) (decl : Z) (gender : Gender)
    (meaning nom acc : string) (note : option string) : Noun :=
  mkNoun id lemma decl gender meaning (Some (mkNounForms (Some nom) (Some acc))) note.

Definition NOUNS : list Noun := [
  (* 1st declension (mostly feminine) *)
  noun_entry "puella" "puella" 1 g_f "girl" "puella" "puellam" None;
  noun_entry "femina" "femina" 1 g_f "woman" "femina" "feminam" None;
  noun_entry "nauta" "nauta" 1 g_m "sailor" "nauta" "nautam" None;
  noun_entry "aqua" "aqua" 1 g_f "water" "aqua" "aquam" None;
  noun_entry "insula" "insula" 1 g_f "island" "insula" "insulam" None;
  noun_entry "silva" "silva" 1 g_f "forest" "silva" "silvam" None;
  noun_entry "via" "via" 1 g_f "road" "via" "viam" None;
  noun_entry "porta" "porta" 1 g_f "gate" "porta" "portam" None;
  (* 2nd declension masculine *)
  noun_entry "amicus" "amicus" 2 g_m "friend" "amicus" "amicum" None;
  noun_entry "servus" "servus" 2 g_m "worker" "servus" "servum" None;
  noun_entry "lupus" "lupus" 2 g_m "wolf" "lupus" "lupum" None;
  noun_entry "filius" "filius" 2 g_m "son" "filius" "filium" None;
  noun_entry "ager" "ager" 2 g_m "field" "ager" "agrum" None;
  noun_entry "dominus" "dominus" 2 g_m "master" "dominus" "dominum" None;
  (* 2nd declension neuter *)
  noun_entry "verbum" "verbum" 2 g_n "word" "verbum" "verbum" None;
  noun_entry "bellum" "bellum" 2 g_n "war" "bellum" "bellum" None;
  noun_entry "donum" "donum" 2 g_n "gift" "donum" "donum" None;
  noun_entry "oppidum" "oppidum" 2 g_n "town" "oppidum" "oppidum" None;
  (* High-frequency 3rd decl (limited forms) *)
  noun_entry "avis" "avis" 3 g_f "bird" "avis" "avem" (Some "3rd decl intro");
  noun_entry "rex" "rex" 3 g_m "king" "rex" "regem" (Some "3rd decl intro")
].

Definition VERBS : list Verb := [
  (* Emotion / judgment *)
  mkVerb "amo" "amō" "I love" "amat" "1st conj (-āre): -at";
  mkVerb "timeo" "timeō" "I fear" "timet" "2nd conj (-ēre): -et";
  mkVerb "laudo" "laudō" "I praise" "laudat" "1st conj (-āre): -at";
  mkVerb "culpo" "culpō" "I blame" "culpat" "1st conj (-āre): -at";
  (* Motion *)
  mkVerb "ambulo" "ambulō" "I walk" "ambulat" "1st conj (-āre): -at";
  mkVerb "curro" "currō" "I run" "currit" "3rd conj (-ere): -it";
  mkVerb "venio" "veniō" "I come" "venit" "4th conj (-īre): -it";
  mkVerb "discedo" "discedō" "I depart" "discedit" "3rd conj (-ere): -it";
  mkVerb "redeo" "redeō" "I return" "redit" "4th conj (-īre): -it";
  (* Physical actions / transfer *)
  mkVerb "porto" "portō" "I carry" "portat" "1st conj (-āre): -at";
  mkVerb "teneo" "teneō" "I hold" "tenet" "2nd conj (-ēre): -et";
  mkVerb "capio" "capiō" "I take" "capit" "3rd-io conj: -it";
  mkVerb "do" "dō" "I give" "dat" "1st conj (-āre): -at";
  mkVerb "servo" "servō" "I save / keep" "servat" "1st conj (-āre): -at";
  mkVerb "paro" "parō" "I prepare" "parat" "1st conj (-āre): -at";
  (* Observation / communication *)
  mkVerb "video" "videō" "I see" "videt" "2nd conj (-ēre): -et";
  mkVerb "audio" "audiō" "I hear" "audit" "4th conj (-īre): -it";
  mkVerb "voco" "vocō" "I call" "vocat" "1st conj (-āre): -at";
  mkVerb "specto" "spectō" "I watch" "spectat" "1st conj (-āre): -at";
  mkVerb "narro" "narrō" "I tell" "narrat" "1st conj (-āre): -at";
  (* Location / state *)
  mkVerb "habito" "habitō" "I live (inhabit)" "habitat" "1st conj (-āre): -at";
  mkVerb "defendo" "defendō" "I defend" "defendit" "3rd conj (-ere): -it"
].

(** A literal of [data/adjectives]: every entry writes all six cells. *)
Definition adj_entry (id lemma meaning : string)
    (nm nf nn am af an : string) (note : option string) : Adjective :=
  mkAdjective id lemma meaning
    (Some (mkAdjForms (Some (mkGenderForms (Some nm) (Some nf) (Some nn)))
                      (Some (mkGenderForms (Some am) (Some af) (Some an)))))
    note.

Definition ADJECTIVES : list Adjective := [
  adj_entry "bonus" "bonus" "good"
    "bonus" "bona" "bonum" "bonum" "bonam" "bonum" None;
  adj_entry "magnus" "magnus" "big / great"
    "magnus" "magna" "magnum" "magnum" "magnam" "magnum" None;
  adj_entry "parvus" "parvus" "small"
    "parvus" "parva" "parvum" "parvum" "parvam" "parvum" None;
  adj_entry "celer" "celer" "fast"
    "celer" "celeris" "celer" "celerem" "celerem" "celer"
    (Some "Technically 3rd decl adjective - used lightly as a challenge word.")
].

(** ** Storage *)

(** The values [JSON.parse] returns.  The numbers the game stores are
    integers; a leaf of another kind is carried around like any other
    leaf. *)
Inductive JSON : Type :=
  | JNull
  | JBool (b : bool)
  | JNum (z : Z)
  | JStr (s : string)
  | JArr (items : list JSON)
  | JObj (props : gmap string JSON).

(** What [window.localStorage] holds under [LS_KEY]: a text on which
    [JSON.parse] throws, or a text that parses, given by the value it parses
    to.  [JSON.stringify] of a value built from objects, arrays, strings,
    booleans and numbers is a text that parses back to that value. *)
Inductive Stored : Type :=
  | Unparsable (text : string)
  | Parsable (v : JSON).

(** [safeJsonParse(s, fallback)]. *)
Definition safeJsonParse (s : Stored) (fallback : JSON) : JSON :=
  match s with
  | Parsable v => v
  | Unparsable _ => fallback
  end.

(** [!raw] for the result of [getItem]: [null] and the empty string. *)
Definition raw_falsy (raw : option Stored) : bool :=
  match raw with
  | None => true
  | Some (Unparsable text) => bool_decide (text = "")
  | Some (Parsable _) => false
  end.

(** Truthiness of a value, for [x || {}]. *)
Definition truthy (v : JSON) : bool :=
  match v with
  | JNull => false
  | JBool b => b
  | JNum z => negb (bool_decide (z = 0))
  | JStr s => negb (bool_decide (s = ""))
  | JArr _ | JObj _ => true
  end.

(** The characters of a string as its indexed properties. *)
Fixpoint string_chars (s : string) : list JSON :=
  match s with
  | EmptyString => []
  | String c s' => JStr (String c EmptyString) :: string_chars s'
  end.

Definition indexed (items : list JSON) : gmap string JSON :=
  list_to_map (imap (λ i x, (pretty i, x)) items).

(** The own enumerable properties a spread [...v] copies: those of an
    object, the elements of an array, the characters of a string, and
    nothing for [null], [undefined], a boolean or a number. *)
Definition own_props (v : option JSON) : gmap string JSON :=
  match v with
  | Some (JObj props) => props
  | Some (JArr items) => indexed items
  | Some (JStr s) => indexed (string_chars s)
  | _ => ∅
  end.

(** [{ ...a, ...b }]: the properties of [b] override those of [a]. *)
Definition spread (a b : gmap string JSON) : gmap string JSON := b ∪ a.

(** [v.key] for a property name that no prototype defines (the four section
    names of the persisted state): a [TypeError] on [null], written as the
    outer [None]; otherwise the own property, or [undefined].  (The own
    [length] of a string or an array is not among the names read.) *)
Definition get_prop (v : JSON) (key : string) : option (option JSON) :=
  match v with
  | JNull => None
  | JObj props => Some (props !! key)
  | JArr items => Some (indexed items !! key)
  | JStr s => Some (indexed (string_chars s) !! key)
  | JBool _ | JNum _ => Some None
  end.

(** [x || {}]. *)
Definition or_empty (x : option JSON) : option JSON :=
  match x with
  | Some v => if truthy v then Some v else Some (JObj ∅)
  | None => Some (JObj ∅)
  end.

Definition LS_KEY : string := "latinForFun_v2".

(** The typed view of the persisted state. *)
Record Player : Type := mkPlayer { name : string; difficulty : string }.
Record Best : Type := mkBest { highScore : Z; bestStreak : Z; totalXP : Z }.
Record Collection : Type := mkCollection { unlocked : list string }.
Record Settings : Type := mkSettings { sound : bool }.
Record PersistedState : Type := mkPersisted {
  player : Player;
  best : Best;
  collection : Collection;
  settings : Settings }.

Definition player_obj (p : Player) : gmap string JSON :=
  {[ "name" := JStr (name p); "difficulty" := JStr (difficulty p) ]}.
Definition best_obj (b : Best) : gmap string JSON :=
  {[ "highScore" := JNum (highScore b); "bestStreak" := JNum (bestStreak b);
     "totalXP" := JNum (totalXP b) ]}.
Definition collection_obj (c : Collection) : gmap string JSON :=
  {[ "unlocked" := JArr (JStr <$> unlocked c) ]}.
Definition settings_obj (s : Settings) : gmap string JSON :=
  {[ "sound" := JBool (sound s) ]}.

(** The object a well-shaped state is at run time. *)
Definition state_obj (s : PersistedState) : gmap string JSON :=
  {[ "player" := JObj (player_obj (player s));
     "best" := JObj (best_obj (best s));
     "collection" := JObj (collection_obj (collection s));
     "settings" := JObj (settings_obj (settings s)) ]}.

(** The literal [base] of [loadState]. *)
Definition base : PersistedState :=
  mkPersisted (mkPlayer "Challenger" "normal") (mkBest 0 0 0)
              (mkCollection []) (mkSettings true).

(** The outcome of [loadState]: the object it returns, or the [TypeError]
    it lets escape. *)
Inductive LoadResult : Type :=
  | Loaded (o : gmap string JSON)
  | Throws.

(** The environment: [window] may be undefined; otherwise the item stored
    under [LS_KEY], if any. *)
Definition Window : Type := option (option Stored).

Definition getItem (w : Window) : option Stored :=
  match w with
  | Some item => item            (* window.localStorage.getItem(LS_KEY) *)
  | None => None                 (* typeof window === "undefined" *)
  end.

(** One section of the object [loadState] returns:
    [{ ...base.section, ...(parsed.section || {}) }]. *)
Definition merge_section (base_section : gmap string JSON) (parsed : JSON)
    (key : string) : option (gmap string JSON) :=
  section ← get_prop parsed key;
  Some (spread base_section (own_props (or_empty section))).

Definition loadState (w : Window) : LoadResult :=
  let raw := getItem w in
  if raw_falsy raw then Loaded (state_obj base)
  else
    let parsed := safeJsonParse (default (Unparsable "") raw) (JObj (state_obj base)) in
    match merge_section (player_obj (player base)) parsed "player",
          merge_section (best_obj (best base)) parsed "best",
          merge_section (collection_obj (collection base)) parsed "collection",
          merge_section (settings_obj (settings base)) parsed "settings" with
    | Some p, Some b, Some c, Some s =>
        Loaded (<["settings" := JObj s]> (<["collection" := JObj c]>
                 (<["best" := JObj b]> (<["player" := JObj p]>
                   (spread (state_obj base) (own_props (Some parsed)))))))
    | _, _, _, _ => Throws
    end.

(** [saveState(state)]: [setItem(LS_KEY, JSON.stringify(state))]. *)
Definition saveState (state : gmap string JSON) (w : Window) : Window :=
  match w with
  | None => None
  | Some _ => Some (Some (Parsable (JObj state)))
  end.

(** ** Game logic *)

Record DiffConf : Type := mkDiffConf {
  time : Z;
  roundSize : nat;
  xpMult : Q;
  sentenceLen : Z }.

Definition DIFFICULTY_normal : DiffConf := mkDiffConf 22 5 1 3.

Definition DIFFICULTY : gmap string DiffConf :=
  {[ "easy" := mkDiffConf 28 4 (85 # 100) 3;
     "normal" := DIFFICULTY_normal;
     "hard" := mkDiffConf 18 6 (12 # 10) 4 ]}.

(** The keys of [DIFFICULTY], the values of the type [DifficultyKey]. *)
Definition difficulty_keys : list string := ["easy"; "normal"; "hard"].

(** The property names that every object literal inherits from
    [Object.prototype].  For these names [DIFFICULTY[key]] is the inherited
    function or object, which is truthy and has no [time], [roundSize],
    [xpMult] or [sentenceLen]. *)
Definition Object_prototype_names : list string :=
  [ "constructor"; "__defineGetter__"; "__defineSetter__"; "hasOwnProperty";
    "__lookupGetter__"; "__lookupSetter__"; "isPrototypeOf";
    "propertyIsEnumerable"; "toString"; "valueOf"; "__proto__";
    "toLocaleString" ].

(** [DIFFICULTY[difficultyKey] || DIFFICULTY.normal], for a key that is no
    name of [Object_prototype_names]: the entry of the key, and the entry of
    "normal" for any other string.  For an inherited name the expression of
    the code is the inherited value, whose fields are [undefined] (the
    award is then [NaN]); [conf_of] does not describe that case, and every
    statement below that depends on the values of a configuration is made
    for the keys of [difficulty_keys], or names the excluded keys. *)
Definition conf_of (difficultyKey : string) : DiffConf :=
  default DIFFICULTY_normal (DIFFICULTY !! difficultyKey).

Definition xpFor (correct : bool) (secondsLeft combo : Z) (difficultyKey : string) : Z :=
  let d := conf_of difficultyKey in
  let base := if correct then 28 else 0 in
  let speed :=
    if correct then clamp (Math_floor (inject_Z secondsLeft * (16 # 10))) 0 45 else 0 in
  let comboBonus := if correct then clamp (combo * 7) 0 70 else 0 in
  Math_round (inject_Z (base + speed + comboBonus) * xpMult d).

(** A card of [data/birds]; the game logic reads its [id] only. *)
Record BirdCard : Type := mkBirdCard {
  bird_id : string;
  common : string;
  sci : string;
  badge : string;
  fun_ : string }.

(** What a round reports to [onRoundEnd]. *)
Record Summary : Type := mkSummary {
  sum_mode : string;
  sum_score : Z;
  sum_comboMax : Z }.

Inductive Phase : Type := playing | paused.

#[global] Instance Phase_eq_dec : EqDecision Phase.
Proof. solve_decision. Defined.

(** [x || 0] on a number. *)
Definition or_zero (x : Z) : Z := if bool_decide (x = 0) then 0 else x.

Section Progression.
(** The catalog of [data/birds], which the sources at hand do not
    include. *)
Variable BIRD_CARDS : list BirdCard.

Definition maybeUnlockBird (totalXP : Z) (unlocked : list string) : option BirdCard :=
  let threshold := 250 in
  let shouldHave := totalXP `div` threshold in
  let targetCount := clamp shouldHave 0 (Z.of_nat (length BIRD_CARDS)) in
  if bool_decide (targetCount ≤ Z.of_nat (length unlocked))%Z then None
  else
    let remaining := filter (λ b, bird_id b ∉ unlocked) BIRD_CARDS in
    head remaining.

(** The state of [App] that a round end changes. *)
Record AppState : Type := mkApp {
  persisted : PersistedState;
  roundSummary : option Summary;
  newUnlock : option BirdCard }.

(** The updater that [awardXP(deltaXP, comboMax)] passes to
    [setPersisted], with the card it hands to [setNewUnlock]. *)
Definition awardXP_update (deltaXP comboMax : Z) (s : PersistedState)
  : PersistedState * option BirdCard :=
  let totalXP' := or_zero (totalXP (best s)) + deltaXP in
  let bestStreak' := Z.max (or_zero (bestStreak (best s))) comboMax in
  let highScore' := Z.max (or_zero (highScore (best s))) deltaXP in
  let next := mkPersisted (player s) (mkBest highScore' bestStreak' totalXP')
                          (collection s) (settings s) in
  match maybeUnlockBird totalXP' (unlocked (collection next)) with
  | Some unlock =>
      (mkPersisted (player next) (best next)
                   (mkCollection (unlocked (collection next) ++ [bird_id unlock]))
                   (settings next),
       Some unlock)
  | None => (next, None)
  end.

Definition awardXP (deltaXP comboMax : Z) (app : AppState) : AppState :=
  let '(next, unlock) := awardXP_update deltaXP comboMax (persisted app) in
  mkApp next (roundSummary app)
        (match unlock with Some u => Some u | None => newUnlock app end).

Definition onRoundEnd (r : Summary) (app : AppState) : AppState :=
  let app' := awardXP (sum_score r) (sum_comboMax r) app in
  mkApp (persisted app') (Some r) (newUnlock app').

(** The calls of [onRoundEnd] that a step of a game mode made, in
    order. *)
Definition deliver (calls : list Summary) (app : AppState) : AppState :=
  foldl (λ a r, onRoundEnd r a) app calls.
(** [nextBird] of [App]: the first card of the catalog that is not
    unlocked. *)
Definition nextBird (unlocked : list string) : option BirdCard :=
  let remaining := filter (λ b, bird_id b ∉ unlocked) BIRD_CARDS in
  head remaining.


(** The round ends a lifetime record has seen, oldest first. *)
Definition awardAll (rounds : list Summary) (s : PersistedState) : PersistedState :=
  foldl (λ s r, (awardXP_update (sum_score r) (sum_comboMax r) s).1) s rounds.
End Progression.

(** [progressToNext] of [App]: the experience into the current threshold
    ([totalXP % threshold], whose sign is that of [totalXP]), the threshold
    and the percentage of the progress bar.  The percentage is the exact
    value of [(curr / threshold) * 100]; the code computes it in doubles,
    with two roundings, and gets a neighbour of it (93.60000000000001 at
    1234).  Rounding is monotone and 0 and 100 are doubles, so bounds by 0
    and by 100 on the exact value hold of the double as well; nothing else
    is stated of it. *)
Definition progressToNext (totalXP : Z) : Z * Z * Q :=
  let threshold := 250 in
  let curr := Z.rem totalXP threshold in
  let pct := (inject_Z curr / inject_Z threshold * 100)%Q in
  (curr, threshold, pct).

(** The percentage [CountdownBar] shows, as the exact value of
    [(secondsLeft / total) * 100]; the double of the code is a neighbour of
    it and lies within the same bounds 0 and 100. *)
Definition countdownPct (secondsLeft total : Z) : Q :=
  if bool_decide (0 < total) then (inject_Z secondsLeft / inject_Z total * 100)%Q
  else 0%Q.

(** The updaters of the settings: the sound button, the name field
    ([e.target.value || "Challenger"]) and the difficulty selectors. *)
Definition toggleSound (s : PersistedState) : PersistedState :=
  mkPersisted (player s) (best s) (collection s) (mkSettings (negb (sound (settings s)))).

Definition rename (value : string) (s : PersistedState) : PersistedState :=
  mkPersisted (mkPlayer (or_else (Some value) "Challenger") (difficulty (player s)))
              (best s) (collection s) (settings s).

Definition setDifficulty (v : string) (s : PersistedState) : PersistedState :=
  mkPersisted (mkPlayer (name (player s)) v) (best s) (collection s) (settings s).

(** [window.localStorage.removeItem(LS_KEY)], guarded by
    [typeof window !== "undefined"]. *)
Definition removeItem (w : Window) : Window :=
  match w with
  | Some _ => Some None
  | None => None
  end.

(** The Reset progress button of a mounted [App]: [removeItem(LS_KEY)],
    then [setPersisted(loadState())], after which the effect on
    [persisted] runs [saveState(persisted)] with the state just loaded. *)
Definition resetProgress (w : Window) : Window * LoadResult :=
  let w1 := removeItem w in
  match loadState w1 with
  | Loaded o => (saveState o w1, Loaded o)
  | Throws => (w1, Throws)
  end.

(** ** Mode 1: Match *)

Module Match.

Inductive Tag : Type := NOM | ACC | V | ADJ.
Inductive Kind : Type := noun | verb | adj.

Record MatchPoolItem : Type := mkItem {
  id : string;
  latin : option string;
  meaning : string;
  tag : Tag;
  kind : Kind;
  hint : string }.

(** [typeof x.latin === "string" && x.latin.length > 0]. *)
Definition has_latin (x : MatchPoolItem) : bool :=
  match latin x with
  | Some s => bool_decide (0 < String.length s)%nat
  | None => false
  end.

Definition POOL : list MatchPoolItem :=
  let nounForms :=
    concat ((λ n : Noun, [
      mkItem (noun_id n +:+ "-nom") (nounForm n nomSg)
             (noun_meaning n +:+ " (subject)") NOM noun
             "Subject usually = nominative (who/what does it?)";
      mkItem (noun_id n +:+ "-acc") (nounForm n accSg)
             (noun_meaning n +:+ " (object)") ACC noun
             "Direct object often = accusative (who/what is affected?)"
    ]) <$> NOUNS) in
  let verbs :=
    (λ v : Verb, mkItem (verb_id v) (Some (pres3s v))
                 (replace_first "I " "he/she/it " (verb_meaning v)) V verb
                 (pattern v)) <$> VERBS in
  let adjs :=
    (λ a : Adjective, mkItem (adj_id a) (Some (adj_lemma a)) (adj_meaning a) ADJ adj
                 "Adjectives match noun gender/case (later drills).") <$> ADJECTIVES in
  filter (λ x : MatchPoolItem, has_latin x) (nounForms ++ verbs ++ adjs).

Record Round : Type := mkRound {
  items : list MatchPoolItem;
  left : list string;
  right : list string }.

Definition makeRound (n : nat) (g : Rng) : Round * Rng :=
  let '(shuffled, g1) := shuffle POOL g in
  let chosen := slice0 n shuffled in
  let '(l, g2) := shuffle (id <$> chosen) g1 in
  let '(r, g3) := shuffle (id <$> chosen) g2 in
  (mkRound chosen l r, g3).

(** A pending [setTimeout(() => finishRound("Round complete!"), 150)].
    The callback calls the [finishRound] of the render in which
    [chooseMeaning] ran, which reads that render's [score] and [combo]. *)
Record Timer : Type := mkTimer {
  seen_score : Z;
  seen_combo : Z }.

Record State : Type := mkState {
  difficultyKey : string;
  phase : Phase;
  secondsLeft : Z;
  round : Round;
  selectedLatin : option string;
  doneIds : list string;
  combo : Z;
  score : Z;
  endNote : option string;
  timers : list Timer }.

Definition totalTime (key : string) : Z := time (conf_of key).

(** The first render of the component. *)
Definition mount (key : string) (g : Rng) : State * Rng :=
  let '(r, g') := makeRound (roundSize (conf_of key)) g in
  (mkState key playing (totalTime key) r None [] 0 0 None [], g').

(** [finishRound(reason)] of a render whose [score] and [combo] are
    [score_seen] and [combo_seen], run on the current state [st]. *)
Definition finishRound (score_seen combo_seen : Z) (reason : string) (st : State)
  : State * list Summary :=
  (mkState (difficultyKey st) paused (secondsLeft st) (round st)
           (selectedLatin st) (doneIds st) (combo st) (score st)
           (Some reason) (timers st),
   [mkSummary "Match" score_seen combo_seen]).

Definition nextRound (g : Rng) (st : State) : State * Rng :=
  let '(r, g') := makeRound (roundSize (conf_of (difficultyKey st))) g in
  (mkState (difficultyKey st) playing (totalTime (difficultyKey st)) r None []
           0 0 None (timers st), g').

(** One tick of the interval, which runs while the phase is [playing],
    followed by the effect on [secondsLeft] of the next render. *)
Definition tick (st : State) : State * list Summary :=
  match phase st with
  | paused => (st, [])
  | playing =>
      let st' := mkState (difficultyKey st) (phase st) (secondsLeft st - 1)
                         (round st) (selectedLatin st) (doneIds st) (combo st)
                         (score st) (endNote st) (timers st) in
      if bool_decide (secondsLeft st' ≤ 0)%Z
      then finishRound (score st') (combo st') "Time!" st'
      else (st', [])
  end.

Definition chooseLatin (id : string) (st : State) : State :=
  if bool_decide (phase st ≠ playing) then st
  else if bool_decide (id ∈ doneIds st) then st
  else mkState (difficultyKey st) (phase st) (secondsLeft st) (round st)
               (Some id) (doneIds st) (combo st) (score st) (endNote st)
               (timers st).

Definition chooseMeaning (id : string) (st : State) : State :=
  if bool_decide (phase st ≠ playing) then st
  else match selectedLatin st with
  | None => st
  | Some sel =>
    if bool_decide (sel = "") then st
    else if bool_decide (id ∈ doneIds st) then st
    else
      let correct := bool_decide (sel = id) in
      if correct then
        let nextCombo := combo st + 1 in
        let gained := xpFor true (secondsLeft st) nextCombo (difficultyKey st) in
        mkState (difficultyKey st) (phase st) (secondsLeft st) (round st)
                None (doneIds st ++ [id]) nextCombo (score st + gained)
                (endNote st)
                (if bool_decide (length (items (round st)) ≤ length (doneIds st) + 1)%nat
                 then timers st ++ [mkTimer (score st) (combo st)]
                 else timers st)
      else
        mkState (difficultyKey st) (phase st) (secondsLeft st) (round st)
                None (doneIds st) 0 (score st) (endNote st) (timers st)
  end.

(** The oldest pending timeout fires. *)
Definition fire (st : State) : State * list Summary :=
  match timers st with
  | [] => (st, [])
  | t :: rest =>
      finishRound (seen_score t) (seen_combo t) "Round complete!"
        (mkState (difficultyKey st) (phase st) (secondsLeft st) (round st)
                 (selectedLatin st) (doneIds st) (combo st) (score st)
                 (endNote st) rest)
  end.

(** [round.items.find((x) => x.id === id)]. *)
Definition itemById (wanted : string) (st : State) : option MatchPoolItem :=
  head (filter (λ x : MatchPoolItem, id x = wanted) (items (round st))).

(** [pending]: the pairs left. *)
Definition pending (st : State) : Z :=
  Z.of_nat (length (items (round st))) - Z.of_nat (length (doneIds st)).

(** What can happen to a mounted component: the two clicks, a tick of the
    interval, the oldest timeout firing, and Next or Restart (the same
    statements) with the random source they draw from. *)
Inductive Event : Type :=
  | ChooseLatin (i : string)
  | ChooseMeaning (i : string)
  | Tick
  | Fire
  | NextRound (g : Rng).

Definition step (e : Event) (st : State) : State * list Summary :=
  match e with
  | ChooseLatin i => (chooseLatin i st, [])
  | ChooseMeaning i => (chooseMeaning i st, [])
  | Tick => tick st
  | Fire => fire st
  | NextRound g => ((nextRound g st).1, [])
  end.

(** A sequence of events, with all the calls of [onRoundEnd] it makes. *)
Fixpoint run (es : list Event) (st : State) : State * list Summary :=
  match es with
  | [] => (st, [])
  | e :: es' =>
      let '(st1, calls1) := step e st in
      let '(st2, calls2) := run es' st1 in
      (st2, calls1 ++ calls2)
  end.

(** The clicks the rendered columns allow: the buttons of the Latin column
    carry the identifiers of [round.left], those of the meaning column the
    identifiers of [round.right].  For any other identifier [itemById]
    returns [undefined], and the handlers would read a property of it. *)
Definition offered (e : Event) (st : State) : bool :=
  match e with
  | ChooseLatin i => bool_decide (i ∈ left (round st))
  | ChooseMeaning i => bool_decide (i ∈ right (round st))
  | _ => true
  end.

Fixpoint playable (es : list Event) (st : State) : bool :=
  match es with
  | [] => true
  | e :: es' => offered e st && playable es' (step e st).1
  end.

End Match.

(** ** Mode 2: Sighting Log *)

Module Sighting.

(** The values ["subject"] and ["object"] of [adjTargets]. *)
Inductive Target : Type := Subject | Object.

#[global] Instance Target_eq_dec : EqDecision Target.
Proof. solve_decision. Defined.

Record Challenge : Type := mkChallenge {
  len : Z;
  subject : Noun;
  object : Noun;
  verb : Verb;
  adj : option Adjective;
  adjTargets : option Target;
  english : string;
  latin : list (option string);
  logLine : option string;
  grammarTip : string }.

Record Tile : Type := mkTile {
  id : string;
  text : option string;
  correct : bool }.

#[global] Instance Tile_eq_dec : EqDecision Tile.
Proof. solve_decision. Defined.

(** The resolved word of adjective [a] for a case and a gender:
    [adjForm(a, aCase, gender) || a.lemma], as [makeChallenge] (for
    [adjWord]) and [makeTiles] (for [wrongAdj]) both write it, with the
    gender of the target noun. *)
Definition adjWordFor (a : Adjective) (aCase : GramCase) (gender : Gender) : string :=
  or_else (adjForm a aCase gender) (adj_lemma a).

Definition makeChallenge (len : Z) (g : Rng) : option (Challenge * Rng) :=
  let '(subject, g1) := pick (filter (λ n : Noun, noun_id n ≠ "verbum") NOUNS) g in
  subject ← subject;
  let '(object, g2) := pick (filter (λ n : Noun, noun_id n ≠ noun_id subject) NOUNS) g1 in
  object ← object;
  let '(verb, g3) := pick VERBS g2 in
  verb ← verb;
  let useAdj := bool_decide (4 ≤ len) in
  let '(adj, g4) := if useAdj then pick ADJECTIVES g3 else (None, g3) in
  let '(adjTargets, g5) :=
    if useAdj
    then let '(u, g') := random g4 in
         (Some (if below_half u then Subject else Object), g')
    else (None, g4) in
  let subjWord := nounForm subject nomSg in
  let objWord := nounForm object accSg in
  let verbWord := Some (pres3s verb) in
  let adjWord :=
    match useAdj, adj with
    | true, Some a =>
        let targetNoun := if bool_decide (adjTargets = Some Subject) then subject else object in
        let aCase := if bool_decide (adjTargets = Some Subject) then nomSg else accSg in
        Some (adjWordFor a aCase (noun_gender targetNoun))
    | _, _ => None
    end in
  let latin :=
    if useAdj
    then if bool_decide (adjTargets = Some Subject)
         then [adjWord; subjWord; verbWord; objWord]
         else [subjWord; verbWord; adjWord; objWord]
    else [subjWord; verbWord; objWord] in
  let does := replace_first "I " "" (verb_meaning verb) in
  english ←
    (if useAdj
     then a ← adj;
          Some (if bool_decide (adjTargets = Some Subject)
                then "The " +:+ adj_meaning a +:+ " " +:+ noun_meaning subject +:+ " "
                     +:+ does +:+ " the " +:+ noun_meaning object +:+ "."
                else "The " +:+ noun_meaning subject +:+ " " +:+ does +:+ " the "
                     +:+ adj_meaning a +:+ " " +:+ noun_meaning object +:+ ".")
     else Some ("The " +:+ noun_meaning subject +:+ " " +:+ does +:+ " the "
                +:+ noun_meaning object +:+ "."));
  let '(logLine, g6) :=
    pick ["Sighting logged!"; "Field note added!"; "Checklist updated!";
          "Rare behavior observed!"] g5 in
  Some (mkChallenge len subject object verb adj adjTargets english latin logLine
          (if useAdj
           then "Adjectives match the noun: gender + case. NOM = subject, ACC = object."
           else "Subject = NOM. Object = ACC. Verb ending shows who does it (3rd sg)."),
        g6).

Definition correctTiles (ch : Challenge) : list Tile :=
  imap (λ i t, mkTile ("c-" +:+ pretty i +:+ "-" +:+ interp t) t true) (latin ch).

(** The decoys of [makeTiles], given the verb that [pick] returned. *)
Definition decoysWith (ch : Challenge) (otherVerb : Verb) : list Tile :=
  [ mkTile "d-subj-wrong" (nounForm (subject ch) accSg) false;
    mkTile "d-obj-wrong" (nounForm (object ch) nomSg) false;
    mkTile "d-verb" (Some (pres3s otherVerb)) false ]
  ++ match bool_decide (4 ≤ len ch), adj ch with
     | true, Some a =>
         let targetNoun :=
           if bool_decide (adjTargets ch = Some Subject) then subject ch else object ch in
         let wrongCase :=
           if bool_decide (adjTargets ch = Some Subject) then accSg else nomSg in
         [ mkTile "d-adj" (Some (adjWordFor a wrongCase (noun_gender targetNoun))) false ]
     | _, _ => []
     end.

Definition makeTiles (ch : Challenge) (g : Rng) : option (list Tile * Rng) :=
  let '(otherVerb, g1) :=
    pick (filter (λ v : Verb, verb_id v ≠ verb_id (verb ch)) VERBS) g in
  otherVerb ← otherVerb;
  let '(shuffled, g2) := shuffle (correctTiles ch ++ decoysWith ch otherVerb) g1 in
  let all := slice0 10 shuffled in
  Some (shuffle all g2).

(** The two callbacks [tapTile] hands to [setTimeout]: the end of the
    round, with the [newScore] and [nextCombo] it computed, and the removal
    of the last tile. *)
Inductive Timer : Type :=
  | RoundComplete (newScore nextCombo : Z)
  | RemoveLast.

Record State : Type := mkState {
  difficultyKey : string;
  phase : Phase;
  secondsLeft : Z;
  challenge : Challenge;
  tiles : list Tile;
  answer : list Tile;
  combo : Z;
  score : Z;
  endNote : option string;
  timers : list Timer }.

Definition totalTime (key : string) : Z := time (conf_of key).

(** The state of a round that starts with challenge [ch] and tiles [ts];
    pending timeouts of the component survive into it. *)
Definition fresh (key : string) (ch : Challenge) (ts : list Tile)
    (pending : list Timer) : State :=
  mkState key playing (totalTime key) ch ts [] 0 0 None pending.

(** The first render, and [nextRound] (the Restart button runs the same
    statements). *)
Definition mount (key : string) (g : Rng) : option (State * Rng) :=
  '(ch, g1) ← makeChallenge (sentenceLen (conf_of key)) g;
  '(ts, g2) ← makeTiles ch g1;
  Some (fresh key ch ts [], g2).

Definition nextRound (g : Rng) (st : State) : option (State * Rng) :=
  '(ch, g1) ← makeChallenge (sentenceLen (conf_of (difficultyKey st))) g;
  '(ts, g2) ← makeTiles ch g1;
  Some (fresh (difficultyKey st) ch ts (timers st), g2).

(** [finishRound(reason)] of the current render. *)
Definition finishRound (reason : string) (st : State) : State * list Summary :=
  (mkState (difficultyKey st) paused (secondsLeft st) (challenge st) (tiles st)
           (answer st) (combo st) (score st) (Some reason) (timers st),
   [mkSummary "Sighting Log" (score st) (combo st)]).

Definition tick (st : State) : State * list Summary :=
  match phase st with
  | paused => (st, [])
  | playing =>
      let st' := mkState (difficultyKey st) (phase st) (secondsLeft st - 1)
                         (challenge st) (tiles st) (answer st) (combo st)
                         (score st) (endNote st) (timers st) in
      if bool_decide (secondsLeft st' ≤ 0) then finishRound "Time!" st' else (st', [])
  end.

Definition tapTile (tile : Tile) (st : State) : State :=
  if bool_decide (phase st ≠ playing) then st
  else if bool_decide (length (latin (challenge st)) ≤ length (answer st))%nat then st
  else if bool_decide (Exists (λ a, id a = id tile) (answer st)) then st
  else
    let next := answer st ++ [tile] in
    if bool_decide (length next = length (latin (challenge st))) then
      let built := text <$> next in
      let correct := bool_decide (join " " built = join " " (latin (challenge st))) in
      if correct then
        let nextCombo := combo st + 1 in
        let gained := xpFor true (secondsLeft st) nextCombo (difficultyKey st) in
        let newScore := score st + gained in
        mkState (difficultyKey st) (phase st) (secondsLeft st) (challenge st)
                (tiles st) next nextCombo newScore (endNote st)
                (timers st ++ [RoundComplete newScore nextCombo])
      else
        mkState (difficultyKey st) (phase st) (secondsLeft st) (challenge st)
                (tiles st) next 0 (score st) (endNote st)
                (timers st ++ [RemoveLast])
    else
      mkState (difficultyKey st) (phase st) (secondsLeft st) (challenge st)
              (tiles st) next (combo st) (score st) (endNote st) (timers st).

(** The oldest pending timeout fires. *)
Definition fire (st : State) : State * list Summary :=
  match timers st with
  | [] => (st, [])
  | RoundComplete newScore nextCombo :: rest =>
      (mkState (difficultyKey st) paused (secondsLeft st) (challenge st) (tiles st)
               (answer st) (combo st) (score st) (Some "Correct! Round complete.")
               rest,
       [mkSummary "Sighting Log" newScore nextCombo])
  | RemoveLast :: rest =>
      (mkState (difficultyKey st) (phase st) (secondsLeft st) (challenge st)
               (tiles st) (popLast (answer st)) (combo st) (score st) (endNote st)
               rest,
       [])
  end.

(** Tapping the tiles of [ts] one after the other. *)
Definition tapAll (ts : list Tile) (st : State) : State :=
  foldl (λ s t, tapTile t s) st ts.

(** The pending timeout number [i] fires.  The two callbacks have different
    delays (180 ms and 250 ms), so the one that fires is not always the
    oldest. *)
Definition fireAt (i : nat) (st : State) : State * list Summary :=
  match timers st !! i with
  | None => (st, [])
  | Some (RoundComplete newScore nextCombo) =>
      (mkState (difficultyKey st) paused (secondsLeft st) (challenge st) (tiles st)
               (answer st) (combo st) (score st) (Some "Correct! Round complete.")
               (delete i (timers st)),
       [mkSummary "Sighting Log" newScore nextCombo])
  | Some RemoveLast =>
      (mkState (difficultyKey st) (phase st) (secondsLeft st) (challenge st)
               (tiles st) (popLast (answer st)) (combo st) (score st) (endNote st)
               (delete i (timers st)),
       [])
  end.

(** What can happen to a mounted component: a tap on a tile, a tick, a
    pending timeout firing, and Next or Restart. *)
Inductive Event : Type :=
  | Tap (tile : Tile)
  | Tick
  | Fire (i : nat)
  | NextRound (g : Rng).

Definition step (e : Event) (st : State) : State * list Summary :=
  match e with
  | Tap tile => (tapTile tile st, [])
  | Tick => tick st
  | Fire i => fireAt i st
  | NextRound g =>
      (match nextRound g st with
       | Some (st', _) => st'
       | None => st
       end, [])
  end.

Fixpoint run (es : list Event) (st : State) : State * list Summary :=
  match es with
  | [] => (st, [])
  | e :: es' =>
      let '(st1, calls1) := step e st in
      let '(st2, calls2) := run es' st1 in
      (st2, calls1 ++ calls2)
  end.

(** The events of one round: neither Next nor Restart among them. *)
Definition one_round (es : list Event) : bool :=
  forallb (λ e, match e with NextRound _ => false | _ => true end) es.

End Sighting.

(** ** Auxiliary definitions for the statements *)

(** The word an adjective slot holds for target [t]. *)
Definition slotWord (ch : Sighting.Challenge) (a : Adjective) (t : Sighting.Target)
  : string :=
  match t with
  | Sighting.Subject => Sighting.adjWordFor a nomSg (noun_gender (Sighting.subject ch))
  | Sighting.Object => Sighting.adjWordFor a accSg (noun_gender (Sighting.object ch))
  end.

(** The three shapes of an expected sentence. *)
Definition sentence (ch : Sighting.Challenge) (a : option (Adjective * Sighting.Target))
  : list (option string) :=
  let subjWord := nounForm (Sighting.subject ch) nomSg in
  let objWord := nounForm (Sighting.object ch) accSg in
  let verbWord := Some (pres3s (Sighting.verb ch)) in
  match a with
  | None => [subjWord; verbWord; objWord]
  | Some (a, Sighting.Subject) =>
      [Some (slotWord ch a Sighting.Subject); subjWord; verbWord; objWord]
  | Some (a, Sighting.Object) =>
      [subjWord; verbWord; Some (slotWord ch a Sighting.Object); objWord]
  end.





(** The award written with the helpers of the code:
    round(multiplier x (28 + speed bonus + combo bonus)). *)
Definition award (multiplier : Q) (secondsRemaining newComboLength : Z) : Z :=
  Math_round
    (multiplier *
     inject_Z (28 + clamp (Math_floor (inject_Z secondsRemaining * (16 # 10))) 0 45
                  + clamp (newComboLength * 7) 0 70))%Q.

(** The sum of the awards of [k] correct actions in a row that start from
    combo [combo], at a fixed number of seconds left. *)
Fixpoint streak (multiplier : Q) (secondsRemaining combo : Z) (k : nat) : Z :=
  match k with
  | O => 0
  | S k' => award multiplier secondsRemaining (combo + 1)
            + streak multiplier secondsRemaining (combo + 1) k'
  end.

(** A string without a space, and a token that is such a string. *)
Fixpoint no_space (s : string) : bool :=
  match s with
  | EmptyString => true
  | String c s' => negb (Ascii.eqb c " "%char) && no_space s'
  end.

Definition is_word (t : option string) : bool :=
  match t with
  | Some s => no_space s
  | None => false
  end.

(** The decoys among the offered tiles. *)
Definition decoysOf (ts : list Sighting.Tile) : list Sighting.Tile :=
  filter (λ t : Sighting.Tile, Sighting.correct t = false) ts.

(** A state of the sighting round with another partial answer. *)
Definition with_answer (next : list Sighting.Tile) (st : Sighting.State) : Sighting.State :=
  Sighting.mkState (Sighting.difficultyKey st) (Sighting.phase st)
    (Sighting.secondsLeft st) (Sighting.challenge st) (Sighting.tiles st) next
    (Sighting.combo st) (Sighting.score st) (Sighting.endNote st) (Sighting.timers st).

(** The two outcomes of a full answer [next] in state [st]. *)
Definition judged_correct (next : list Sighting.Tile) (st : Sighting.State) : Sighting.State :=
  let nextCombo := Sighting.combo st + 1 in
  let newScore :=
    Sighting.score st
    + xpFor true (Sighting.secondsLeft st) nextCombo (Sighting.difficultyKey st) in
  Sighting.mkState (Sighting.difficultyKey st) (Sighting.phase st)
    (Sighting.secondsLeft st) (Sighting.challenge st) (Sighting.tiles st) next
    nextCombo newScore (Sighting.endNote st)
    (Sighting.timers st ++ [Sighting.RoundComplete newScore nextCombo]).

Definition judged_wrong (next : list Sighting.Tile) (st : Sighting.State) : Sighting.State :=
  Sighting.mkState (Sighting.difficultyKey st) (Sighting.phase st)
    (Sighting.secondsLeft st) (Sighting.challenge st) (Sighting.tiles st) next
    0 (Sighting.score st) (Sighting.endNote st)
    (Sighting.timers st ++ [Sighting.RemoveLast]).

(** A generator that returns the listed samples [(un, ud)] in order, and
    zero afterwards. *)
Definition rng_of (samples : list (nat * nat)) : Rng :=
  mkRng (λ i, match samples !! i with
              | Some (a, b) => mkSample a b
              | None => mkSample 0 0
              end) 0.

(** A noun carries a declension class when [decl] is one of the three
    classes the lexicon uses. *)
Definition has_declension (N : Noun) : Prop := 1 ≤ noun_decl N ≤ 3.

(** An easy sentence the generator produces: "puella portat portam". *)
Definition puella : Noun := noun_entry "puella" "puella" 1 g_f "girl" "puella" "puellam" None.
Definition porta : Noun := noun_entry "porta" "porta" 1 g_f "gate" "porta" "portam" None.
Definition verbum : Noun := noun_entry "verbum" "verbum" 2 g_n "word" "verbum" "verbum" None.
Definition porto : Verb := mkVerb "porto" "portō" "I carry" "portat" "1st conj (-āre): -at".

Definition girl_rng : Rng :=
  rng_of ([(0, 0); (7, 12); (9, 12); (0, 0); (0, 0)] ++ replicate 10 (99, 0))%nat.

Definition girl_challenge : Sighting.Challenge :=
  Sighting.mkChallenge 3 puella porta porto None None
    "The girl carry the gate."
    [Some "puella"; Some "portat"; Some "portam"]
    (Some "Sighting logged!")
    "Subject = NOM. Object = ACC. Verb ending shows who does it (3rd sg).".

Definition tile_puella : Sighting.Tile := Sighting.mkTile "c-0-puella" (Some "puella") true.
Definition tile_portat : Sighting.Tile := Sighting.mkTile "c-1-portat" (Some "portat") true.
Definition tile_portam : Sighting.Tile := Sighting.mkTile "c-2-portam" (Some "portam") true.
Definition tile_puellam : Sighting.Tile := Sighting.mkTile "d-subj-wrong" (Some "puellam") false.
Definition tile_porta : Sighting.Tile := Sighting.mkTile "d-obj-wrong" (Some "porta") false.
Definition tile_amat : Sighting.Tile := Sighting.mkTile "d-verb" (Some "amat") false.

Definition girl_tiles : list Sighting.Tile :=
  [tile_puella; tile_portat; tile_portam; tile_puellam; tile_porta; tile_amat].

(** The round on that sentence, at normal difficulty. *)
Definition girl_round : Sighting.State :=
  Sighting.fresh "normal" girl_challenge girl_tiles [].




(** The round on that sentence in its last second, two tiles placed. *)
Definition girl_last_second : Sighting.State :=
  Eval vm_compute in
    (Sighting.run ([Sighting.Tap tile_puella; Sighting.Tap tile_portat]
                   ++ replicate (Z.to_nat (Sighting.totalTime "normal") - 1)
                                Sighting.Tick)
                  girl_round).1.

(** A round whose subject is neuter: "bellum amat puellam". *)
Definition war_rng : Rng :=
  rng_of ([(15, 4); (0, 0); (0, 0); (0, 0); (0, 0)] ++ replicate 10 (99, 0))%nat.

Definition war_challenge : Sighting.Challenge :=
  Eval vm_compute in
    default girl_challenge (fst <$> Sighting.makeChallenge 3 war_rng).

Definition war_tiles : list Sighting.Tile :=
  Eval vm_compute in
    default [] (fst <$> Sighting.makeTiles war_challenge (mkRng (draws war_rng) 4)).


(** A match round at easy difficulty, and the player who pairs every item
    of it with its own meaning, in the order of the round's items. *)
Definition match_rng : Rng := rng_of (replicate 80 (99, 0))%nat.

Definition match_start : Match.State :=
  Eval vm_compute in (Match.mount "easy" match_rng).1.


Definition match_pair (id : string) (st : Match.State) : Match.State :=
  Match.chooseMeaning id (Match.chooseLatin id st).

Definition match_played : Match.State :=
  foldl (λ st it, match_pair (Match.id it) st) match_start
        (Match.items (Match.round match_start)).

(** The easy round in its last second: 27 ticks, then every pair matched. *)
Definition match_last_second : Match.State :=
  Eval vm_compute in
    foldl (λ st it, match_pair (Match.id it) st)
          (Match.run (replicate 27 Match.Tick) match_start).1
          (Match.items (Match.round match_start)).

(** [k] ticks in a row, with the calls of [onRoundEnd] they make. *)
Fixpoint match_ticks (k : nat) (st : Match.State) : Match.State * list Summary :=
  match k with
  | O => (st, [])
  | S k' =>
      let '(st1, calls1) := Match.tick st in
      let '(st2, calls2) := match_ticks k' st1 in
      (st2, calls1 ++ calls2)
  end.

(** The player who pairs two items, then picks a wrong meaning and lets the
    time run out. *)
Definition match_two_pairs : Match.State :=
  match_pair "puella-acc" (match_pair "puella-nom" match_start).

Definition match_slump : Match.State * list Summary :=
  match_ticks 28
    (Match.chooseMeaning "femina-acc" (Match.chooseLatin "femina-nom" match_two_pairs)).

(** A catalog of four cards and a player without progress. *)
Definition four_birds : list BirdCard :=
  [ mkBirdCard "b1" "Robin" "Erithacus rubecula" "common" "";
    mkBirdCard "b2" "Wren" "Troglodytes troglodytes" "common" "";
    mkBirdCard "b3" "Barn owl" "Tyto alba" "rare" "";
    mkBirdCard "b4" "Golden eagle" "Aquila chrysaetos" "epic" "" ].

Definition new_app : AppState := mkApp base None None.

(** The four sections of the persisted state with their baseline
    defaults. *)
Definition base_sections : list (string * gmap string JSON) :=
  [ ("player", player_obj (player base));
    ("best", best_obj (best base));
    ("collection", collection_obj (collection base));
    ("settings", settings_obj (settings base)) ].

(** What the stored value [v] holds for field [fld] of section [key], after
    the [|| {}] of [loadState]. *)
Definition stored_field (v : JSON) (key fld : string) : option JSON :=
  section ← get_prop v key;
  own_props (or_empty section) !! fld.

(** Three stored states: a partial one, one with a field of the wrong
    type, and the value [null]. *)
Definition only_totalXP : Window :=
  Some (Some (Parsable (JObj {[ "best" := JObj {[ "totalXP" := JNum 500 ]} ]}))).

Definition text_totalXP : Window :=
  Some (Some (Parsable (JObj {[ "best" := JObj {[ "totalXP" := JStr "lots" ]} ]}))).

Definition stored_null : Window := Some (Some (Parsable JNull)).

(** What stays true of a match round: the resolved identifiers are
    distinct, the combo counts no more answers than are resolved, every
    resolved pair has paid between 24 and 172 points, and the clock is within
    the round's time, with a second left while the round is played. *)
Definition match_inv (st : Match.State) : Prop :=
  NoDup (Match.doneIds st) ∧
  0 ≤ Match.combo st ≤ Z.of_nat (length (Match.doneIds st)) ∧
  24 * Z.of_nat (length (Match.doneIds st)) ≤ Match.score st
    ≤ 172 * Z.of_nat (length (Match.doneIds st)) ∧
  0 ≤ Match.secondsLeft st ≤ Match.totalTime (Match.difficultyKey st) ∧
  (Match.phase st = playing → 1 ≤ Match.secondsLeft st).

(** What stays true of a sighting round: the answer is never longer than
    the sentence, no tile is in it twice, combo and score are not negative,
    and the clock is as in a match round. *)
Definition sighting_inv (st : Sighting.State) : Prop :=
  (length (Sighting.answer st) ≤ length (Sighting.latin (Sighting.challenge st)))%nat ∧
  NoDup (Sighting.id <$> Sighting.answer st) ∧
  0 ≤ Sighting.combo st ∧ 0 ≤ Sighting.score st ∧
  0 ≤ Sighting.secondsLeft st ≤ Sighting.totalTime (Sighting.difficultyKey st) ∧
  (Sighting.phase st = playing → 1 ≤ Sighting.secondsLeft st).

(** The round of a match state is well formed, and the resolved
    identifiers are identifiers of its items. *)
Definition match_header_inv (st : Match.State) : Prop :=
  NoDup (Match.id <$> Match.items (Match.round st)) ∧
  Match.right (Match.round st) ≡ₚ Match.id <$> Match.items (Match.round st) ∧
  Match.doneIds st ⊆ Match.id <$> Match.items (Match.round st).

(** Every slot of the sentence is filled. *)
Definition sighting_full (st : Sighting.State) : Prop :=
  length (Sighting.answer st) = length (Sighting.latin (Sighting.challenge st)).

(** What holds of one sighting round that started without a pending
    timeout, and of the reports [calls] it has made so far.  Every report
    carries the score and the combo of the state, and the round is paused
    once there is one.  Before the accepted sentence score and combo are 0
    and the only timeout that can be pending is the removal of the last tile
    of a full answer; after it the score is the one award, the combo is 1,
    the answer is the accepted sentence, and the end of the round is either
    pending or has been reported. *)
Definition sighting_round_inv (st : Sighting.State) (calls : list Summary) : Prop :=
  (∀ c, c ∈ calls →
     c = mkSummary "Sighting Log" (Sighting.score st) (Sighting.combo st) ∧
     Sighting.phase st = paused) ∧
  ((Sighting.score st = 0 ∧ Sighting.combo st = 0 ∧ (length calls ≤ 1)%nat ∧
    (Sighting.timers st = [] ∨
     (Sighting.timers st = [Sighting.RemoveLast] ∧ sighting_full st)))
   ∨ (24 ≤ Sighting.score st ≤ 172 ∧ Sighting.combo st = 1 ∧ sighting_full st ∧
      join " " (Sighting.text <$> Sighting.answer st)
        = join " " (Sighting.latin (Sighting.challenge st)) ∧
      ((Sighting.timers st
          = [Sighting.RoundComplete (Sighting.score st) (Sighting.combo st)] ∧
        (length calls ≤ 1)%nat)
       ∨ (Sighting.timers st = [] ∧ Sighting.phase st = paused ∧
          (1 ≤ length calls ≤ 2)%nat)))).

Arguments random : simpl never.
Arguments pick : simpl never.
Arguments shuffle : simpl never.
Arguments xpFor : simpl never.

(** * Properties *)

(** ** The helpers *)

Section Helpers.
Context {T : Type}.
Implicit Types (a arr : list T) (g : Rng) (u : Sample).

Lemma scale_lt u (k : nat) : (0 < k)%nat → (scale u k < k)%nat.
Proof.
  intros Hk. unfold scale.
  apply Nat.Div0.div_lt_upper_bound. nia.
Qed.

Lemma pick_elem arr g x g' : pick arr g = (Some x, g') → x ∈ arr.
Proof.
  unfold pick, random. intros [= Hx _].
  by eapply list_elem_of_lookup_2.
Qed.

Lemma pick_nonempty arr g : arr ≠ [] → is_Some (fst (pick arr g)).
Proof.
  intros Hne. unfold pick, random. simpl.
  apply lookup_lt_is_Some, scale_lt.
  destruct arr; [done | simpl; lia].
Qed.

Lemma swap_length a i j : length (swap a i j) = length a.
Proof.
  unfold swap. destruct (a !! i), (a !! j); by rewrite ?length_insert.
Qed.

Lemma insert_cons_perm a i x y :
  a !! i = Some y → x :: a ≡ₚ y :: <[i := x]> a.
Proof.
  revert i. induction a as [|z a IH]; intros [|i] Hi; simplify_eq/=.
  - apply perm_swap.
  - rewrite (perm_swap z x). rewrite (IH _ Hi). apply perm_swap.
Qed.

Lemma swap_perm a i j : swap a i j ≡ₚ a.
Proof.
  unfold swap.
  destruct (a !! i) as [x|] eqn:Hi; [|done].
  destruct (a !! j) as [y|] eqn:Hj; [|done].
  destruct (decide (i = j)) as [->|Hne].
  - simplify_eq. rewrite list_insert_insert_eq. by rewrite list_insert_id.
  - apply (inj (cons y)).
    rewrite <-(insert_cons_perm (<[i := y]> a) j x y)
      by (by rewrite list_lookup_insert_ne).
    symmetry. apply insert_cons_perm, Hi.
Qed.

Lemma shuffle_from_perm i a g : (shuffle_from i a g).1 ≡ₚ a.
Proof.
  revert a g. induction i as [|i IH]; intros a g; [done|].
  simpl. rewrite IH. apply swap_perm.
Qed.

Lemma shuffle_perm arr g : (shuffle arr g).1 ≡ₚ arr.
Proof. apply shuffle_from_perm. Qed.


Lemma popLast_nil : popLast (@nil T) = [].
Proof. done. Qed.
End Helpers.

(** ** The challenge generator *)

Lemma nouns_other_nonempty (s : string) :
  filter (λ n : Noun, noun_id n ≠ s) NOUNS ≠ [].
Proof.
  destruct (decide (s = "puella")) as [->|Hne].
  - by vm_compute.
  - unfold NOUNS. rewrite filter_cons_True by (simpl; congruence). done.
Qed.

Lemma makeChallenge_inv len g ch g' :
  Sighting.makeChallenge len g = Some (ch, g') →
  Sighting.len ch = len ∧
  Sighting.subject ch ∈ NOUNS ∧ noun_id (Sighting.subject ch) ≠ "verbum" ∧
  Sighting.object ch ∈ NOUNS ∧
  noun_id (Sighting.object ch) ≠ noun_id (Sighting.subject ch) ∧
  Sighting.verb ch ∈ VERBS ∧
  ((len < 4 ∧ Sighting.adj ch = None ∧ Sighting.adjTargets ch = None ∧
    Sighting.latin ch = sentence ch None)
   ∨ (4 ≤ len ∧ ∃ a t, a ∈ ADJECTIVES ∧ Sighting.adj ch = Some a ∧
        Sighting.adjTargets ch = Some t ∧
        Sighting.latin ch = sentence ch (Some (a, t)))).
Proof.
  unfold Sighting.makeChallenge.
  destruct (pick (T:=Noun) _ g) as [[subject|] g1] eqn:Hs; [|done].
  cbn [mbind option_bind].
  destruct (pick (T:=Noun) _ g1) as [[object|] g2] eqn:Ho; [|done].
  cbn [mbind option_bind].
  destruct (pick (T:=Verb) _ g2) as [[verb|] g3] eqn:Hv; [|done].
  cbn [mbind option_bind].
  apply pick_elem, list_elem_of_filter in Hs as [Hs1 Hs2].
  apply pick_elem, list_elem_of_filter in Ho as [Ho1 Ho2].
  apply pick_elem in Hv.
  case_bool_decide as Hlen.
  - destruct (pick (T:=Adjective) _ g3) as [[a|] g4] eqn:Ha; [|done].
    apply pick_elem in Ha.
    destruct (random g4) as [u g5]. cbn [mbind option_bind].
    destruct (pick (T:=string) _ g5) as [logLine g6].
    intros [= <- <-]. simpl.
    repeat split; try done.
    right. split; [done|].
    destruct (below_half u).
    + exists a, Sighting.Subject. by rewrite !bool_decide_eq_true_2.
    + exists a, Sighting.Object. by rewrite !bool_decide_eq_false_2.
  - cbn [mbind option_bind]. destruct (pick (T:=string) _ g3) as [logLine g6].
    intros [= <- <-]. simpl.
    repeat split; try done.
    left. repeat split; [lia|done..].
Qed.

Lemma makeChallenge_total len g : is_Some (Sighting.makeChallenge len g).
Proof.
  unfold Sighting.makeChallenge.
  destruct (pick (T:=Noun) _ g) as [subject g1] eqn:Hs.
  destruct (pick_nonempty (filter (λ n : Noun, noun_id n ≠ "verbum") NOUNS) g)
    as [s Hs']; [by vm_compute|].
  rewrite Hs in Hs'. simpl in Hs'. subst subject. cbn [mbind option_bind].
  destruct (pick (T:=Noun) _ g1) as [object g2] eqn:Ho.
  destruct (pick_nonempty (filter (λ n : Noun, noun_id n ≠ noun_id s) NOUNS) g1)
    as [o Ho']; [apply nouns_other_nonempty|].
  rewrite Ho in Ho'. simpl in Ho'. subst object. cbn [mbind option_bind].
  destruct (pick (T:=Verb) _ g2) as [verb g3] eqn:Hv.
  destruct (pick_nonempty VERBS g2) as [v Hv']; [done|].
  rewrite Hv in Hv'. simpl in Hv'. subst verb. cbn [mbind option_bind].
  case_bool_decide.
  - destruct (pick (T:=Adjective) _ g3) as [adj g4] eqn:Ha.
    destruct (pick_nonempty ADJECTIVES g3) as [a Ha']; [done|].
    rewrite Ha in Ha'. simpl in Ha'. subst adj.
    destruct (random g4) as [u g5]. cbn [mbind option_bind].
    by destruct (pick (T:=string) _ g5).
  - cbn [mbind option_bind]. by destruct (pick (T:=string) _ g3).
Qed.

Lemma girl_challenge_generated :
  Sighting.makeChallenge 3 girl_rng = Some (girl_challenge, mkRng (draws girl_rng) 4).
Proof. by vm_compute. Qed.

Lemma girl_tiles_generated :
  Sighting.makeTiles girl_challenge (mkRng (draws girl_rng) 4)
  = Some (girl_tiles, mkRng (draws girl_rng) 15).
Proof. by vm_compute. Qed.

(** C10: every challenge [makeChallenge] generates (and it always generates
    one) has a subject whose identifier is not "verbum"; the object is under
    no such restriction, and "verbum" does occur as the object. *)
Theorem C10_subject_is_never_verbum :
  (∀ len g, ∃ ch g',
      Sighting.makeChallenge len g = Some (ch, g') ∧
      noun_id (Sighting.subject ch) ≠ "verbum") ∧
  (∃ g ch g',
      Sighting.makeChallenge 3 g = Some (ch, g') ∧
      noun_id (Sighting.object ch) = "verbum").
Proof.
  split.
  - intros len g.
    destruct (makeChallenge_total len g) as [[ch g'] Hch].
    exists ch, g'. split; [done|].
    by apply makeChallenge_inv in Hch as (_ & _ & ? & _).
  - exists (rng_of [(0, 0); (14, 5)]%nat).
    destruct (makeChallenge_total 3 (rng_of [(0, 0); (14, 5)]%nat)) as [[ch g'] Hch].
    exists ch, g'. split; [done|].
    vm_compute in Hch. by injection Hch as <- _.
Qed.

(** ** The form resolvers *)

Lemma nouns_forms N :
  N ∈ NOUNS →
  ∃ a b, nounForm N accSg = Some a ∧ nounForm N nomSg = Some b ∧
         (a = b ↔ noun_gender N = g_n).
Proof.
  intros HN. unfold NOUNS in HN.
  repeat (apply elem_of_cons in HN as [->|HN]);
    try (eexists _, _; split; [reflexivity|]; split; [reflexivity|];
         split; intros ?; done).
  by apply not_elem_of_nil in HN.
Qed.

(** C9 (as amended): every noun of the lexicon has both forms, and its
    accusative differs from its nominative exactly when the noun is not
    neuter; for the neuter nouns the two forms are the same word. *)
Theorem C9_accusative_differs_unless_neuter (N : Noun) :
  N ∈ NOUNS →
  ∃ a b, nounForm N accSg = Some a ∧ nounForm N nomSg = Some b ∧
         (noun_gender N ≠ g_n → a ≠ b) ∧ (noun_gender N = g_n → a = b).
Proof.
  intros HN. destruct (nouns_forms N HN) as (a & b & Ha & Hb & Hab).
  destruct Hab as [Hab1 Hab2].
  exists a, b. repeat split; [done..| |done].
  intros Hn Heq. by apply Hn, Hab1.
Qed.

(** The noun "puella": accusative "puellam". *)
Lemma C9_accusative_differs_unless_neuter_witness :
  ∃ a b, nounForm puella accSg = Some a ∧ nounForm puella nomSg = Some b ∧
         (noun_gender puella ≠ g_n → a ≠ b) ∧ (noun_gender puella = g_n → a = b).
Proof.
  apply (C9_accusative_differs_unless_neuter puella).
  apply list_elem_of_here.
Defined.

(** C9 (as stated) fails: "verbum" is in the lexicon with declension class
    2 and both forms defined, and its accusative is its nominative. *)
Lemma C9_verbum_has_one_form :
  ¬ (∀ N, N ∈ NOUNS → has_declension N →
       ∀ a b, nounForm N accSg = Some a → nounForm N nomSg = Some b → a ≠ b).
Proof.
  intros H.
  refine (H verbum _ _ "verbum" "verbum" eq_refl eq_refl eq_refl).
  - unfold NOUNS. do 14 apply list_elem_of_further. apply list_elem_of_here.
  - unfold has_declension. simpl. lia.
Qed.




(** ** The sighting round *)

Lemma tapTile_accepted tile st :
  Sighting.phase st = playing →
  (length (Sighting.answer st) < length (Sighting.latin (Sighting.challenge st)))%nat →
  ¬ Exists (λ a, Sighting.id a = Sighting.id tile) (Sighting.answer st) →
  Sighting.tapTile tile st =
    let next := Sighting.answer st ++ [tile] in
    if bool_decide (length next = length (Sighting.latin (Sighting.challenge st)))
    then if bool_decide (join " " (Sighting.text <$> next)
                         = join " " (Sighting.latin (Sighting.challenge st)))
         then judged_correct next st
         else judged_wrong next st
    else with_answer next st.
Proof.
  intros Hp Hlen Hid. unfold Sighting.tapTile.
  rewrite (bool_decide_eq_false_2 (Sighting.phase st ≠ playing)) by (by intros []).
  rewrite bool_decide_eq_false_2 by lia.
  by rewrite bool_decide_eq_false_2.
Qed.

Lemma tapTile_partial tile st :
  Sighting.phase st = playing →
  (S (length (Sighting.answer st)) < length (Sighting.latin (Sighting.challenge st)))%nat →
  ¬ Exists (λ a, Sighting.id a = Sighting.id tile) (Sighting.answer st) →
  Sighting.tapTile tile st = with_answer (Sighting.answer st ++ [tile]) st.
Proof.
  intros Hp Hlen Hid. rewrite tapTile_accepted by (done || lia). simpl.
  rewrite bool_decide_eq_false_2; [done|]. rewrite length_app. simpl. lia.
Qed.

Lemma tapTile_full tile st :
  Sighting.phase st = playing →
  S (length (Sighting.answer st)) = length (Sighting.latin (Sighting.challenge st)) →
  ¬ Exists (λ a, Sighting.id a = Sighting.id tile) (Sighting.answer st) →
  Sighting.tapTile tile st =
    let next := Sighting.answer st ++ [tile] in
    if bool_decide (join " " (Sighting.text <$> next)
                    = join " " (Sighting.latin (Sighting.challenge st)))
    then judged_correct next st
    else judged_wrong next st.
Proof.
  intros Hp Hlen Hid. rewrite tapTile_accepted by (done || lia). simpl.
  rewrite bool_decide_eq_true_2; [done|]. rewrite length_app. simpl. lia.
Qed.





(** ** Scoring *)

Lemma xpFor_correct secondsLeft combo key :
  xpFor true secondsLeft combo key = award (xpMult (conf_of key)) secondsLeft combo.
Proof.
  unfold xpFor, award, Math_round. apply Qfloor_comp. ring.
Qed.

Lemma xpFor_wrong secondsLeft combo key : xpFor false secondsLeft combo key = 0.
Proof.
  unfold xpFor, Math_round. cbv beta iota zeta.
  change (inject_Z (0 + 0 + 0)) with 0%Q.
  transitivity (Qfloor (1 # 2)); [apply Qfloor_comp; ring | done].
Qed.









(** At multiplier 1 the award is the sum of its three parts. *)
Lemma award_at_multiplier_one secondsRemaining combo :
  award 1 secondsRemaining combo
  = 28 + clamp (Math_floor (inject_Z secondsRemaining * (16 # 10))) 0 45
       + clamp (combo * 7) 0 70.
Proof.
  unfold award, Math_round.
  generalize (28 + clamp (Math_floor (inject_Z secondsRemaining * (16 # 10))) 0 45
                 + clamp (combo * 7) 0 70).
  intros k.
  rewrite (Qfloor_comp _ ((k * 2 + 1) # 2)).
  - unfold Qfloor. symmetry. apply (Z.div_unique _ _ _ 1); lia.
  - unfold Qeq, Qplus, Qmult, inject_Z. simpl. lia.
Qed.

Lemma match_pair_correct id st :
  Match.phase st = playing → id ≠ "" → id ∉ Match.doneIds st →
  let st' := match_pair id st in
  Match.phase st' = playing ∧
  Match.secondsLeft st' = Match.secondsLeft st ∧
  Match.difficultyKey st' = Match.difficultyKey st ∧
  Match.doneIds st' = Match.doneIds st ++ [id] ∧
  Match.combo st' = Match.combo st + 1 ∧
  Match.score st'
  = Match.score st + award (xpMult (conf_of (Match.difficultyKey st)))
                           (Match.secondsLeft st) (Match.combo st + 1).
Proof.
  intros Hp Hne Hid. unfold match_pair, Match.chooseLatin, Match.chooseMeaning.
  rewrite (bool_decide_eq_false_2 (Match.phase st ≠ playing)) by (by intros []).
  rewrite (bool_decide_eq_false_2 (id ∈ Match.doneIds st)) by done.
  simpl.
  rewrite (bool_decide_eq_false_2 (Match.phase st ≠ playing)) by (by intros []).
  rewrite (bool_decide_eq_false_2 (id = "")) by done.
  rewrite (bool_decide_eq_false_2 (id ∈ Match.doneIds st)) by done.
  rewrite (bool_decide_eq_true_2 (id = id)) by done.
  simpl. by rewrite xpFor_correct.
Qed.

(** Pairing [ids] correctly in a row, with the clock standing still, adds
    the awards for the combos [combo + 1], [combo + 2], ... to the score and
    the number of pairs to the combo. *)
Lemma match_streak ids st :
  Match.phase st = playing → NoDup (Match.doneIds st ++ ids) → "" ∉ ids →
  let st' := foldl (λ s i, match_pair i s) st ids in
  Match.combo st' = Match.combo st + Z.of_nat (length ids) ∧
  Match.score st'
  = Match.score st + streak (xpMult (conf_of (Match.difficultyKey st)))
                            (Match.secondsLeft st) (Match.combo st) (length ids).
Proof.
  revert st. induction ids as [|i ids IH]; intros st Hp Hnd Hne; simpl.
  - split; lia.
  - apply not_elem_of_cons in Hne as [Hi Hne].
    assert (Hfresh : i ∉ Match.doneIds st).
    { apply NoDup_app in Hnd as (_ & Hd & _). intros Hin.
      apply (Hd _ Hin). left. }
    destruct (match_pair_correct i st Hp (not_eq_sym Hi) Hfresh)
      as (Hp' & Hs' & Hk' & Hd' & Hc' & Hsc').
    destruct (IH (match_pair i st)) as [IHc IHs]; [done| |done|].
    + rewrite Hd'. by rewrite <-app_assoc.
    + rewrite IHc, IHs, Hc', Hsc', Hs', Hk'. split; lia.
Qed.

(** ** Joined sentences *)

Lemma append_space_inj s1 s2 r1 r2 :
  no_space s1 → no_space s2 →
  s1 +:+ " " +:+ r1 = s2 +:+ " " +:+ r2 → s1 = s2 ∧ r1 = r2.
Proof.
  revert s2. induction s1 as [|c s1 IH]; intros [|d s2] H1 H2 Heq;
    cbn [no_space] in *; cbv [String.append] in Heq; fold String.append in Heq.
  - by injection Heq.
  - injection Heq as <- _. by rewrite Ascii.eqb_refl in H2.
  - injection Heq as -> _. by rewrite Ascii.eqb_refl in H1.
  - injection Heq as -> Heq.
    apply andb_prop_elim in H1 as [_ H1], H2 as [_ H2].
    destruct (IH s2 H1 H2 Heq) as [-> ->]. done.
Qed.

Lemma join_words_inj (l1 l2 : list (option string)) :
  length l1 = length l2 →
  Forall is_word l1 → Forall is_word l2 →
  join " " l1 = join " " l2 → l1 = l2.
Proof.
  revert l2. induction l1 as [|x l1 IH]; intros [|y l2] Hlen H1 H2 Heq;
    try done.
  apply Forall_cons in H1 as [Hx H1], H2 as [Hy H2].
  destruct x as [s|], y as [t|]; try done.
  destruct l1 as [|x' l1], l2 as [|y' l2]; try done.
  - simpl in Heq. by subst.
  - change (s +:+ " " +:+ join " " (x' :: l1) = t +:+ " " +:+ join " " (y' :: l2)) in Heq.
    apply append_space_inj in Heq as [-> Heq]; [|done..].
    f_equal. apply IH; [simpl in *; lia|done..].
Qed.

(** The words of the lexicon contain no space. *)
Lemma nouns_words N :
  N ∈ NOUNS → is_word (nounForm N nomSg) ∧ is_word (nounForm N accSg).
Proof.
  revert N. apply Forall_forall.
  apply (bool_decide_unpack _). by vm_compute.
Qed.

Lemma verbs_words v : v ∈ VERBS → no_space (pres3s v).
Proof.
  revert v. apply Forall_forall.
  apply (bool_decide_unpack _). by vm_compute.
Qed.

Lemma adjectives_words a c g : a ∈ ADJECTIVES → no_space (Sighting.adjWordFor a c g).
Proof.
  intros Ha. unfold Sighting.adjWordFor.
  revert a Ha. apply Forall_forall.
  destruct c, g; apply (bool_decide_unpack _); by vm_compute.
Qed.

Lemma challenge_words len g ch g' :
  Sighting.makeChallenge len g = Some (ch, g') →
  Forall is_word (Sighting.latin ch) ∧
  (3 ≤ length (Sighting.latin ch) ≤ 4)%nat.
Proof.
  intros Hch.
  apply makeChallenge_inv in Hch as (_ & Hs & _ & Ho & _ & Hv & Hshape).
  apply nouns_words in Hs as [Hs _]. apply nouns_words in Ho as [_ Ho].
  apply verbs_words in Hv.
  destruct Hshape as [(_ & _ & _ & ->)|(_ & a & t & Ha & _ & _ & ->)].
  - split; [|simpl; lia]. by repeat constructor.
  - destruct t; (split; [|simpl; lia]); repeat constructor; try done;
      by apply adjectives_words.
Qed.

(** No word of the lexicon serves in two slots: the tokens of a generated
    sentence are pairwise different. *)
Lemma nouns_apart s o :
  s ∈ NOUNS → o ∈ NOUNS → noun_id o ≠ noun_id s →
  nounForm s nomSg ≠ nounForm o accSg.
Proof.
  intros Hs Ho.
  assert (H : Forall (λ s, Forall (λ o, noun_id o ≠ noun_id s →
                                        nounForm s nomSg ≠ nounForm o accSg) NOUNS) NOUNS)
    by (apply (bool_decide_unpack _); by vm_compute).
  rewrite Forall_forall in H. specialize (H s Hs).
  rewrite Forall_forall in H. exact (H o Ho).
Qed.

Lemma nouns_verbs_apart s v :
  s ∈ NOUNS → v ∈ VERBS →
  nounForm s nomSg ≠ Some (pres3s v) ∧ nounForm s accSg ≠ Some (pres3s v).
Proof.
  intros Hs Hv.
  assert (H : Forall (λ s, Forall (λ v, nounForm s nomSg ≠ Some (pres3s v) ∧
                                        nounForm s accSg ≠ Some (pres3s v)) VERBS) NOUNS)
    by (apply (bool_decide_unpack _); by vm_compute).
  rewrite Forall_forall in H. specialize (H s Hs).
  rewrite Forall_forall in H. exact (H v Hv).
Qed.

Lemma adjectives_apart a c g :
  a ∈ ADJECTIVES →
  (∀ s, s ∈ NOUNS → nounForm s nomSg ≠ Some (Sighting.adjWordFor a c g) ∧
                    nounForm s accSg ≠ Some (Sighting.adjWordFor a c g)) ∧
  (∀ v, v ∈ VERBS → pres3s v ≠ Sighting.adjWordFor a c g).
Proof.
  intros Ha.
  assert (H : Forall (λ a,
                Forall (λ s, nounForm s nomSg ≠ Some (Sighting.adjWordFor a c g) ∧
                             nounForm s accSg ≠ Some (Sighting.adjWordFor a c g)) NOUNS ∧
                Forall (λ v, pres3s v ≠ Sighting.adjWordFor a c g) VERBS) ADJECTIVES)
    by (destruct c, g; apply (bool_decide_unpack _); by vm_compute).
  rewrite Forall_forall in H. destruct (H a Ha) as [Hn Hv].
  rewrite Forall_forall in Hn. rewrite Forall_forall in Hv. done.
Qed.

Lemma challenge_distinct len g ch g' :
  Sighting.makeChallenge len g = Some (ch, g') → NoDup (Sighting.latin ch).
Proof.
  intros Hch.
  apply makeChallenge_inv in Hch as (_ & Hs & _ & Ho & Hne & Hv & Hshape).
  pose proof (nouns_apart _ _ Hs Ho Hne) as Hso.
  destruct (nouns_verbs_apart _ _ Hs Hv) as [Hsv _].
  destruct (nouns_verbs_apart _ _ Ho Hv) as [_ Hov].
  destruct Hshape as [(_ & _ & _ & ->)|(_ & a & t & Ha & _ & _ & ->)].
  - simpl. repeat (apply NoDup_cons; split);
      rewrite ?elem_of_cons, ?elem_of_nil; try apply NoDup_nil_2;
        intros Hin; decompose [or] Hin; try done; congruence.
  - destruct t; simpl.
    + destruct (adjectives_apart a nomSg (noun_gender (Sighting.subject ch)) Ha)
        as [Han Hav].
      destruct (Han _ Hs) as [Has _]. destruct (Han _ Ho) as [_ Hao].
      specialize (Hav _ Hv).
      repeat (apply NoDup_cons; split);
        rewrite ?elem_of_cons, ?elem_of_nil; try apply NoDup_nil_2;
        intros Hin; decompose [or] Hin; try done; congruence.
    + destruct (adjectives_apart a accSg (noun_gender (Sighting.object ch)) Ha)
        as [Han Hav].
      destruct (Han _ Hs) as [Has _]. destruct (Han _ Ho) as [_ Hao].
      specialize (Hav _ Hv).
      repeat (apply NoDup_cons; split);
        rewrite ?elem_of_cons, ?elem_of_nil; try apply NoDup_nil_2;
        intros Hin; decompose [or] Hin; try done; congruence.
Qed.

(** Two arrangements of the same tiles that read the same are the same,
    when the tiles read differently from one another. *)
Lemma same_reading_same_order {A B} (h : A → B) (p c : list A) :
  NoDup (h <$> c) → p ≡ₚ c → h <$> p = h <$> c → p = c.
Proof.
  revert p. induction c as [|y c IH]; intros p Hnd Hperm Heq.
  - by apply Permutation_nil_r in Hperm.
  - destruct p as [|x p]; [done|].
    simpl in Heq. injection Heq as Hxy Heq.
    rewrite fmap_cons in Hnd. apply NoDup_cons in Hnd as [Hy Hnd].
    assert (x = y) as ->.
    { assert (Hx : x ∈ y :: c) by (rewrite <-Hperm; left).
      apply elem_of_cons in Hx as [->|Hx]; [done|].
      exfalso. apply Hy. rewrite <-Hxy. by apply list_elem_of_fmap_2. }
    f_equal. apply IH; [done| |done].
    by apply (inj (cons y)).
Qed.

(** ** The offered tiles *)

Lemma correctTiles_text ch : Sighting.text <$> Sighting.correctTiles ch = Sighting.latin ch.
Proof.
  unfold Sighting.correctTiles. generalize (Sighting.latin ch) as l.
  intros l. rewrite fmap_imap.
  induction l as [|x l IH] using rev_ind; [done|].
  rewrite imap_app. simpl. by rewrite IH.
Qed.

Lemma correctTiles_length ch :
  length (Sighting.correctTiles ch) = length (Sighting.latin ch).
Proof. unfold Sighting.correctTiles. apply length_imap. Qed.

Lemma decoysOf_imap (h : nat → option string → Sighting.Tile) l :
  (∀ i x, Sighting.correct (h i x) = true) → decoysOf (imap h l) = [].
Proof.
  revert h. induction l as [|x l IH]; intros h Hh; [done|].
  simpl. unfold decoysOf. rewrite filter_cons_False by (by rewrite Hh).
  apply IH. intros i y. apply Hh.
Qed.

Lemma decoysOf_correctTiles ch : decoysOf (Sighting.correctTiles ch) = [].
Proof. by apply decoysOf_imap. Qed.

Lemma decoysOf_decoysWith ch v :
  decoysOf (Sighting.decoysWith ch v) = Sighting.decoysWith ch v.
Proof.
  unfold Sighting.decoysWith.
  destruct (bool_decide (4 ≤ Sighting.len ch)), (Sighting.adj ch); done.
Qed.

Lemma decoysWith_ids ch v : NoDup (Sighting.id <$> Sighting.decoysWith ch v).
Proof.
  unfold Sighting.decoysWith.
  destruct (bool_decide (4 ≤ Sighting.len ch)), (Sighting.adj ch); simpl;
    apply (bool_decide_unpack _); by vm_compute.
Qed.

Lemma correctTiles_ids ch :
  (length (Sighting.latin ch) ≤ 4)%nat → NoDup (Sighting.id <$> Sighting.correctTiles ch).
Proof.
  unfold Sighting.correctTiles.
  destruct (Sighting.latin ch) as [|a [|b [|c [|d [|e l]]]]]; simpl; intros Hl;
    try lia;
    repeat (apply NoDup_cons; split;
            [rewrite ?elem_of_cons, elem_of_nil;
             vm_compute; intros H'; decompose [or] H'; try discriminate; done|]);
    apply NoDup_nil_2.
Qed.

Lemma verbs_other_nonempty (s : string) :
  filter (λ v : Verb, verb_id v ≠ s) VERBS ≠ [].
Proof.
  destruct (decide (s = "amo")) as [->|Hne].
  - by vm_compute.
  - unfold VERBS. rewrite filter_cons_True by (simpl; congruence). done.
Qed.

Lemma makeTiles_total ch g : is_Some (Sighting.makeTiles ch g).
Proof.
  unfold Sighting.makeTiles.
  destruct (pick (T:=Verb) _ g) as [otherVerb g1] eqn:Hv.
  destruct (pick_nonempty
              (filter (λ v : Verb, verb_id v ≠ verb_id (Sighting.verb ch)) VERBS) g)
    as [v Hv']; [apply verbs_other_nonempty|].
  rewrite Hv in Hv'. simpl in Hv'. subst otherVerb. cbn [mbind option_bind].
  by destruct (shuffle _ g1).
Qed.

Lemma makeTiles_inv ch g ts g' :
  Sighting.makeTiles ch g = Some (ts, g') →
  ∃ otherVerb shuffled,
    otherVerb ∈ VERBS ∧ verb_id otherVerb ≠ verb_id (Sighting.verb ch) ∧
    shuffled ≡ₚ Sighting.correctTiles ch ++ Sighting.decoysWith ch otherVerb ∧
    ts ≡ₚ slice0 10 shuffled.
Proof.
  unfold Sighting.makeTiles.
  destruct (pick (T:=Verb) _ g) as [[otherVerb|] g1] eqn:Hv; [|done].
  cbn [mbind option_bind].
  apply pick_elem, list_elem_of_filter in Hv as [Hv1 Hv2].
  destruct (shuffle _ g1) as [shuffled g2] eqn:Hsh.
  intros [= Hts].
  exists otherVerb, shuffled. repeat split; [done..| |].
  - change shuffled with (shuffled, g2).1. rewrite <-Hsh. apply shuffle_perm.
  - change ts with (ts, g').1. rewrite <-Hts. apply shuffle_perm.
Qed.

(** A generated challenge has as many decoys as expected tokens. *)
Lemma decoysWith_length len g ch g' v :
  Sighting.makeChallenge len g = Some (ch, g') →
  length (Sighting.decoysWith ch v) = length (Sighting.latin ch).
Proof.
  intros Hch.
  apply makeChallenge_inv in Hch
    as (Hlen & _ & _ & _ & _ & _ & [(? & Ha & _ & ->)|(? & a & t & _ & Ha & _ & ->)]);
    unfold Sighting.decoysWith; rewrite Hlen, Ha.
  - rewrite bool_decide_eq_false_2 by lia. done.
  - rewrite bool_decide_eq_true_2 by lia. by destruct t.
Qed.

Lemma offered_tiles len g ch g1 ts g2 :
  Sighting.makeChallenge len g = Some (ch, g1) →
  Sighting.makeTiles ch g1 = Some (ts, g2) →
  ∃ otherVerb,
    otherVerb ∈ VERBS ∧ verb_id otherVerb ≠ verb_id (Sighting.verb ch) ∧
    ts ≡ₚ Sighting.correctTiles ch ++ Sighting.decoysWith ch otherVerb.
Proof.
  intros Hch Hts.
  destruct (makeTiles_inv _ _ _ _ Hts) as (v & sh & Hv1 & Hv2 & Hsh & Hperm).
  exists v. repeat split; [done..|].
  rewrite Hperm, <-Hsh. unfold slice0. rewrite take_ge; [done|].
  rewrite Hsh, length_app, correctTiles_length, (decoysWith_length _ _ _ _ _ Hch).
  apply challenge_words in Hch as [_ ?]. lia.
Qed.

(** ** Building a sentence tile by tile *)

Lemma with_answer_same st : with_answer (Sighting.answer st) st = st.
Proof. by destruct st. Qed.

Lemma not_Exists_id (t : Sighting.Tile) (ts : list Sighting.Tile) :
  Sighting.id t ∉ Sighting.id <$> ts → ¬ Exists (λ a, Sighting.id a = Sighting.id t) ts.
Proof.
  intros Hn [a [Ha Hid]]%Exists_exists. apply Hn.
  rewrite <-Hid. by apply list_elem_of_fmap_2.
Qed.

Lemma tapAll_prefix q st :
  Sighting.phase st = playing →
  NoDup (Sighting.id <$> Sighting.answer st ++ q) →
  (length (Sighting.answer st) + length q
   < length (Sighting.latin (Sighting.challenge st)))%nat →
  Sighting.tapAll q st = with_answer (Sighting.answer st ++ q) st.
Proof.
  revert st. induction q as [|t q IH]; intros st Hp Hnd Hlen.
  - rewrite app_nil_r. by rewrite with_answer_same.
  - simpl in Hlen. unfold Sighting.tapAll. simpl.
    rewrite tapTile_partial; [|done|lia|].
    + fold (Sighting.tapAll q (with_answer (Sighting.answer st ++ [t]) st)).
      rewrite IH; simpl; [|done| |rewrite length_app; simpl; lia].
      * by rewrite <-app_assoc.
      * by rewrite <-app_assoc.
    + apply not_Exists_id.
      rewrite fmap_app, fmap_cons in Hnd.
      apply NoDup_app in Hnd as (_ & Hdisj & _).
      intros Hin. apply (Hdisj _ Hin). left.
Qed.

Lemma tapAll_full p st :
  Sighting.phase st = playing →
  Sighting.answer st = [] →
  NoDup (Sighting.id <$> p) →
  length p = length (Sighting.latin (Sighting.challenge st)) →
  p ≠ [] →
  Sighting.tapAll p st =
    if bool_decide (join " " (Sighting.text <$> p)
                    = join " " (Sighting.latin (Sighting.challenge st)))
    then judged_correct p st
    else judged_wrong p st.
Proof.
  intros Hp Ha Hnd Hlen Hne.
  destruct p as [|x q _] using rev_ind; [done|]. clear Hne.
  rewrite length_app in Hlen. simpl in Hlen.
  unfold Sighting.tapAll. rewrite foldl_app. simpl.
  fold (Sighting.tapAll q st).
  rewrite tapAll_prefix; rewrite ?Ha; simpl; [|done| |lia].
  - rewrite tapTile_full; simpl; [done|done|lia|].
    apply not_Exists_id.
    rewrite fmap_app in Hnd. apply NoDup_app in Hnd as (_ & Hdisj & _).
    intros Hin. apply (Hdisj _ Hin). left.
  - rewrite fmap_app in Hnd. by apply NoDup_app in Hnd as (? & _ & _).
Qed.

Lemma judged_differently next st : judged_correct next st ≠ judged_wrong next st.
Proof.
  unfold judged_correct, judged_wrong. intros [= _ _ H].
  apply app_inv_head in H. discriminate.
Qed.

(** C2: for a generated challenge and the tiles generated for it, every
    correct tile is among the offered tiles; the tap that fills the last slot
    is judged correct exactly when the space-joined texts of the answer equal
    the space-joined expected tokens; tapping the correct tiles in the
    expected order is judged correct; and tapping the correct tiles in an
    order whose sequence of words differs from the expected one is judged
    wrong.  The tokens of a generated sentence are pairwise different words,
    so this is every order of the correct tiles but the expected one. *)
Theorem C2_sentence_is_judged_by_its_joined_text len g ch g1 ts g2 :
  Sighting.makeChallenge len g = Some (ch, g1) →
  Sighting.makeTiles ch g1 = Some (ts, g2) →
  (∀ t, t ∈ Sighting.correctTiles ch → t ∈ ts) ∧
  (∀ st tile,
     Sighting.challenge st = ch → Sighting.phase st = playing →
     S (length (Sighting.answer st)) = length (Sighting.latin ch) →
     ¬ Exists (λ a, Sighting.id a = Sighting.id tile) (Sighting.answer st) →
     let next := Sighting.answer st ++ [tile] in
     (join " " (Sighting.text <$> next) = join " " (Sighting.latin ch) ↔
      Sighting.tapTile tile st = judged_correct next st) ∧
     (join " " (Sighting.text <$> next) ≠ join " " (Sighting.latin ch) ↔
      Sighting.tapTile tile st = judged_wrong next st)) ∧
  (∀ key,
     Sighting.tapAll (Sighting.correctTiles ch) (Sighting.fresh key ch ts [])
     = judged_correct (Sighting.correctTiles ch) (Sighting.fresh key ch ts [])) ∧
  (∀ key p,
     p ≡ₚ Sighting.correctTiles ch → Sighting.text <$> p ≠ Sighting.latin ch →
     Sighting.tapAll p (Sighting.fresh key ch ts [])
     = judged_wrong p (Sighting.fresh key ch ts [])) ∧
  (∀ p, p ≡ₚ Sighting.correctTiles ch → p ≠ Sighting.correctTiles ch →
        Sighting.text <$> p ≠ Sighting.latin ch).
Proof.
  intros Hch Hts.
  destruct (offered_tiles _ _ _ _ _ _ Hch Hts) as (v & _ & _ & Hperm).
  destruct (challenge_words _ _ _ _ Hch) as [Hwords Hlen].
  assert (Hids : NoDup (Sighting.id <$> Sighting.correctTiles ch))
    by (apply correctTiles_ids; lia).
  split; [|split; [|split; [|split]]].
  - intros t Ht. rewrite Hperm. apply elem_of_app. by left.
  - intros st tile <- Hp Hfull Hid next. subst next.
    rewrite tapTile_full by done. simpl.
    pose proof (judged_differently (Sighting.answer st ++ [tile]) st) as Hdiff.
    case_bool_decide as Hj; split; split; try done; intros H; congruence.
  - intros key.
    rewrite tapAll_full; simpl; try done.
    + by rewrite correctTiles_text, bool_decide_eq_true_2.
    + apply correctTiles_length.
    + intros Hnil. pose proof (correctTiles_length ch) as Hl.
      rewrite Hnil in Hl. simpl in Hl. lia.
  - intros key p Hp Htext.
    rewrite tapAll_full; simpl; try done.
    + rewrite bool_decide_eq_false_2; [done|].
      intros Hj. apply Htext, join_words_inj; [| |done..].
      * by rewrite length_fmap, Hp, correctTiles_length.
      * rewrite Hp. by rewrite correctTiles_text.
    + by rewrite Hp.
    + by rewrite Hp, correctTiles_length.
    + intros ->. apply Permutation_nil_l in Hp.
      pose proof (correctTiles_length ch) as Hl. rewrite <-Hp in Hl. simpl in Hl. lia.
  - intros p Hp Hne Htext. apply Hne.
    apply (same_reading_same_order Sighting.text); [|done|].
    + rewrite correctTiles_text. by eapply challenge_distinct.
    + by rewrite correctTiles_text.
Qed.

(** "puella portat portam" is right; the same tiles as "portam portat
    puella" are wrong. *)
Lemma C2_sentence_is_judged_by_its_joined_text_witness :
  (∀ t, t ∈ Sighting.correctTiles girl_challenge → t ∈ girl_tiles) ∧
  Sighting.tapAll [tile_puella; tile_portat; tile_portam] girl_round
  = judged_correct [tile_puella; tile_portat; tile_portam] girl_round ∧
  Sighting.tapAll [tile_portam; tile_portat; tile_puella] girl_round
  = judged_wrong [tile_portam; tile_portat; tile_puella] girl_round.
Proof.
  destruct (C2_sentence_is_judged_by_its_joined_text
              3 girl_rng girl_challenge (mkRng (draws girl_rng) 4)
              girl_tiles (mkRng (draws girl_rng) 15)
              ltac:(vm_compute; reflexivity) ltac:(vm_compute; reflexivity))
    as (Hin & _ & Hright & Hwrong & _).
  split; [exact Hin|]. split.
  - exact (Hright "normal").
  - apply (Hwrong "normal" [tile_portam; tile_portat; tile_puella]).
    + change (Sighting.correctTiles girl_challenge)
        with [tile_puella; tile_portat; tile_portam].
      etrans; [apply perm_swap|].
      etrans; [apply perm_skip, perm_swap|].
      apply perm_swap.
    + discriminate.
Defined.

(** C7 (as amended): the offered tiles are a rearrangement of the correct
    tokens followed by all the decoys built for the challenge, at most ten
    tiles (the cap of ten never removes one).  The decoys offered are exactly
    the decoys built, which have distinct identifiers; there are as many of
    them as expected tokens (three, or four with an adjective), hence never
    more than ten minus the number of correct tokens. *)
Theorem C7_offered_tiles_are_tokens_and_decoys len g ch g1 ts g2 :
  Sighting.makeChallenge len g = Some (ch, g1) →
  Sighting.makeTiles ch g1 = Some (ts, g2) →
  ∃ otherVerb,
    otherVerb ∈ VERBS ∧ verb_id otherVerb ≠ verb_id (Sighting.verb ch) ∧
    ts ≡ₚ Sighting.correctTiles ch ++ Sighting.decoysWith ch otherVerb ∧
    (length ts ≤ 10)%nat ∧
    decoysOf ts ≡ₚ Sighting.decoysWith ch otherVerb ∧
    NoDup (Sighting.id <$> Sighting.decoysWith ch otherVerb) ∧
    length (decoysOf ts) = length (Sighting.latin ch) ∧
    (length (decoysOf ts) ≤ 10 - length (Sighting.latin ch))%nat.
Proof.
  intros Hch Hts.
  destruct (offered_tiles _ _ _ _ _ _ Hch Hts) as (v & Hv1 & Hv2 & Hperm).
  destruct (challenge_words _ _ _ _ Hch) as [_ Hlen].
  pose proof (decoysWith_length _ _ _ _ v Hch) as Hd.
  assert (Hdec : decoysOf ts ≡ₚ Sighting.decoysWith ch v).
  { unfold decoysOf. rewrite Hperm, filter_app.
    fold (decoysOf (Sighting.correctTiles ch)).
    fold (decoysOf (Sighting.decoysWith ch v)).
    by rewrite decoysOf_correctTiles, decoysOf_decoysWith. }
  exists v. repeat split; try done.
  - rewrite Hperm, length_app, correctTiles_length. lia.
  - apply decoysWith_ids.
  - by rewrite Hdec.
  - rewrite Hdec. lia.
Qed.

(** The six tiles offered for "puella portat portam". *)
Lemma C7_offered_tiles_are_tokens_and_decoys_witness :
  ∃ otherVerb,
    otherVerb ∈ VERBS ∧ verb_id otherVerb ≠ verb_id (Sighting.verb girl_challenge) ∧
    girl_tiles ≡ₚ Sighting.correctTiles girl_challenge
                  ++ Sighting.decoysWith girl_challenge otherVerb ∧
    (length girl_tiles ≤ 10)%nat ∧
    decoysOf girl_tiles ≡ₚ Sighting.decoysWith girl_challenge otherVerb ∧
    NoDup (Sighting.id <$> Sighting.decoysWith girl_challenge otherVerb) ∧
    length (decoysOf girl_tiles) = length (Sighting.latin girl_challenge) ∧
    (length (decoysOf girl_tiles) ≤ 10 - length (Sighting.latin girl_challenge))%nat.
Proof.
  apply (C7_offered_tiles_are_tokens_and_decoys
           3 girl_rng girl_challenge (mkRng (draws girl_rng) 4)
           girl_tiles (mkRng (draws girl_rng) 15)).
  - vm_compute. reflexivity.
  - vm_compute. reflexivity.
Defined.

(** C7 (as stated) fails: for the sentence "puella portat portam" three
    decoys are offered, fewer than the ten minus three that the claim
    requires. *)
Lemma C7_fewer_decoys_than_free_slots :
  ¬ (∀ len g ch g1 ts g2,
       Sighting.makeChallenge len g = Some (ch, g1) →
       Sighting.makeTiles ch g1 = Some (ts, g2) →
       (10 - length (Sighting.latin ch) ≤ length (decoysOf ts))%nat).
Proof.
  intros H.
  specialize (H 3 girl_rng girl_challenge _ girl_tiles _
                girl_challenge_generated girl_tiles_generated).
  vm_compute in H. lia.
Qed.

(** ** Progression *)

Lemma or_zero_id x : or_zero x = x.
Proof. unfold or_zero. by case_bool_decide. Qed.

Lemma head_filter_first {A} (P : A → Prop) `{!∀ x, Decision (P x)} (l : list A) x :
  head (filter P l) = Some x →
  ∃ pre post, l = pre ++ (x :: post) ∧ P x ∧ Forall (λ y, ¬ P y) pre.
Proof.
  induction l as [|y l IH]; [done|].
  destruct (decide (P y)) as [Hy|Hy].
  - rewrite filter_cons_True by done. intros [= ->].
    by exists [], l.
  - rewrite filter_cons_False by done. intros Hx.
    destruct (IH Hx) as (pre & post & -> & HP & Hpre).
    exists (y :: pre), post. by repeat constructor.
Qed.

Section Unlocking.
Variable BIRD_CARDS : list BirdCard.

(** With distinct identifiers in the catalog, fewer unlocked identifiers
    than cards leave a card that is still locked. *)
Lemma some_card_is_locked (U : list string) :
  NoDup (bird_id <$> BIRD_CARDS) →
  (length U < length BIRD_CARDS)%nat →
  filter (λ b, bird_id b ∉ U) BIRD_CARDS ≠ [].
Proof.
  intros Hnd Hlen Hnil.
  assert (Hall : ∀ i, i ∈ bird_id <$> BIRD_CARDS → i ∈ U).
  { intros i Hi. apply list_elem_of_fmap in Hi as (b & -> & Hb).
    destruct (decide (bird_id b ∈ U)) as [|Hn]; [done|].
    assert (Hin : b ∈ filter (λ b, bird_id b ∉ U) BIRD_CARDS)
      by (by apply list_elem_of_filter).
    rewrite Hnil in Hin. by apply not_elem_of_nil in Hin. }
  pose proof (submseteq_length _ _ (NoDup_submseteq _ _ Hnd Hall)) as Hle.
  rewrite length_fmap in Hle. lia.
Qed.

(** C3: an evaluation at lifetime experience [X] with unlocked identifiers
    [U] unlocks nothing when [U] has at least min(floor(X / 250), catalog
    size) entries, and otherwise unlocks the first card of the catalog whose
    identifier is not in [U]; a progression update appends at most that one
    identifier, however many thresholds [X] crossed.  The catalog itself is
    not among the sources; its identifiers are taken to be distinct. *)
Theorem C3_at_most_one_unlock (X : Z) (U : list string) :
  NoDup (bird_id <$> BIRD_CARDS) →
  let due := Z.min (X `div` 250) (Z.of_nat (length BIRD_CARDS)) in
  (due ≤ Z.of_nat (length U) → maybeUnlockBird BIRD_CARDS X U = None) ∧
  (Z.of_nat (length U) < due →
     ∃ b pre post,
       maybeUnlockBird BIRD_CARDS X U = Some b ∧
       BIRD_CARDS = pre ++ (b :: post) ∧ (bird_id b ∉ U) ∧
       Forall (λ c, bird_id c ∈ U) pre) ∧
  (∀ comboMax s,
     unlocked (collection s) = U →
     or_zero (totalXP (best s)) ≤ X →
     let s' := (awardXP_update BIRD_CARDS (X - or_zero (totalXP (best s))) comboMax s).1 in
     totalXP (best s') = X ∧
     match maybeUnlockBird BIRD_CARDS X U with
     | None => unlocked (collection s') = U
     | Some b => unlocked (collection s') = U ++ [bird_id b]
     end).
Proof.
  intros Hnd due. subst due. split; [|split].
  - intros Hdue. unfold maybeUnlockBird, clamp.
    rewrite bool_decide_eq_true_2; [done|]. lia.
  - intros Hdue. unfold maybeUnlockBird, clamp.
    rewrite bool_decide_eq_false_2 by lia.
    destruct (head (filter (λ b, bird_id b ∉ U) BIRD_CARDS)) as [b|] eqn:Hhead.
    + apply head_filter_first in Hhead as (pre & post & Hcat & Hb & Hpre).
      exists b, pre, post. repeat split; [done..|].
      eapply Forall_impl; [exact Hpre|]. simpl. intros c Hc.
      by destruct (decide (bird_id c ∈ U)).
    + apply head_None in Hhead. exfalso.
      apply (some_card_is_locked U); [done|lia|done].
  - intros comboMax s HU Hle s'. subst s'. unfold awardXP_update. simpl.
    replace (or_zero (totalXP (best s)) + (X - or_zero (totalXP (best s)))) with X by lia.
    rewrite HU. by destruct (maybeUnlockBird BIRD_CARDS X U).
Qed.
End Unlocking.

(** A jump from 0 to 1000 experience with a catalog of four cards unlocks
    the first card only; with all four unlocked nothing is unlocked. *)
Lemma C3_at_most_one_unlock_witness :
  maybeUnlockBird four_birds 1000 [] = Some (mkBirdCard "b1" "Robin" "Erithacus rubecula" "common" "") ∧
  unlocked (collection (awardXP_update four_birds 1000 4 base).1) = ["b1"] ∧
  maybeUnlockBird four_birds 1000 ["b1"; "b2"; "b3"; "b4"] = None.
Proof.
  assert (Hnd : NoDup (bird_id <$> four_birds))
    by (apply (bool_decide_unpack _); vm_compute; exact I).
  destruct (C3_at_most_one_unlock four_birds 1000 [] Hnd) as (_ & _ & Hupd).
  destruct (C3_at_most_one_unlock four_birds 1000 ["b1"; "b2"; "b3"; "b4"] Hnd)
    as (Hnone & _ & _).
  split; [|split].
  - reflexivity.
  - specialize (Hupd 4 base eq_refl ltac:(vm_compute; discriminate)).
    destruct Hupd as [_ Hupd]. exact Hupd.
  - apply Hnone. vm_compute. discriminate.
Defined.

(** The fold of [awardXP] itself is right on the numbers it is given: the
    experience grows by [deltaXP], the two records become the maxima, and
    nothing decreases while [deltaXP] is not negative. *)
Lemma awardXP_fold cards deltaXP comboMax s :
  let s' := (awardXP_update cards deltaXP comboMax s).1 in
  totalXP (best s') = totalXP (best s) + deltaXP ∧
  bestStreak (best s') = Z.max (bestStreak (best s)) comboMax ∧
  highScore (best s') = Z.max (highScore (best s)) deltaXP ∧
  bestStreak (best s) ≤ bestStreak (best s') ∧
  highScore (best s) ≤ highScore (best s') ∧
  (0 ≤ deltaXP → totalXP (best s) ≤ totalXP (best s')).
Proof.
  unfold awardXP_update. rewrite !or_zero_id.
  destruct (maybeUnlockBird _ _ _); simpl; repeat split; lia.
Qed.

(** In Sighting Log mode the end of the round reports the score and the
    combo that include the last award. *)
Lemma sighting_round_end_reports_final_values next st :
  Sighting.timers st = [] →
  let st' := judged_correct next st in
  (Sighting.fire st').2
  = [mkSummary "Sighting Log" (Sighting.score st') (Sighting.combo st')].
Proof. intros Ht. unfold judged_correct, Sighting.fire. by rewrite Ht. Qed.

(** In Match mode the timeout scheduled by the last pair reports the score
    and the combo of the render before that pair. *)
Lemma match_round_end_reports_stale_values st id :
  Match.phase st = playing → Match.selectedLatin st = Some id → id ≠ "" →
  id ∉ Match.doneIds st → Match.timers st = [] →
  (length (Match.items (Match.round st)) ≤ length (Match.doneIds st) + 1)%nat →
  let st' := Match.chooseMeaning id st in
  Match.score st' = Match.score st
                    + xpFor true (Match.secondsLeft st) (Match.combo st + 1)
                            (Match.difficultyKey st) ∧
  Match.combo st' = Match.combo st + 1 ∧
  (Match.fire st').2 = [mkSummary "Match" (Match.score st) (Match.combo st)].
Proof.
  intros Hp Hsel Hne Hid Ht Hlast. unfold Match.chooseMeaning.
  rewrite (bool_decide_eq_false_2 (Match.phase st ≠ playing)) by (by intros []).
  rewrite Hsel.
  rewrite (bool_decide_eq_false_2 (id = "")) by done.
  rewrite (bool_decide_eq_false_2 (id ∈ Match.doneIds st)) by done.
  rewrite (bool_decide_eq_true_2 (id = id)) by done.
  rewrite bool_decide_eq_true_2 by done.
  unfold Match.fire. simpl. by rewrite Ht.
Qed.

(** C5 (the code departs from it): in Match mode the round's last correct
    pair is left out of what reaches the lifetime record.  At easy
    difficulty, pairing the four items of a round without a miss ends with a
    score of 304 and a combo of 4, but the end of the round reports 219 and
    3, and these are what the lifetime experience, the best score and the
    best combo receive.  Besides, the reported combo is the current one, not
    the highest of the round: after two pairs, a miss and a time-out the
    round reports combo 0. *)
Theorem C5_match_round_end_drops_last_award :
  Match.score match_played = 304 ∧ Match.combo match_played = 4 ∧
  (Match.fire match_played).2 = [mkSummary "Match" 219 3] ∧
  best (persisted (deliver four_birds (Match.fire match_played).2 new_app))
  = mkBest 219 3 219 ∧
  Match.combo match_two_pairs = 2 ∧
  Match.score match_slump.1 = 140 ∧
  match_slump.2 = [mkSummary "Match" 140 0] ∧
  best (persisted (deliver four_birds match_slump.2 new_app)) = mkBest 140 0 140.
Proof. by vm_compute. Qed.

(** ** Storage *)

Lemma get_prop_not_null v key : v ≠ JNull → is_Some (get_prop v key).
Proof. by destruct v. Qed.

Lemma spread_lookup (a b : gmap string JSON) fld :
  spread a b !! fld = match b !! fld with Some x => Some x | None => a !! fld end.
Proof.
  unfold spread. rewrite lookup_union.
  by destruct (b !! fld), (a !! fld).
Qed.

Lemma loadState_null : loadState stored_null = Throws.
Proof. done. Qed.

Lemma loadState_no_item w : raw_falsy (getItem w) → loadState w = Loaded (state_obj base).
Proof. unfold loadState. by intros ->%Is_true_true. Qed.

Lemma loadState_unparsable text :
  loadState (Some (Some (Unparsable text))) = Loaded (state_obj base).
Proof.
  unfold loadState. simpl. case_bool_decide; [done|].
  by vm_compute.
Qed.

Lemma loadState_parsable v :
  v ≠ JNull →
  ∃ o, loadState (Some (Some (Parsable v))) = Loaded o ∧
    (∀ key B, (key, B) ∈ base_sections →
       ∃ sec, o !! key = Some (JObj sec) ∧
         ∀ fld, sec !! fld = match stored_field v key fld with
                             | Some x => Some x
                             | None => B !! fld
                             end) ∧
    (∀ key, key ∉ base_sections.*1 → o !! key = own_props (Some v) !! key).
Proof.
  intros Hv. unfold loadState, merge_section, stored_field. simpl.
  destruct (get_prop_not_null v "player" Hv) as [p Hp].
  destruct (get_prop_not_null v "best" Hv) as [b Hb].
  destruct (get_prop_not_null v "collection" Hv) as [c Hc].
  destruct (get_prop_not_null v "settings" Hv) as [s Hs].
  rewrite Hp, Hb, Hc, Hs.
  cbn [mbind option_bind].
  eexists. split; [reflexivity|]. split.
  - intros key B Hkey. unfold base_sections in Hkey.
    repeat (apply elem_of_cons in Hkey as [[= -> ->]|Hkey]);
      [..|by apply not_elem_of_nil in Hkey].
    + eexists. do 3 (rewrite lookup_insert_ne by done). rewrite lookup_insert_eq.
      split; [done|]. intros fld. rewrite Hp. cbn [mbind option_bind]. apply spread_lookup.
    + eexists. do 2 (rewrite lookup_insert_ne by done). rewrite lookup_insert_eq.
      split; [done|]. intros fld. rewrite Hb. cbn [mbind option_bind]. apply spread_lookup.
    + eexists. rewrite lookup_insert_ne by done. rewrite lookup_insert_eq.
      split; [done|]. intros fld.
      rewrite Hc. cbn [mbind option_bind]. apply spread_lookup.
    + eexists. rewrite lookup_insert_eq.
      split; [done|]. intros fld.
      rewrite Hs. cbn [mbind option_bind]. apply spread_lookup.
  - intros key Hkey. simpl in Hkey.
    rewrite !not_elem_of_cons in Hkey. destruct Hkey as (? & ? & ? & ? & _).
    do 4 (rewrite lookup_insert_ne by done).
    rewrite spread_lookup. fold (own_props (Some v)).
    destruct (own_props (Some v) !! key); [done|].
    unfold state_obj. rewrite !lookup_insert_ne by done.
    by rewrite lookup_singleton_ne.
Qed.

Lemma loadState_saved (s : PersistedState) :
  loadState (Some (Some (Parsable (JObj (state_obj s))))) = Loaded (state_obj s).
Proof.
  destruct s as [[nm df] [hs bs xp] [ul] [snd]].
  by vm_compute.
Qed.

(** C6 (as amended): loading returns the baseline defaults when nothing is
    stored, when the stored text is empty and when it does not parse; for a
    stored value other than [null] it returns an object whose four sections
    are the baseline sections overridden, field by field, by what the stored
    section holds, so a missing section or field takes its default and a
    stored field is kept as it is, whatever its value, and whose other
    properties are the stored ones.  A state holding only
    [{best: {totalXP: 500}}] loads with [totalXP = 500] and the defaults
    everywhere else; a well-shaped state that was saved loads back as itself,
    and saving it again leaves the storage as it was. *)
Theorem C6_load_defaults_missing_fields :
  (∀ w, raw_falsy (getItem w) → loadState w = Loaded (state_obj base)) ∧
  (∀ text, loadState (Some (Some (Unparsable text))) = Loaded (state_obj base)) ∧
  (∀ v, v ≠ JNull →
     ∃ o, loadState (Some (Some (Parsable v))) = Loaded o ∧
       (∀ key B, (key, B) ∈ base_sections →
          ∃ sec, o !! key = Some (JObj sec) ∧
            ∀ fld, sec !! fld = match stored_field v key fld with
                                | Some x => Some x
                                | None => B !! fld
                                end) ∧
       (∀ key, key ∉ base_sections.*1 → o !! key = own_props (Some v) !! key)) ∧
  loadState only_totalXP
  = Loaded (state_obj (mkPersisted (player base) (mkBest 0 0 500)
                                   (collection base) (settings base))) ∧
  (∀ s, let w := Some (Some (Parsable (JObj (state_obj s)))) in
        loadState w = Loaded (state_obj s) ∧ saveState (state_obj s) w = w).
Proof.
  split; [exact loadState_no_item|].
  split; [exact loadState_unparsable|].
  split; [exact loadState_parsable|].
  split; [by vm_compute|].
  intros s w. split; [apply loadState_saved|done].
Qed.

(** Nothing stored, and a stored state that holds a string as
    [best.totalXP]. *)
Lemma C6_load_defaults_missing_fields_witness :
  loadState None = Loaded (state_obj base) ∧
  ∃ o, loadState text_totalXP = Loaded o ∧
    (∀ key B, (key, B) ∈ base_sections →
       ∃ sec, o !! key = Some (JObj sec) ∧
         ∀ fld, sec !! fld
                = match stored_field
                          (JObj {[ "best" := JObj {[ "totalXP" := JStr "lots" ]} ]})
                          key fld with
                  | Some x => Some x
                  | None => B !! fld
                  end) ∧
    (∀ key, key ∉ base_sections.*1 →
       o !! key
       = own_props (Some (JObj {[ "best" := JObj {[ "totalXP" := JStr "lots" ]} ]}))
           !! key).
Proof.
  destruct C6_load_defaults_missing_fields as (Hnone & _ & Hparsed & _).
  split.
  - apply (Hnone None). exact I.
  - apply (Hparsed (JObj {[ "best" := JObj {[ "totalXP" := JStr "lots" ]} ]})).
    discriminate.
Defined.

(** C6 (as stated) fails on two stored values.  A field of the wrong type
    is not replaced by its default: with [{best: {totalXP: "lots"}}] stored,
    the loaded [best.totalXP] is the string "lots" and not the default 0.
    And loading does fail: on the stored value [null] the read of
    [parsed.player] throws. *)
Lemma C6_wrong_type_is_kept_and_null_throws :
  (∃ o sec,
     loadState text_totalXP = Loaded o ∧ o !! "best" = Some (JObj sec) ∧
     sec !! "totalXP" = Some (JStr "lots") ∧
     best_obj (best base) !! "totalXP" = Some (JNum 0)) ∧
  loadState stored_null = Throws.
Proof.
  split; [|exact loadState_null].
  eexists _, _. split; [by vm_compute|]. split; by vm_compute.
Qed.

(** * Further properties *)

(** ** Random helpers *)

Lemma shuffle_from_draws {T} i (a : list T) g :
  draws (shuffle_from i a g).2 = draws g ∧
  pos (shuffle_from i a g).2 = (pos g + i)%nat ∧
  length (shuffle_from i a g).1 = length a.
Proof.
  revert a g. induction i as [|i IH]; intros a g.
  - simpl. repeat split; lia.
  - cbn [shuffle_from]. unfold random.
    destruct (IH (swap a (S i) (scale (draws g (pos g)) (S i + 1)))
                 (mkRng (draws g) (S (pos g)))) as (Hd & Hp & Hl).
    rewrite Hd, Hp, Hl, swap_length. simpl. repeat split; lia.
Qed.

(** X1: [shuffle] returns a rearrangement of its argument, whatever the
    random source gives: the same elements with the same multiplicities, in
    an array of the same length.  It draws one random number per element but
    the first, none for an empty or a one-element array. *)
Theorem X1_shuffle_rearranges {T} (arr : list T) (g : Rng) :
  (shuffle arr g).1 ≡ₚ arr ∧
  length (shuffle arr g).1 = length arr ∧
  (∀ x, x ∈ (shuffle arr g).1 ↔ x ∈ arr) ∧
  pos (shuffle arr g).2 = (pos g + (length arr - 1))%nat ∧
  draws (shuffle arr g).2 = draws g.
Proof.
  pose proof (shuffle_perm arr g) as Hperm.
  destruct (shuffle_from_draws (length arr - 1) arr g) as (Hd & Hp & Hl).
  repeat split; try done.
  - intros Hx. by rewrite <-Hperm.
  - intros Hx. by rewrite Hperm.
Qed.

(** Three numbers, shuffled. *)
Lemma X1_shuffle_rearranges_witness :
  (shuffle [1; 2; 3] girl_rng).1 ≡ₚ [1; 2; 3] ∧
  ∀ x, x ∈ (shuffle [1; 2; 3] girl_rng).1 ↔ x ∈ [1; 2; 3].
Proof.
  destruct (X1_shuffle_rearranges [1; 2; 3] girl_rng) as (H1 & _ & H2 & _).
  split; [exact H1|exact H2].
Defined.

(** X2: [pick] returns an element of its array, and returns [undefined]
    only on the empty array; either way it draws exactly one random
    number. *)
Theorem X2_pick_returns_an_element {T} (arr : list T) (g : Rng) :
  match (pick arr g).1 with
  | Some x => x ∈ arr
  | None => arr = []
  end ∧
  pos (pick arr g).2 = S (pos g) ∧ draws (pick arr g).2 = draws g.
Proof.
  split; [|done].
  destruct (pick arr g) as [[x|] g'] eqn:Hpick; simpl.
  - by eapply pick_elem.
  - destruct arr as [|y arr]; [done|].
    destruct (pick_nonempty (y :: arr) g) as [z Hz]; [done|].
    rewrite Hpick in Hz. done.
Qed.

(** ** The award *)

Lemma Math_round_scaled (k a : Z) (b : positive) :
  Math_round (inject_Z k * (a # b)) = (2 * k * a + Z.pos b) `div` (2 * Z.pos b).
Proof.
  unfold Math_round, Qfloor, Qplus, Qmult, inject_Z. simpl.
  f_equal; lia.
Qed.

Lemma Math_floor_scaled (k a : Z) (b : positive) :
  Math_floor (inject_Z k * (a # b)) = (k * a) `div` Z.pos b.
Proof. unfold Math_floor, Qfloor, Qmult, inject_Z. simpl. done. Qed.

Lemma conf_of_cases key :
  conf_of key = mkDiffConf 28 4 (85 # 100) 3 ∨
  conf_of key = DIFFICULTY_normal ∨
  conf_of key = mkDiffConf 18 6 (12 # 10) 4.
Proof.
  unfold conf_of, DIFFICULTY.
  destruct (decide (key = "easy")) as [->|He]; [by left|].
  destruct (decide (key = "normal")) as [->|Hn]; [by right; left|].
  destruct (decide (key = "hard")) as [->|Hh]; [by right; right|].
  right; left.
  by rewrite !lookup_insert_ne, lookup_singleton_ne by done.
Qed.

Lemma xpFor_formula key :
  ∃ a b, xpMult (conf_of key) = (a # b)%Q ∧
         (a, b) ∈ [(85, 100%positive); (1, 1%positive); (12, 10%positive)] ∧
         ∀ s c, xpFor true s c key
                = (2 * (28 + clamp ((s * 16) `div` 10) 0 45 + clamp (c * 7) 0 70) * a
                   + Z.pos b) `div` (2 * Z.pos b).
Proof.
  unfold xpFor.
  destruct (conf_of_cases key) as [->|[->| ->]]; simpl xpMult.
  - exists 85, 100%positive. split; [done|]. split; [set_solver|].
    intros s c. by rewrite Math_round_scaled, Math_floor_scaled.
  - exists 1, 1%positive. split; [done|]. split; [set_solver|].
    intros s c. by rewrite Math_round_scaled, Math_floor_scaled.
  - exists 12, 10%positive. split; [done|]. split; [set_solver|].
    intros s c. by rewrite Math_round_scaled, Math_floor_scaled.
Qed.

Ltac award_cases H :=
  repeat (apply elem_of_cons in H as [[= -> ->]|H]);
  [..|by apply not_elem_of_nil in H].

Lemma xpFor_range s c key : 24 ≤ xpFor true s c key ≤ 172.
Proof.
  destruct (xpFor_formula key) as (a & b & _ & Hab & ->).
  award_cases Hab; unfold clamp; Z.div_mod_to_equations; lia.
Qed.

(** X3: at each of the three difficulties a wrong action is worth nothing,
    and a correct one is worth between 24 and 172 points, whatever the
    seconds left and the combo (24 is an easy answer without bonus, 172 a
    hard one with both bonuses at their caps). *)
Theorem X3_award_range (s c : Z) (key : string) :
  key ∈ difficulty_keys →
  xpFor false s c key = 0 ∧ 24 ≤ xpFor true s c key ≤ 172.
Proof. intros _. split; [apply xpFor_wrong|apply xpFor_range]. Qed.

(** A hard answer on an expired clock at combo 3. *)
Lemma X3_award_range_witness :
  xpFor false 0 3 "hard" = 0 ∧ 24 ≤ xpFor true 0 3 "hard" ≤ 172.
Proof.
  apply (X3_award_range 0 3 "hard"). apply (bool_decide_unpack _). by vm_compute.
Defined.

(** X4: at each of the three difficulties, more seconds left and a longer
    combo never pay less. *)
Theorem X4_award_is_monotone (s s' c c' : Z) (key : string) :
  key ∈ difficulty_keys →
  s ≤ s' → c ≤ c' → xpFor true s c key ≤ xpFor true s' c' key.
Proof.
  intros _ Hs Hc.
  destruct (xpFor_formula key) as (a & b & _ & Hab & Hf). rewrite !Hf.
  award_cases Hab; unfold clamp; Z.div_mod_to_equations; lia.
Qed.

(** The award for 28 seconds at combo 1 is not above the one for 28 seconds
    at combo 2. *)
Lemma X4_award_is_monotone_witness : xpFor true 28 1 "easy" ≤ xpFor true 28 2 "easy".
Proof.
  apply X4_award_is_monotone; [|lia..]. apply (bool_decide_unpack _). by vm_compute.
Defined.

(** X5: the bonuses saturate and the difficulty falls back.  At each of
    the three difficulties, from combo 10 on the combo bonus is at its cap,
    from 29 seconds on the speed bonus is, and with no second left (or a
    negative count) there is no speed bonus.  A key that is none of "easy",
    "normal" and "hard" scores as "normal", unless it names a property that
    [DIFFICULTY] inherits from [Object.prototype] ("constructor",
    "toString", ...): for those the lookup is truthy, nothing falls back,
    and the award of the code is [NaN]. *)
Theorem X5_award_saturates (s c : Z) (key : string) :
  key ∈ difficulty_keys →
  (10 ≤ c → xpFor true s c key = xpFor true s 10 key) ∧
  (29 ≤ s → xpFor true s c key = xpFor true 29 c key) ∧
  (s ≤ 0 → xpFor true s c key = xpFor true 0 c key) ∧
  (∀ other, other ∉ difficulty_keys → other ∉ Object_prototype_names →
            xpFor true s c other = xpFor true s c "normal").
Proof.
  intros _.
  destruct (xpFor_formula key) as (a & b & _ & Hab & Hf). rewrite !Hf.
  repeat split.
  - intros Hc.
    replace (clamp (c * 7) 0 70) with (clamp (10 * 7) 0 70); [done|].
    unfold clamp. lia.
  - intros Hs.
    replace (clamp ((s * 16) `div` 10) 0 45) with (clamp ((29 * 16) `div` 10) 0 45); [done|].
    unfold clamp. Z.div_mod_to_equations. lia.
  - intros Hs.
    replace (clamp ((s * 16) `div` 10) 0 45) with (clamp ((0 * 16) `div` 10) 0 45); [done|].
    unfold clamp. Z.div_mod_to_equations. lia.
  - intros other Hkey _. unfold xpFor, conf_of, DIFFICULTY, difficulty_keys in *.
    rewrite !not_elem_of_cons in Hkey. destruct Hkey as (? & ? & ? & _).
    by rewrite !lookup_insert_ne, lookup_singleton_ne by done.
Qed.

(** A combo of 25 at hard difficulty pays like a combo of 10, and the key
    "expert" pays like "normal". *)
Lemma X5_award_saturates_witness :
  xpFor true 12 25 "hard" = xpFor true 12 10 "hard" ∧
  xpFor true 12 3 "expert" = xpFor true 12 3 "normal".
Proof.
  destruct (X5_award_saturates 12 25 "hard") as (Hc & _);
    [apply (bool_decide_unpack _); by vm_compute|].
  destruct (X5_award_saturates 12 3 "hard") as (_ & _ & _ & Hk);
    [apply (bool_decide_unpack _); by vm_compute|].
  split; [apply Hc; lia|apply Hk].
  - apply (bool_decide_unpack _). by vm_compute.
  - apply (bool_decide_unpack _). by vm_compute.
Defined.

(** ** The catalog and the lifetime record *)

Section Catalog.
Variable BIRD_CARDS : list BirdCard.

Lemma maybeUnlockBird_Some X U b :
  maybeUnlockBird BIRD_CARDS X U = Some b →
  nextBird BIRD_CARDS U = Some b ∧
  Z.of_nat (length U) < Z.min (X `div` 250) (Z.of_nat (length BIRD_CARDS)).
Proof.
  unfold maybeUnlockBird, nextBird, clamp.
  case_bool_decide as Hlen; [done|]. intros Hb. split; [done|]. lia.
Qed.

Lemma nextBird_Some U b :
  nextBird BIRD_CARDS U = Some b → b ∈ BIRD_CARDS ∧ bird_id b ∉ U.
Proof.
  unfold nextBird. intros Hb.
  apply head_filter_first in Hb as (pre & post & Hcat & Hb & _).
  split; [|done]. rewrite Hcat. apply elem_of_app. right. left.
Qed.

(** X6: the card [maybeUnlockBird] returns is a card of the catalog whose
    identifier is not unlocked yet, the same card that the header shows as
    the next bird, and it is returned only when fewer cards are unlocked
    than 250-point thresholds are reached; when every card of the catalog is
    unlocked, nothing is returned at any experience. *)
Theorem X6_unlock_is_the_next_locked_card (X : Z) (U : list string) :
  (∀ b, maybeUnlockBird BIRD_CARDS X U = Some b →
        b ∈ BIRD_CARDS ∧ (bird_id b ∉ U) ∧ nextBird BIRD_CARDS U = Some b ∧
        Z.of_nat (length U) < X `div` 250) ∧
  ((∀ c, c ∈ BIRD_CARDS → bird_id c ∈ U) → maybeUnlockBird BIRD_CARDS X U = None).
Proof.
  split.
  - intros b Hb. apply maybeUnlockBird_Some in Hb as [Hnext Hlen].
    destruct (nextBird_Some _ _ Hnext) as [Hin Hnew].
    repeat split; [done..|lia].
  - intros Hall.
    destruct (maybeUnlockBird BIRD_CARDS X U) as [b|] eqn:Hb; [|done].
    apply maybeUnlockBird_Some in Hb as [Hnext _].
    apply nextBird_Some in Hnext as [Hin Hnew]. exfalso. by apply Hnew, Hall.
Qed.

Lemma awardXP_update_unlocked deltaXP comboMax s :
  let s' := (awardXP_update BIRD_CARDS deltaXP comboMax s).1 in
  let X := totalXP (best s) + deltaXP in
  totalXP (best s') = X ∧
  highScore (best s') = Z.max (highScore (best s)) deltaXP ∧
  bestStreak (best s') = Z.max (bestStreak (best s)) comboMax ∧
  player s' = player s ∧ settings s' = settings s ∧
  match maybeUnlockBird BIRD_CARDS X (unlocked (collection s)) with
  | Some b => unlocked (collection s') = unlocked (collection s) ++ [bird_id b]
  | None => unlocked (collection s') = unlocked (collection s)
  end.
Proof.
  unfold awardXP_update. rewrite !or_zero_id. simpl.
  by destruct (maybeUnlockBird _ _ _).
Qed.

Lemma foldr_max_init (h d : Z) (l : list Z) :
  foldr Z.max (Z.max h d) l = Z.max d (foldr Z.max h l).
Proof. induction l as [|x l IH]; simpl; [lia|]. rewrite IH. lia. Qed.

(** X7: the lifetime record after any number of round ends.  The
    experience is the old experience plus the sum of the reported scores,
    the best score and the best combo are the maxima of the old records and
    the reported values, and name, difficulty and sound setting are
    untouched. *)
Theorem X7_round_ends_add_up (rounds : list Summary) (s : PersistedState) :
  let s' := awardAll BIRD_CARDS rounds s in
  totalXP (best s') = totalXP (best s) + foldr Z.add 0 (sum_score <$> rounds) ∧
  highScore (best s') = foldr Z.max (highScore (best s)) (sum_score <$> rounds) ∧
  bestStreak (best s') = foldr Z.max (bestStreak (best s)) (sum_comboMax <$> rounds) ∧
  player s' = player s ∧ settings s' = settings s.
Proof.
  revert s. induction rounds as [|r rounds IH]; intros s; simpl.
  - repeat split; lia.
  - destruct (awardXP_update_unlocked (sum_score r) (sum_comboMax r) s)
      as (HX & Hh & Hb & Hp & Hs & _).
    destruct (IH (awardXP_update BIRD_CARDS (sum_score r) (sum_comboMax r) s).1)
      as (IHX & IHh & IHb & IHp & IHs).
    unfold awardAll in *. rewrite IHX, IHh, IHb, IHp, IHs, HX, Hh, Hb, Hp, Hs.
    repeat split; try apply foldr_max_init; try done.
    by rewrite Z.add_assoc.
Qed.

(** X8: what round ends never do to the collection: the identifiers
    unlocked before stay, in place, at the front; every identifier added is
    the identifier of a card of the catalog; no identifier is added twice;
    and while no reported score is negative, no more cards are unlocked than
    250-point thresholds are reached nor than the catalog has. *)
Theorem X8_collection_only_grows_as_earned (rounds : list Summary) (s : PersistedState) :
  let U := unlocked (collection s) in
  let s' := awardAll BIRD_CARDS rounds s in
  let U' := unlocked (collection s') in
  (∃ added, U' = U ++ added ∧ (length added ≤ length rounds)%nat ∧
            added ⊆ bird_id <$> BIRD_CARDS) ∧
  (NoDup U → NoDup U') ∧
  (Forall (λ r, 0 ≤ sum_score r) rounds →
   Z.of_nat (length U) ≤ Z.min (totalXP (best s) `div` 250) (Z.of_nat (length BIRD_CARDS)) →
   Z.of_nat (length U') ≤ Z.min (totalXP (best s') `div` 250) (Z.of_nat (length BIRD_CARDS))).
Proof.
  revert s. induction rounds as [|r rounds IH]; intros s U s' U'; subst U s' U'.
  - simpl. split; [|done]. exists []. rewrite app_nil_r. split; [done|]. split; [done|].
    set_solver.
  - simpl.
    set (s1 := (awardXP_update BIRD_CARDS (sum_score r) (sum_comboMax r) s).1).
    destruct (awardXP_update_unlocked (sum_score r) (sum_comboMax r) s)
      as (HX & _ & _ & _ & _ & HU). fold s1 in HX, HU.
    destruct (IH s1) as ((added & Hadd & Hlen & Hsub) & Hnd & Hearn).
    fold (awardAll BIRD_CARDS rounds s1).
    destruct (maybeUnlockBird BIRD_CARDS (totalXP (best s) + sum_score r)
                (unlocked (collection s))) as [b|] eqn:Hb.
    + apply maybeUnlockBird_Some in Hb as [Hnext Hlt].
      apply nextBird_Some in Hnext as [Hin Hnew].
      split; [|split].
      * exists (bird_id b :: added). rewrite Hadd, HU, <-app_assoc. simpl.
        split; [done|]. split; [lia|].
        intros i [->|Hi]%elem_of_cons; [by apply list_elem_of_fmap_2|by apply Hsub].
      * intros HndU. apply Hnd. rewrite HU. apply NoDup_app. split; [done|].
        split; [|apply NoDup_singleton].
        intros i Hi ->%list_elem_of_singleton. done.
      * intros [Hr Hrs]%Forall_cons Hle. apply Hearn; [done|].
        rewrite HU, HX, length_app. simpl. lia.
    + split; [|split].
      * exists added. rewrite Hadd, HU. split; [done|]. split; [lia|done].
      * intros HndU. apply Hnd. by rewrite HU.
      * intros [Hr Hrs]%Forall_cons Hle. apply Hearn; [done|].
        rewrite HU, HX.
        assert (totalXP (best s) `div` 250 ≤ (totalXP (best s) + sum_score r) `div` 250)
          by (apply Z.div_le_mono; lia).
        lia.
Qed.
End Catalog.

(** A jump to 1000 points with nothing unlocked returns the first card. *)
Lemma X6_unlock_is_the_next_locked_card_witness :
  ∃ b, maybeUnlockBird four_birds 1000 [] = Some b ∧
       b ∈ four_birds ∧ (bird_id b ∉ []) ∧ nextBird four_birds [] = Some b ∧
       Z.of_nat (length (@nil string)) < 1000 `div` 250.
Proof.
  eexists. split; [reflexivity|].
  destruct (X6_unlock_is_the_next_locked_card four_birds 1000 []) as [H _].
  apply H. reflexivity.
Defined.

(** A round of 1000 points and a round of none, from the baseline state. *)
Lemma X8_collection_only_grows_as_earned_witness :
  NoDup (unlocked (collection (awardAll four_birds
           [mkSummary "Match" 1000 3; mkSummary "Match" 0 0] base))) ∧
  Z.of_nat (length (unlocked (collection (awardAll four_birds
           [mkSummary "Match" 1000 3; mkSummary "Match" 0 0] base))))
  ≤ Z.min (totalXP (best (awardAll four_birds
           [mkSummary "Match" 1000 3; mkSummary "Match" 0 0] base)) `div` 250)
          (Z.of_nat (length four_birds)).
Proof.
  destruct (X8_collection_only_grows_as_earned four_birds
              [mkSummary "Match" 1000 3; mkSummary "Match" 0 0] base)
    as (_ & Hnd & Hearn).
  split.
  - apply Hnd. apply NoDup_nil_2.
  - apply Hearn.
    + repeat constructor; simpl; lia.
    + vm_compute. discriminate.
Defined.

Section CatchUp.
Variable BIRD_CARDS : list BirdCard.

Lemma zero_round_unlocks_one mode s :
  NoDup (bird_id <$> BIRD_CARDS) →
  let s' := (awardXP_update BIRD_CARDS 0 0 s).1 in
  let due := clamp (totalXP (best s) `div` 250) 0 (Z.of_nat (length BIRD_CARDS)) in
  awardAll BIRD_CARDS [mkSummary mode 0 0] s = s' ∧
  totalXP (best s') = totalXP (best s) ∧
  Z.of_nat (length (unlocked (collection s')))
  = if bool_decide (due ≤ Z.of_nat (length (unlocked (collection s))))
    then Z.of_nat (length (unlocked (collection s)))
    else Z.of_nat (length (unlocked (collection s))) + 1.
Proof.
  intros Hnd s' due. subst s' due. split; [done|].
  destruct (awardXP_update_unlocked BIRD_CARDS 0 0 s) as (HX & _ & _ & _ & _ & HU).
  rewrite Z.add_0_r in HX, HU. split; [done|].
  unfold maybeUnlockBird in HU.
  case_bool_decide as Hdue; [by rewrite HU|].
  destruct (head _) as [b|] eqn:Hhead.
  - rewrite HU, length_app. simpl. lia.
  - apply head_None in Hhead. exfalso.
    apply (some_card_is_locked BIRD_CARDS (unlocked (collection s))); [done| |done].
    unfold clamp in Hdue. lia.
Qed.

(** X9: an unlock that was held back is made up for by later round ends,
    one card per round end, even when those rounds score nothing.  With
    distinct identifiers in the catalog, [k] round ends without score leave
    the experience as it is and take the number of unlocked identifiers from
    [u] to min([u + k], the number due), and leave it at [u] when [u] is not
    below the number due. *)
Theorem X9_backlog_is_unlocked_one_per_round (k : nat) (mode : string) (s : PersistedState) :
  NoDup (bird_id <$> BIRD_CARDS) →
  let due := clamp (totalXP (best s) `div` 250) 0 (Z.of_nat (length BIRD_CARDS)) in
  let u := Z.of_nat (length (unlocked (collection s))) in
  let s' := awardAll BIRD_CARDS (replicate k (mkSummary mode 0 0)) s in
  totalXP (best s') = totalXP (best s) ∧
  Z.of_nat (length (unlocked (collection s'))) = Z.max u (Z.min (u + Z.of_nat k) due).
Proof.
  intros Hnd. revert s. induction k as [|k IH]; intros s due u s'; subst due u s'.
  - simpl. split; lia.
  - simpl.
    destruct (zero_round_unlocks_one mode s Hnd) as (_ & HX & Hlen).
    destruct (IH (awardXP_update BIRD_CARDS 0 0 s).1) as [IHX IHlen].
    unfold awardAll in *. rewrite IHX, IHlen, HX, Hlen.
    split; [done|]. case_bool_decide; lia.
Qed.
End CatchUp.

(** After a jump to 1000 points that unlocked one card of four, three round
    ends without score unlock the other three. *)
Lemma X9_backlog_is_unlocked_one_per_round_witness :
  let s := (awardXP_update four_birds 1000 4 base).1 in
  totalXP (best (awardAll four_birds (replicate 3 (mkSummary "Match" 0 0)) s)) = 1000 ∧
  Z.of_nat (length (unlocked (collection
     (awardAll four_birds (replicate 3 (mkSummary "Match" 0 0)) s)))) = 4.
Proof.
  apply (X9_backlog_is_unlocked_one_per_round four_birds 3 "Match"
           (awardXP_update four_birds 1000 4 base).1).
  apply (bool_decide_unpack _). by vm_compute.
Defined.

(** X10: the progress towards the next card.  For a lifetime experience
    that is not negative, the experience into the current threshold lies
    between 0 and 249, the experience is 250 times the number of thresholds
    reached plus that remainder, and the exact percentage of the bar is at
    least 0 and less than 100 (so its double is at least 0 and at most the
    double nearest to 99.6). *)
Theorem X10_progress_is_within_the_threshold (X : Z) :
  0 ≤ X →
  let '(curr, threshold, pct) := progressToNext X in
  threshold = 250 ∧ 0 ≤ curr < 250 ∧ X = 250 * (X `div` 250) + curr ∧
  (0 <= pct)%Q ∧ (pct < 100)%Q.
Proof.
  intros HX. unfold progressToNext.
  rewrite Z.rem_mod_nonneg by lia.
  pose proof (Z.mod_pos_bound X 250 ltac:(lia)) as Hb.
  pose proof (Z.div_mod X 250 ltac:(lia)) as Hd.
  repeat split; try lia.
  - unfold Qle, Qdiv, Qmult, Qinv, inject_Z. simpl. lia.
  - unfold Qlt, Qdiv, Qmult, Qinv, inject_Z. simpl. lia.
Qed.

(** At 1234 points: 234 points into the fifth threshold. *)
Lemma X10_progress_is_within_the_threshold_witness :
  let '(curr, threshold, pct) := progressToNext 1234 in
  threshold = 250 ∧ 0 ≤ curr < 250 ∧ 1234 = 250 * (1234 `div` 250) + curr ∧
  (0 <= pct)%Q ∧ (pct < 100)%Q.
Proof. apply (X10_progress_is_within_the_threshold 1234). lia. Defined.

Section Guide.
Variable BIRD_CARDS : list BirdCard.


End Guide.


(** ** Settings and reset *)

(** X12: changing a setting never costs progress, and the name is never
    left empty.  The sound button, the name field and the difficulty
    selectors leave the records and the collection as they are; an emptied
    name field gives the name "Challenger" and any other text is taken as
    typed; pressing the sound button twice restores the state. *)
Theorem X12_settings_keep_the_progress (s : PersistedState) (value v : string) :
  (best (toggleSound s) = best s ∧ collection (toggleSound s) = collection s ∧
   best (rename value s) = best s ∧ collection (rename value s) = collection s ∧
   best (setDifficulty v s) = best s ∧ collection (setDifficulty v s) = collection s) ∧
  name (player (rename value s)) ≠ "" ∧
  name (player (rename "" s)) = "Challenger" ∧
  (value ≠ "" → name (player (rename value s)) = value) ∧
  toggleSound (toggleSound s) = s ∧
  conf_of (difficulty (player (setDifficulty v s))) = conf_of v.
Proof.
  split; [done|].
  unfold rename, or_else. simpl.
  split; [by case_bool_decide|]. split; [done|].
  split; [intros Hv; by rewrite bool_decide_eq_false_2|].
  split; [|done].
  destruct s as [p b c [snd]]. unfold toggleSound. simpl. by rewrite negb_involutive.
Qed.

(** Renaming to "Livia". *)
Lemma X12_settings_keep_the_progress_witness :
  name (player (rename "Livia" base)) = "Livia".
Proof.
  destruct (X12_settings_keep_the_progress base "Livia" "hard") as (_ & _ & _ & H & _).
  apply H. discriminate.
Defined.

(** X13: Reset progress in an [App] that has mounted, that is, whose first
    [loadState] did not throw.  A saved state is what the [App] had loaded;
    whatever the storage held (no item, a text that does not parse, a state
    with progress or with foreign properties), the reset makes the state the
    baseline state; the stored item is removed and,
    by the effect that saves every new state, written again as the saved
    baseline state, so that where there is a window the storage ends up
    holding the baseline state, and loading again gives the baseline
    state. *)
Theorem X13_reset_restores_the_baseline (w : Window) :
  loadState w ≠ Throws →
  (∀ s, getItem w = Some (Parsable (JObj (state_obj s))) →
        loadState w = Loaded (state_obj s)) ∧
  (resetProgress w).2 = Loaded (state_obj base) ∧
  (resetProgress w).1 = saveState (state_obj base) (removeItem w) ∧
  (w ≠ None →
     getItem (resetProgress w).1 = Some (Parsable (JObj (state_obj base)))) ∧
  (w = None → (resetProgress w).1 = None) ∧
  loadState (resetProgress w).1 = Loaded (state_obj base).
Proof.
  intros _.
  assert (Hload : loadState (removeItem w) = Loaded (state_obj base))
    by (by destruct w).
  split.
  { intros s Hs. destruct w as [item|]; [|done]. cbn [getItem] in Hs. subst item.
    apply loadState_saved. }
  unfold resetProgress. rewrite Hload. cbn [fst snd].
  split; [done|]. split; [done|]. split; [by destruct w|]. split; [by intros ->|].
  destruct w as [item|]; [|done]. cbn [removeItem saveState].
  apply loadState_saved.
Qed.

(** A stored text that does not parse. *)
Lemma X13_reset_restores_the_baseline_witness :
  let w : Window := Some (Some (Unparsable "{oops")) in
  (∀ s, getItem w = Some (Parsable (JObj (state_obj s))) →
        loadState w = Loaded (state_obj s)) ∧
  (resetProgress w).2 = Loaded (state_obj base) ∧
  (resetProgress w).1 = saveState (state_obj base) (removeItem w) ∧
  (w ≠ None →
     getItem (resetProgress w).1 = Some (Parsable (JObj (state_obj base)))) ∧
  (w = None → (resetProgress w).1 = None) ∧
  loadState (resetProgress w).1 = Loaded (state_obj base).
Proof.
  apply (X13_reset_restores_the_baseline (Some (Some (Unparsable "{oops")))).
  vm_compute. discriminate.
Defined.

(** ** The match round *)

Lemma POOL_ids : NoDup (Match.id <$> Match.POOL) ∧ length Match.POOL = 66%nat.
Proof. split; [apply (bool_decide_unpack _); by vm_compute|by vm_compute]. Qed.

Lemma POOL_has_latin : Forall (λ x, Match.has_latin x) Match.POOL.
Proof. apply (bool_decide_unpack _). by vm_compute. Qed.

Lemma makeRound_spec n g :
  let r := (Match.makeRound n g).1 in
  length (Match.items r) = Nat.min n 66 ∧
  NoDup (Match.id <$> Match.items r) ∧
  Match.items r ⊆ Match.POOL ∧
  Match.left r ≡ₚ Match.id <$> Match.items r ∧
  Match.right r ≡ₚ Match.id <$> Match.items r.
Proof.
  destruct POOL_ids as [Hnd Hlen]. unfold Match.makeRound.
  revert Hnd Hlen. generalize Match.POOL as pool. intros pool Hnd Hlen.
  destruct (shuffle pool g) as [shuffled g1] eqn:H1.
  pose proof (shuffle_perm pool g) as Hperm. rewrite H1 in Hperm. simpl in Hperm.
  destruct (shuffle (Match.id <$> slice0 n shuffled) g1) as [l g2] eqn:H2.
  pose proof (shuffle_perm (Match.id <$> slice0 n shuffled) g1) as Hl. rewrite H2 in Hl.
  destruct (shuffle (Match.id <$> slice0 n shuffled) g2) as [r g3] eqn:H3.
  pose proof (shuffle_perm (Match.id <$> slice0 n shuffled) g2) as Hr. rewrite H3 in Hr.
  simpl in *.
  unfold slice0. repeat split; try done.
  - rewrite length_take, Hperm, Hlen. lia.
  - rewrite fmap_take. eapply sublist_NoDup; [|apply sublist_take].
    by rewrite Hperm.
  - intros x Hx. apply elem_of_take in Hx as (i & Hi & _).
    rewrite <-Hperm. by eapply list_elem_of_lookup_2.
Qed.

(** X14: a round of the match mode.  For every requested size and every
    random source the round holds that many items of the pool, or all 66 of
    them when more are requested, no two of them with the same identifier,
    each with a non-empty Latin form; the Latin column and the meaning
    column each list every identifier of the round exactly once. *)
Theorem X14_round_is_a_sample_of_the_pool (n : nat) (g : Rng) :
  let r := (Match.makeRound n g).1 in
  length (Match.items r) = Nat.min n 66 ∧
  NoDup (Match.id <$> Match.items r) ∧
  (∀ x, x ∈ Match.items r → x ∈ Match.POOL ∧ Match.has_latin x) ∧
  Match.left r ≡ₚ Match.id <$> Match.items r ∧
  Match.right r ≡ₚ Match.id <$> Match.items r ∧
  NoDup (Match.left r) ∧ NoDup (Match.right r).
Proof.
  destruct (makeRound_spec n g) as (Hlen & Hnd & Hsub & Hl & Hr).
  split; [exact Hlen|]. split; [exact Hnd|]. split.
  { intros x Hx. apply Hsub in Hx. split; [exact Hx|].
    exact (proj1 (Forall_forall _ _) POOL_has_latin x Hx). }
  split; [exact Hl|]. split; [exact Hr|].
  split; [by rewrite Hl|by rewrite Hr].
Qed.

(** The four items of an easy round. *)
Lemma X14_round_is_a_sample_of_the_pool_witness :
  length (Match.items (Match.makeRound 4 match_rng).1) = 4%nat ∧
  ∀ x, x ∈ Match.items (Match.makeRound 4 match_rng).1 →
       x ∈ Match.POOL ∧ Match.has_latin x.
Proof.
  destruct (X14_round_is_a_sample_of_the_pool 4 match_rng) as (H1 & _ & H2 & _).
  split; [exact H1|exact H2].
Defined.

(** X15: [itemById] finds every identifier that a column of the round
    offers: for a round made by [makeRound] and an identifier of its Latin
    or meaning column, the result is defined, it is an item of the round
    with that identifier, and it is the only such item. *)
Theorem X15_itemById_finds_offered_items (n : nat) (g : Rng) (st : Match.State) (i : string) :
  Match.round st = (Match.makeRound n g).1 →
  i ∈ Match.left (Match.round st) ∨ i ∈ Match.right (Match.round st) →
  ∃ it, Match.itemById i st = Some it ∧ Match.id it = i ∧
        it ∈ Match.items (Match.round st) ∧
        ∀ it', it' ∈ Match.items (Match.round st) → Match.id it' = i → it' = it.
Proof.
  intros Hround Hi.
  destruct (makeRound_spec n g) as (_ & Hnd & _ & Hl & Hr).
  rewrite <-Hround in Hnd, Hl, Hr. clear Hround.
  assert (Hin : i ∈ Match.id <$> Match.items (Match.round st))
    by (destruct Hi as [Hi|Hi]; [by rewrite <-Hl|by rewrite <-Hr]).
  apply list_elem_of_fmap in Hin as (x & -> & Hx).
  unfold Match.itemById.
  destruct (head _) as [it|] eqn:Hhead.
  - apply head_filter_first in Hhead as (pre & post & Hitems & Hid & _).
    assert (Hit : it ∈ Match.items (Match.round st))
      by (rewrite Hitems; apply elem_of_app; right; left).
    exists it. repeat split; [done..|].
    intros it' Hit' Hid'.
    apply list_elem_of_lookup in Hit as [a Ha], Hit' as [b Hb].
    assert (b = a) as ->; [|congruence].
    eapply NoDup_lookup; [exact Hnd| |]; rewrite list_lookup_fmap.
    + by rewrite Hb.
    + rewrite Ha. simpl. congruence.
  - apply head_None in Hhead.
    assert (Hf : x ∈ filter (λ y, Match.id y = Match.id x) (Match.items (Match.round st)))
      by (apply list_elem_of_filter; split; [reflexivity|exact Hx]).
    rewrite Hhead in Hf. by apply not_elem_of_nil in Hf.
Qed.

(** The first identifier of the Latin column of an easy round. *)
Lemma X15_itemById_finds_offered_items_witness :
  ∃ it, Match.itemById "puella-nom" match_start = Some it ∧
        Match.id it = "puella-nom" ∧
        it ∈ Match.items (Match.round match_start) ∧
        ∀ it', it' ∈ Match.items (Match.round match_start) →
               Match.id it' = "puella-nom" → it' = it.
Proof.
  apply (X15_itemById_finds_offered_items 4 match_rng match_start "puella-nom").
  - vm_compute. reflexivity.
  - left. apply (bool_decide_unpack _). by vm_compute.
Defined.

Arguments Match.makeRound : simpl never.

Lemma totalTime_range key : 18 ≤ Match.totalTime key ≤ 28.
Proof.
  unfold Match.totalTime. destruct (conf_of_cases key) as [->|[->| ->]]; simpl; lia.
Qed.

Lemma match_fresh_inv key r pending :
  match_inv (Match.mkState key playing (Match.totalTime key) r None [] 0 0 None pending).
Proof.
  pose proof (totalTime_range key). unfold match_inv. simpl.
  repeat split; try lia. apply NoDup_nil_2.
Qed.

Lemma match_chooseLatin_inv i st :
  match_inv st →
  match_inv (Match.chooseLatin i st) ∧
  Match.difficultyKey (Match.chooseLatin i st) = Match.difficultyKey st.
Proof.
  intros Hinv. unfold Match.chooseLatin. repeat case_bool_decide; by split.
Qed.

Lemma match_chooseMeaning_inv i st :
  match_inv st →
  match_inv (Match.chooseMeaning i st) ∧
  Match.difficultyKey (Match.chooseMeaning i st) = Match.difficultyKey st.
Proof.
  intros Hinv. pose proof Hinv as (Hnd & Hc & Hs & Ht & Hp).
  unfold Match.chooseMeaning.
  case_bool_decide as Hph; [by split|].
  destruct (Match.selectedLatin st) as [sel|]; [|by split].
  case_bool_decide; [by split|]. case_bool_decide as Hid; [by split|].
  case_bool_decide.
  - pose proof (xpFor_range (Match.secondsLeft st) (Match.combo st + 1)
                            (Match.difficultyKey st)).
    split; [|done]. unfold match_inv. simpl. rewrite length_app. simpl.
    repeat split; try lia; try done.
    apply NoDup_app. split; [done|]. split; [|apply NoDup_singleton].
    intros x Hx ->%list_elem_of_singleton. done.
  - split; [|done]. unfold match_inv. simpl.
    repeat split; try done; try lia; auto.
Qed.

Lemma match_tick_inv st :
  match_inv st →
  match_inv (Match.tick st).1 ∧
  Match.difficultyKey (Match.tick st).1 = Match.difficultyKey st.
Proof.
  intros Hinv. pose proof Hinv as (Hnd & Hc & Hs & Ht & Hp).
  unfold Match.tick. destruct (Match.phase st) eqn:Hph; [|by split].
  specialize (Hp eq_refl). cbn [Match.secondsLeft].
  case_bool_decide; (split; [|done]); unfold match_inv; simpl;
    repeat split; try done; lia.
Qed.

Lemma match_fire_inv st :
  match_inv st →
  match_inv (Match.fire st).1 ∧
  Match.difficultyKey (Match.fire st).1 = Match.difficultyKey st.
Proof.
  intros Hinv. pose proof Hinv as (Hnd & Hc & Hs & Ht & Hp).
  unfold Match.fire. destruct (Match.timers st) as [|t rest]; [by split|].
  split; [|done]. unfold match_inv. simpl.
  repeat split; try done; try lia; auto.
Qed.

Lemma match_nextRound_inv g st :
  match_inv (Match.nextRound g st).1 ∧
  Match.difficultyKey (Match.nextRound g st).1 = Match.difficultyKey st.
Proof.
  unfold Match.nextRound. destruct (Match.makeRound _ g) as [r g'].
  split; [|done]. apply match_fresh_inv.
Qed.

Lemma fst_of_pair {A B} (x : A) (y : B) : (x, y).1 = x.
Proof. reflexivity. Qed.

Lemma match_step_NextRound g st :
  Match.step (Match.NextRound g) st = ((Match.nextRound g st).1, []).
Proof. reflexivity. Qed.

Lemma match_run_cons e es st :
  Match.run (e :: es) st
  = ((Match.run es (Match.step e st).1).1,
     (Match.step e st).2 ++ (Match.run es (Match.step e st).1).2).
Proof.
  cbn [Match.run]. destruct (Match.step e st) as [st1 calls1].
  rewrite fst_of_pair. by destruct (Match.run es st1) as [st2 calls2].
Qed.

Lemma match_step_inv e st :
  match_inv st →
  match_inv (Match.step e st).1 ∧
  Match.difficultyKey (Match.step e st).1 = Match.difficultyKey st.
Proof.
  intros Hinv. destruct e as [i|i| | |g].
  - by apply match_chooseLatin_inv.
  - by apply match_chooseMeaning_inv.
  - by apply match_tick_inv.
  - by apply match_fire_inv.
  - rewrite match_step_NextRound, fst_of_pair. apply match_nextRound_inv.
Qed.

Lemma match_run_inv es st :
  match_inv st →
  match_inv (Match.run es st).1 ∧
  Match.difficultyKey (Match.run es st).1 = Match.difficultyKey st.
Proof.
  revert st. induction es as [|e es IH]; intros st Hinv; [by split|].
  rewrite match_run_cons, fst_of_pair.
  destruct (match_step_inv e st Hinv) as [Hinv1 Hkey1].
  destruct (IH _ Hinv1) as [Hinv2 Hkey2].
  split; [done|congruence].
Qed.

Lemma match_step_header e st :
  Match.offered e st = true → match_header_inv st →
  match_header_inv (Match.step e st).1.
Proof.
  intros He Hinv. pose proof Hinv as (Hnd & Hr & Hsub).
  destruct e as [i|i| | |g].
  - cbn [Match.step]. rewrite fst_of_pair. unfold Match.chooseLatin.
    repeat case_bool_decide; done.
  - cbn [Match.step]. rewrite fst_of_pair. unfold Match.chooseMeaning.
    cbn [Match.offered] in He. apply bool_decide_eq_true in He.
    case_bool_decide; [done|].
    destruct (Match.selectedLatin st) as [sel|]; [|done].
    repeat case_bool_decide; try done;
      (split; [done|]; split; [done|]; cbn); try done;
      (intros x [Hx| ->%list_elem_of_singleton]%elem_of_app;
       [by apply Hsub|by rewrite <-Hr]).
  - cbn [Match.step]. unfold Match.tick.
    destruct (Match.phase st); [|done]. by case_bool_decide.
  - cbn [Match.step]. unfold Match.fire.
    by destruct (Match.timers st).
  - rewrite match_step_NextRound, fst_of_pair. unfold Match.nextRound.
    generalize (makeRound_spec (roundSize (conf_of (Match.difficultyKey st))) g).
    destruct (Match.makeRound _ g) as [r g']. cbn [fst].
    intros (_ & Hnd' & _ & _ & Hr').
    split; [exact Hnd'|]. split; [exact Hr'|]. cbn. by intros x Hx%elem_of_nil.
Qed.

Lemma match_run_header es st :
  Match.playable es st = true → match_header_inv st →
  match_header_inv (Match.run es st).1.
Proof.
  revert st. induction es as [|e es IH]; intros st Hes Hinv; [done|].
  cbn [Match.playable] in Hes. apply andb_prop in Hes as [He Hes].
  rewrite match_run_cons, fst_of_pair. apply IH; [done|].
  by apply match_step_header.
Qed.

(** X16: what stays true of a match round at each of the three
    difficulties, from its first render through any sequence of clicks on
    the buttons of the two columns, ticks, timeouts and restarts.  No
    identifier is resolved twice and every resolved identifier is the
    identifier of an item of the round; the combo is at least 0 and at most
    the number of resolved pairs; the score lies between 24 and 172 times
    that number; the seconds left are never negative and never above the
    time of the difficulty; and while the round is played at least one
    second is left, so that no award is computed on an expired clock. *)
Theorem X16_match_round_invariants (key : string) (g : Rng) (es : list Match.Event) :
  key ∈ difficulty_keys →
  Match.playable es (Match.mount key g).1 = true →
  let st := (Match.run es (Match.mount key g).1).1 in
  match_inv st ∧ Match.difficultyKey st = key ∧
  Match.doneIds st ⊆ Match.id <$> Match.items (Match.round st).
Proof.
  intros _. unfold Match.mount.
  generalize (makeRound_spec (roundSize (conf_of key)) g).
  destruct (Match.makeRound _ g) as [r g']. cbn [fst].
  intros (_ & Hnd0 & _ & _ & Hr0) Hes.
  set (st0 := Match.mkState key playing (Match.totalTime key) r None [] 0 0 None []).
  destruct (match_run_inv es st0 (match_fresh_inv key r [])) as [Hinv Hkey].
  split; [exact Hinv|]. split; [exact Hkey|].
  apply (match_run_header es st0); [exact Hes|].
  split; [exact Hnd0|]. split; [exact Hr0|]. cbn. by intros x Hx%elem_of_nil.
Qed.

(** A pair, a tick, a miss, a restart and a timeout on an easy round. *)
Lemma X16_match_round_invariants_witness :
  let es := [ Match.ChooseLatin "puella-nom"; Match.ChooseMeaning "puella-nom";
              Match.Tick; Match.ChooseLatin "femina-nom";
              Match.ChooseMeaning "femina-acc"; Match.NextRound match_rng;
              Match.Fire ] in
  let st := (Match.run es (Match.mount "easy" match_rng).1).1 in
  match_inv st ∧ Match.difficultyKey st = "easy" ∧
  Match.doneIds st ⊆ Match.id <$> Match.items (Match.round st).
Proof.
  apply (X16_match_round_invariants "easy" match_rng).
  - apply (bool_decide_unpack _). by vm_compute.
  - vm_compute. reflexivity.
Defined.

Lemma match_ticks_out k st :
  Match.phase st = playing → 1 ≤ Match.secondsLeft st →
  let st' := (Match.run (replicate k Match.Tick) st).1 in
  let calls := (Match.run (replicate k Match.Tick) st).2 in
  Match.score st' = Match.score st ∧ Match.combo st' = Match.combo st ∧
  Match.doneIds st' = Match.doneIds st ∧ Match.timers st' = Match.timers st ∧
  if bool_decide (Z.of_nat k < Match.secondsLeft st)
  then Match.phase st' = playing ∧
       Match.secondsLeft st' = Match.secondsLeft st - Z.of_nat k ∧ calls = []
  else Match.phase st' = paused ∧ Match.secondsLeft st' = 0 ∧
       Match.endNote st' = Some "Time!" ∧
       calls = [mkSummary "Match" (Match.score st) (Match.combo st)].
Proof.
  revert st. induction k as [|k IH]; intros st Hp Hs.
  - simpl. rewrite bool_decide_eq_true_2 by lia. repeat split; try done; lia.
  - cbn [replicate Match.run Match.step]. unfold Match.tick. rewrite Hp.
    cbn [Match.secondsLeft].
    case_bool_decide as Hzero.
    + assert (Hone : Match.secondsLeft st = 1) by lia.
      unfold Match.finishRound.
      rewrite (bool_decide_eq_false_2 (Z.of_nat (S k) < _)) by lia.
      clear IH. induction k as [|k IHk]; simpl.
      * repeat split; try done. lia.
      * destruct (Match.run (replicate k Match.Tick) _) as [st2 calls2] eqn:Hrun.
        simpl in *. done.
    + set (st1 := Match.mkState _ _ _ _ _ _ _ _ _ _).
      destruct (IH st1) as (H1 & H2 & H3 & H4 & H5); [done|simpl; lia|].
      destruct (Match.run (replicate k Match.Tick) st1) as [st2 calls2] eqn:Hrun.
      simpl in *. repeat split; try done.
      repeat case_bool_decide; try lia.
      * destruct H5 as (? & ? & ?). repeat split; try done. lia.
      * done.
Qed.

(** X17: the time runs out exactly once.  In a round that is played with
    [s] seconds left, fewer than [s] ticks only count the clock down; the
    tick that brings the clock to zero ends the round with the note "Time!"
    and reports the current score and combo once; every later tick does
    nothing, and the clock stays at zero.  Ticks change neither score nor
    combo nor the resolved pairs. *)
Theorem X17_time_runs_out_once (k : nat) (st : Match.State) :
  Match.phase st = playing → 1 ≤ Match.secondsLeft st →
  let st' := (Match.run (replicate k Match.Tick) st).1 in
  let calls := (Match.run (replicate k Match.Tick) st).2 in
  Match.score st' = Match.score st ∧ Match.combo st' = Match.combo st ∧
  Match.doneIds st' = Match.doneIds st ∧
  (Z.of_nat k < Match.secondsLeft st →
     Match.phase st' = playing ∧
     Match.secondsLeft st' = Match.secondsLeft st - Z.of_nat k ∧ calls = []) ∧
  (Match.secondsLeft st ≤ Z.of_nat k →
     Match.phase st' = paused ∧ Match.secondsLeft st' = 0 ∧
     calls = [mkSummary "Match" (Match.score st) (Match.combo st)]).
Proof.
  intros Hp Hs.
  destruct (match_ticks_out k st Hp Hs) as (H1 & H2 & H3 & _ & H5).
  repeat split; try done.
  - rewrite bool_decide_eq_true_2 in H5 by done. apply H5.
  - rewrite bool_decide_eq_true_2 in H5 by done. apply H5.
  - rewrite bool_decide_eq_true_2 in H5 by done. apply H5.
  - rewrite bool_decide_eq_false_2 in H5 by lia. apply H5.
  - rewrite bool_decide_eq_false_2 in H5 by lia. apply H5.
  - rewrite bool_decide_eq_false_2 in H5 by lia. apply H5.
Qed.

(** Forty ticks on a fresh easy round of 28 seconds. *)
Lemma X17_time_runs_out_once_witness :
  Match.phase (Match.run (replicate 40 Match.Tick) match_start).1 = paused ∧
  Match.secondsLeft (Match.run (replicate 40 Match.Tick) match_start).1 = 0 ∧
  (Match.run (replicate 40 Match.Tick) match_start).2 = [mkSummary "Match" 0 0].
Proof.
  destruct (X17_time_runs_out_once 40 match_start) as (_ & _ & _ & _ & H).
  - reflexivity.
  - vm_compute. discriminate.
  - apply H. vm_compute. discriminate.
Defined.

(** X18: a scheduled end of the round is never cancelled.  When the last
    pair has been matched and the clock reaches zero before the timeout of
    that pair fires, [onRoundEnd] is called twice for the same round, first
    with the current score and combo and then with the values the timeout
    had captured; and when the round is restarted before the timeout fires,
    the timeout ends the new round at once, with no pair resolved, and
    reports the captured values of the old one. *)
Theorem X18_scheduled_round_end_is_not_cancelled (st : Match.State) (t : Match.Timer)
    (rest : list Match.Timer) (g : Rng) :
  Match.phase st = playing → Match.secondsLeft st ≤ 1 → Match.timers st = t :: rest →
  (Match.run [Match.Tick; Match.Fire] st).2
  = [ mkSummary "Match" (Match.score st) (Match.combo st);
      mkSummary "Match" (Match.seen_score t) (Match.seen_combo t) ] ∧
  let st' := (Match.run [Match.NextRound g; Match.Fire] st).1 in
  Match.phase st' = paused ∧ Match.doneIds st' = [] ∧ Match.score st' = 0 ∧
  Match.endNote st' = Some "Round complete!" ∧
  (Match.run [Match.NextRound g; Match.Fire] st).2
  = [mkSummary "Match" (Match.seen_score t) (Match.seen_combo t)].
Proof.
  intros Hp Hs Ht. split.
  - simpl. unfold Match.tick. rewrite Hp. simpl.
    rewrite bool_decide_eq_true_2 by lia. simpl.
    unfold Match.fire. simpl. by rewrite Ht.
  - cbv zeta. rewrite !match_run_cons, match_step_NextRound, !fst_of_pair.
    unfold Match.nextRound. destruct (Match.makeRound _ g) as [r g'].
    rewrite fst_of_pair. unfold Match.fire. cbn [Match.timers]. rewrite Ht.
    done.
Qed.

(** The easy round in its last second, all four pairs matched, the timeout
    of the last pair still pending. *)
Lemma X18_scheduled_round_end_is_not_cancelled_witness :
  (Match.run [Match.Tick; Match.Fire] match_last_second).2
  = [mkSummary "Match" 159 4; mkSummary "Match" 111 3] ∧
  (Match.run [Match.NextRound match_rng; Match.Fire] match_last_second).2
  = [mkSummary "Match" 111 3].
Proof.
  destruct (X18_scheduled_round_end_is_not_cancelled
              match_last_second (Match.mkTimer 111 3) [] match_rng)
    as (H1 & _ & _ & _ & _ & H2).
  - reflexivity.
  - vm_compute. discriminate.
  - reflexivity.
  - split; [exact H1|exact H2].
Defined.

(** ** The sighting log *)

(** X19: the sentence of a sighting round.  For every requested length and
    every random source [makeChallenge] returns a challenge; its subject,
    object and verb are of the lexicon and the object is another noun than
    the subject.  Below length 4 there is no adjective and the sentence is
    subject (nominative), verb, object (accusative); from length 4 on there
    is an adjective of the lexicon, which stands right before the noun it
    describes, in that noun's gender and case.  The tokens are defined words
    without a space, and no two tokens of a sentence are the same word. *)
Theorem X19_generated_sentence_shape (len : Z) (g : Rng) :
  ∃ ch g',
    Sighting.makeChallenge len g = Some (ch, g') ∧
    Sighting.subject ch ∈ NOUNS ∧ Sighting.object ch ∈ NOUNS ∧
    Sighting.verb ch ∈ VERBS ∧
    noun_id (Sighting.object ch) ≠ noun_id (Sighting.subject ch) ∧
    (len < 4 →
       Sighting.adj ch = None ∧
       Sighting.latin ch
       = [ nounForm (Sighting.subject ch) nomSg; Some (pres3s (Sighting.verb ch));
           nounForm (Sighting.object ch) accSg ]) ∧
    (4 ≤ len →
       ∃ a, a ∈ ADJECTIVES ∧ Sighting.adj ch = Some a ∧
         ((Sighting.adjTargets ch = Some Sighting.Subject ∧
           Sighting.latin ch
           = [ Some (Sighting.adjWordFor a nomSg (noun_gender (Sighting.subject ch)));
               nounForm (Sighting.subject ch) nomSg;
               Some (pres3s (Sighting.verb ch));
               nounForm (Sighting.object ch) accSg ])
          ∨ (Sighting.adjTargets ch = Some Sighting.Object ∧
             Sighting.latin ch
             = [ nounForm (Sighting.subject ch) nomSg;
                 Some (pres3s (Sighting.verb ch));
                 Some (Sighting.adjWordFor a accSg (noun_gender (Sighting.object ch)));
                 nounForm (Sighting.object ch) accSg ]))) ∧
    NoDup (Sighting.latin ch) ∧
    Forall is_word (Sighting.latin ch).
Proof.
  destruct (makeChallenge_total len g) as [[ch g'] Hch].
  exists ch, g'. split; [exact Hch|].
  pose proof (challenge_distinct _ _ _ _ Hch) as Hnd.
  destruct (challenge_words _ _ _ _ Hch) as [Hwords _].
  apply makeChallenge_inv in Hch as (_ & Hs & _ & Ho & Hne & Hv & Hshape).
  split; [exact Hs|]. split; [exact Ho|]. split; [exact Hv|]. split; [exact Hne|].
  split; [|split; [|by split]].
  - intros Hlt. destruct Hshape as [(_ & Ha & _ & Hl)|(Hge & _)]; [|lia].
    by split.
  - intros Hge. destruct Hshape as [(Hlt & _)|(_ & a & t & Ha & Hadj & Ht & Hl)]; [lia|].
    exists a. split; [exact Ha|]. split; [exact Hadj|].
    destruct t; [left|right]; by split.
Qed.

(** A sentence of three tokens. *)
Lemma X19_generated_sentence_shape_witness :
  ∃ ch g',
    Sighting.makeChallenge 3 girl_rng = Some (ch, g') ∧
    Sighting.adj ch = None ∧
    Sighting.latin ch
    = [ nounForm (Sighting.subject ch) nomSg; Some (pres3s (Sighting.verb ch));
        nounForm (Sighting.object ch) accSg ].
Proof.
  destruct (X19_generated_sentence_shape 3 girl_rng)
    as (ch & g' & Hch & _ & _ & _ & _ & Hshort & _).
  exists ch, g'. split; [exact Hch|]. apply Hshort. lia.
Defined.

Lemma correctTiles_id_prefix ch x :
  x ∈ Sighting.id <$> Sighting.correctTiles ch → ∃ rest, x = String "c" rest.
Proof.
  intros (t & -> & Ht)%list_elem_of_fmap.
  unfold Sighting.correctTiles in Ht.
  apply elem_of_lookup_imap in Ht as (i & w & -> & _).
  by eexists.
Qed.

Lemma decoysWith_id_prefix ch v x :
  x ∈ Sighting.id <$> Sighting.decoysWith ch v → ∃ rest, x = String "d" rest.
Proof.
  unfold Sighting.decoysWith.
  destruct (bool_decide (4 ≤ Sighting.len ch)), (Sighting.adj ch); simpl;
    rewrite ?elem_of_cons, elem_of_nil; intros H; decompose [or] H; subst;
      try done; by eexists.
Qed.

Lemma generated_tile_ids len g ch g' v :
  Sighting.makeChallenge len g = Some (ch, g') →
  NoDup (Sighting.id <$> Sighting.correctTiles ch ++ Sighting.decoysWith ch v).
Proof.
  intros Hch. destruct (challenge_words _ _ _ _ Hch) as [_ Hlen].
  rewrite fmap_app. apply NoDup_app. split; [apply correctTiles_ids; lia|].
  split; [|apply decoysWith_ids].
  intros x [r1 ->]%correctTiles_id_prefix [r2 Hx]%decoysWith_id_prefix.
  discriminate.
Qed.

Lemma decoysWith_words len g ch g' v :
  Sighting.makeChallenge len g = Some (ch, g') → v ∈ VERBS →
  Forall (λ t, is_word (Sighting.text t)) (Sighting.decoysWith ch v).
Proof.
  intros Hch Hv.
  apply makeChallenge_inv in Hch as (_ & Hs & _ & Ho & _ & _ & Hshape).
  apply nouns_words in Hs as [_ Hs]. apply nouns_words in Ho as [Ho _].
  apply verbs_words in Hv.
  unfold Sighting.decoysWith.
  destruct Hshape as [(_ & -> & _)|(_ & a & t & Ha & -> & _)].
  - destruct (bool_decide _); by repeat constructor.
  - destruct (bool_decide _); repeat constructor; try done.
    simpl. by apply adjectives_words.
Qed.

Lemma correctTiles_words len g ch g' :
  Sighting.makeChallenge len g = Some (ch, g') →
  Forall (λ t, is_word (Sighting.text t)) (Sighting.correctTiles ch).
Proof.
  intros Hch. destruct (challenge_words _ _ _ _ Hch) as [Hwords _].
  rewrite Forall_forall in Hwords. apply Forall_forall. intros t Ht.
  apply Hwords. rewrite <-correctTiles_text. by apply list_elem_of_fmap_2.
Qed.

Lemma correct_flag_correctTiles ch :
  filter (λ t, Sighting.correct t = true) (Sighting.correctTiles ch)
  = Sighting.correctTiles ch.
Proof.
  unfold Sighting.correctTiles. generalize 0%nat.
  induction (Sighting.latin ch) as [|x l IH] using rev_ind; intros n; [done|].
  rewrite imap_app, filter_app. simpl. rewrite filter_cons_True by done.
  f_equal. apply (IH n).
Qed.

Lemma correct_flag_decoysWith ch v :
  filter (λ t, Sighting.correct t = true) (Sighting.decoysWith ch v) = [].
Proof.
  unfold Sighting.decoysWith.
  destruct (bool_decide (4 ≤ Sighting.len ch)), (Sighting.adj ch); done.
Qed.

(** X20: the tiles of a sighting round.  For a generated challenge and
    the tiles made for it, no two tiles have the same identifier, so that
    the test [answer.some(a => a.id === tile.id)] of [tapTile] never turns
    away a tile that is not yet in the answer; every tile shows a defined
    word without a space; and the tiles flagged correct are exactly the
    tiles of the sentence, one for each token. *)
Theorem X20_tiles_are_distinct_words len g ch g1 ts g2 :
  Sighting.makeChallenge len g = Some (ch, g1) →
  Sighting.makeTiles ch g1 = Some (ts, g2) →
  NoDup (Sighting.id <$> ts) ∧
  Forall (λ t, is_word (Sighting.text t)) ts ∧
  filter (λ t, Sighting.correct t = true) ts ≡ₚ Sighting.correctTiles ch ∧
  Sighting.text <$> Sighting.correctTiles ch = Sighting.latin ch ∧
  length ts = (2 * length (Sighting.latin ch))%nat.
Proof.
  intros Hch Hts.
  destruct (offered_tiles _ _ _ _ _ _ Hch Hts) as (v & Hv & _ & Hperm).
  split; [|split; [|split; [|split]]].
  - rewrite Hperm. by eapply generated_tile_ids.
  - rewrite Hperm. apply Forall_app. split.
    + by eapply correctTiles_words.
    + by eapply decoysWith_words.
  - rewrite Hperm, filter_app, correct_flag_correctTiles, correct_flag_decoysWith.
    by rewrite app_nil_r.
  - apply correctTiles_text.
  - rewrite Hperm, length_app, correctTiles_length,
      (decoysWith_length _ _ _ _ v Hch). lia.
Qed.

(** The six tiles of "puella portat portam". *)
Lemma X20_tiles_are_distinct_words_witness :
  NoDup (Sighting.id <$> girl_tiles) ∧
  Forall (λ t, is_word (Sighting.text t)) girl_tiles ∧
  filter (λ t, Sighting.correct t = true) girl_tiles
    ≡ₚ Sighting.correctTiles girl_challenge ∧
  Sighting.text <$> Sighting.correctTiles girl_challenge
    = Sighting.latin girl_challenge ∧
  length girl_tiles = (2 * length (Sighting.latin girl_challenge))%nat.
Proof.
  apply (X20_tiles_are_distinct_words
           3 girl_rng girl_challenge (mkRng (draws girl_rng) 4)
           girl_tiles (mkRng (draws girl_rng) 15)).
  - vm_compute. reflexivity.
  - vm_compute. reflexivity.
Defined.

Lemma nouns_same_case_apart s o :
  s ∈ NOUNS → o ∈ NOUNS → noun_id o ≠ noun_id s →
  nounForm o nomSg ≠ nounForm s nomSg ∧ nounForm s accSg ≠ nounForm o accSg.
Proof.
  intros Hs Ho.
  assert (H : Forall (λ s, Forall (λ o, noun_id o ≠ noun_id s →
                nounForm o nomSg ≠ nounForm s nomSg ∧
                nounForm s accSg ≠ nounForm o accSg) NOUNS) NOUNS)
    by (apply (bool_decide_unpack _); by vm_compute).
  rewrite Forall_forall in H. specialize (H s Hs).
  rewrite Forall_forall in H. exact (H o Ho).
Qed.

Lemma verbs_apart v w :
  v ∈ VERBS → w ∈ VERBS → verb_id v ≠ verb_id w → pres3s v ≠ pres3s w.
Proof.
  intros Hv Hw.
  assert (H : Forall (λ v, Forall (λ w, verb_id v ≠ verb_id w →
                                        pres3s v ≠ pres3s w) VERBS) VERBS)
    by (apply (bool_decide_unpack _); by vm_compute).
  rewrite Forall_forall in H. specialize (H v Hv).
  rewrite Forall_forall in H. exact (H w Hw).
Qed.

Lemma adjective_cases a gender :
  a ∈ ADJECTIVES →
  (Sighting.adjWordFor a nomSg gender = Sighting.adjWordFor a accSg gender
   ↔ gender = g_n).
Proof.
  revert a. apply Forall_forall.
  destruct gender; apply (bool_decide_unpack _); by vm_compute.
Qed.

Lemma noun_cases N :
  N ∈ NOUNS → (nounForm N accSg = nounForm N nomSg ↔ noun_gender N = g_n).
Proof.
  intros HN. destruct (nouns_forms N HN) as (a & b & -> & -> & Hab).
  rewrite <-Hab. split; congruence.
Qed.

(** The words of the decoys are no tokens of the sentence, when neither
    noun of it is neuter. *)
Lemma decoys_apart len g ch g' v :
  Sighting.makeChallenge len g = Some (ch, g') →
  v ∈ VERBS → verb_id v ≠ verb_id (Sighting.verb ch) →
  noun_gender (Sighting.subject ch) ≠ g_n →
  noun_gender (Sighting.object ch) ≠ g_n →
  ∀ d, d ∈ Sighting.decoysWith ch v → Sighting.text d ∉ Sighting.latin ch.
Proof.
  intros Hch Hv Hvne Hsn Hon d Hd Hin.
  apply makeChallenge_inv in Hch as (Hlen & Hs & _ & Ho & Hne & Hw & Hshape).
  pose proof (nouns_apart _ _ Hs Ho Hne) as H1.
  destruct (nouns_same_case_apart _ _ Hs Ho Hne) as [H2 H3].
  destruct (nouns_verbs_apart _ _ Hs Hw) as [H4 H5].
  destruct (nouns_verbs_apart _ _ Ho Hw) as [H6 H7].
  destruct (nouns_verbs_apart _ _ Hs Hv) as [H8 H9].
  destruct (nouns_verbs_apart _ _ Ho Hv) as [H10 H11].
  pose proof (verbs_apart _ _ Hv Hw Hvne) as H12.
  assert (H13 : nounForm (Sighting.subject ch) accSg
                ≠ nounForm (Sighting.subject ch) nomSg)
    by (by rewrite noun_cases).
  assert (H14 : nounForm (Sighting.object ch) accSg
                ≠ nounForm (Sighting.object ch) nomSg)
    by (by rewrite noun_cases).
  unfold Sighting.decoysWith in Hd.
  destruct Hshape as [(Hlt & Ha & Ht & Hl)|(Hge & a & t & Ha & Hadj & Ht & Hl)];
    rewrite Hl in Hin; rewrite Hlen in Hd.
  - rewrite bool_decide_eq_false_2 in Hd by lia.
    cbv beta iota zeta delta [sentence] in Hin. cbn [app] in Hd.
    rewrite !elem_of_cons, elem_of_nil in Hd.
    rewrite !elem_of_cons, elem_of_nil in Hin.
    decompose [or] Hd; try done; subst d; cbn [Sighting.text] in Hin;
      decompose [or] Hin; congruence.
  - rewrite bool_decide_eq_true_2, Hadj, Ht in Hd by lia.
    destruct t.
    + destruct (adjectives_apart a nomSg (noun_gender (Sighting.subject ch)) Ha)
        as [Hn1 Hv1].
      destruct (adjectives_apart a accSg (noun_gender (Sighting.subject ch)) Ha)
        as [Hn2 Hv2].
      destruct (Hn1 _ Hs) as [? ?]. destruct (Hn1 _ Ho) as [? ?].
      destruct (Hn2 _ Hs) as [? ?]. destruct (Hn2 _ Ho) as [? ?].
      pose proof (Hv1 _ Hw). pose proof (Hv1 _ Hv).
      pose proof (Hv2 _ Hw). pose proof (Hv2 _ Hv).
      assert (Sighting.adjWordFor a nomSg (noun_gender (Sighting.subject ch))
              ≠ Sighting.adjWordFor a accSg (noun_gender (Sighting.subject ch)))
        by (by rewrite adjective_cases).
      rewrite !bool_decide_eq_true_2 in Hd by done.
      cbv beta iota zeta delta [sentence slotWord] in Hin. cbn [app] in Hd.
      rewrite !elem_of_cons, elem_of_nil in Hd.
    rewrite !elem_of_cons, elem_of_nil in Hin.
      decompose [or] Hd; try done; subst d; cbn [Sighting.text] in Hin;
        decompose [or] Hin; congruence.
    + destruct (adjectives_apart a nomSg (noun_gender (Sighting.object ch)) Ha)
        as [Hn1 Hv1].
      destruct (adjectives_apart a accSg (noun_gender (Sighting.object ch)) Ha)
        as [Hn2 Hv2].
      destruct (Hn1 _ Hs) as [? ?]. destruct (Hn1 _ Ho) as [? ?].
      destruct (Hn2 _ Hs) as [? ?]. destruct (Hn2 _ Ho) as [? ?].
      pose proof (Hv1 _ Hw). pose proof (Hv1 _ Hv).
      pose proof (Hv2 _ Hw). pose proof (Hv2 _ Hv).
      assert (Sighting.adjWordFor a nomSg (noun_gender (Sighting.object ch))
              ≠ Sighting.adjWordFor a accSg (noun_gender (Sighting.object ch)))
        by (by rewrite adjective_cases).
      rewrite !bool_decide_eq_false_2 in Hd by done.
      cbv beta iota zeta delta [sentence slotWord] in Hin. cbn [app] in Hd.
      rewrite !elem_of_cons, elem_of_nil in Hd.
    rewrite !elem_of_cons, elem_of_nil in Hin.
      decompose [or] Hd; try done; subst d; cbn [Sighting.text] in Hin;
        decompose [or] Hin; congruence.
Qed.

Lemma NoDup_fmap_elem {A B} (h : A → B) (l : list A) x y :
  NoDup (h <$> l) → x ∈ l → y ∈ l → h x = h y → x = y.
Proof.
  intros Hnd [i Hi]%list_elem_of_lookup [j Hj]%list_elem_of_lookup Heq.
  assert (i = j) as ->; [|congruence].
  eapply NoDup_lookup; [exact Hnd| |]; rewrite list_lookup_fmap.
  - by rewrite Hi.
  - rewrite Hj. simpl. congruence.
Qed.

Lemma NoDup_fmap_within {A B} (h : A → B) (l p : list A) :
  NoDup (h <$> l) → p ⊆ l → NoDup p → NoDup (h <$> p).
Proof.
  intros Hnd Hsub Hp. apply NoDup_fmap_2_strong; [|done].
  intros x y Hx Hy. apply (NoDup_fmap_elem h l); auto.
Qed.

Lemma same_reading_same_tiles {A B} (h : A → B) (p c : list A) :
  NoDup (h <$> c) → p ⊆ c → h <$> p = h <$> c → p = c.
Proof.
  revert p. induction c as [|y c IH]; intros p Hnd Hsub Heq.
  - by apply fmap_nil_inv in Heq.
  - destruct p as [|x p]; [done|].
    rewrite !fmap_cons in Heq. injection Heq as Hxy Heq.
    rewrite fmap_cons in Hnd. apply NoDup_cons in Hnd as [Hy Hnd].
    assert (x = y) as ->.
    { assert (Hx : x ∈ y :: c) by (apply Hsub; left).
      apply elem_of_cons in Hx as [->|Hx]; [done|].
      exfalso. apply Hy. rewrite <-Hxy. by apply list_elem_of_fmap_2. }
    f_equal. apply IH; [done| |done].
    intros z Hz. assert (Hz' : z ∈ y :: c) by (apply Hsub; by right).
    apply elem_of_cons in Hz' as [->|Hz']; [|done].
    exfalso. apply Hy. rewrite <-Heq. by apply list_elem_of_fmap_2.
Qed.

(** X21: the flag [correct] and the judgement agree when no noun of the
    sentence is neuter.  For a generated challenge whose subject and object
    are not neuter, and distinct offered tiles that fill the slots, the
    sentence is judged correct exactly when the tiles are the tiles of the
    sentence in its order: no decoy is part of an accepted sentence. *)
Theorem X21_accepted_sentence_has_no_decoy len g ch g1 ts g2 key p :
  Sighting.makeChallenge len g = Some (ch, g1) →
  Sighting.makeTiles ch g1 = Some (ts, g2) →
  noun_gender (Sighting.subject ch) ≠ g_n →
  noun_gender (Sighting.object ch) ≠ g_n →
  p ⊆ ts → NoDup p → length p = length (Sighting.latin ch) →
  Sighting.tapAll p (Sighting.fresh key ch ts [])
  = judged_correct p (Sighting.fresh key ch ts [])
  ↔ p = Sighting.correctTiles ch.
Proof.
  intros Hch Hts Hsn Hon Hsub Hnd Hlen.
  destruct (offered_tiles _ _ _ _ _ _ Hch Hts) as (v & Hv & Hvne & Hperm).
  destruct (challenge_words _ _ _ _ Hch) as [Hwords Hl34].
  assert (Hids : NoDup (Sighting.id <$> p)).
  { apply (NoDup_fmap_within _ ts); [|done..].
    rewrite Hperm. by eapply generated_tile_ids. }
  assert (Hne : p ≠ []) by (intros ->; simpl in Hlen; lia).
  rewrite tapAll_full by done. cbn [Sighting.fresh Sighting.challenge].
  pose proof (judged_differently p (Sighting.fresh key ch ts [])) as Hdiff.
  split.
  - case_bool_decide as Hj; [intros _|intros H; by destruct Hdiff].
    assert (Hpw : Forall (λ t, is_word (Sighting.text t)) p).
    { apply Forall_forall. intros t Ht. apply Hsub in Ht. rewrite Hperm in Ht.
      apply elem_of_app in Ht as [Ht|Ht].
      - pose proof (correctTiles_words _ _ _ _ Hch) as Hc.
        rewrite Forall_forall in Hc. by apply Hc.
      - pose proof (decoysWith_words _ _ _ _ v Hch Hv) as Hd.
        rewrite Forall_forall in Hd. by apply Hd. }
    apply join_words_inj in Hj; [|by rewrite length_fmap|by apply Forall_fmap|done].
    apply (same_reading_same_tiles Sighting.text).
    + rewrite correctTiles_text. by eapply challenge_distinct.
    + intros t Ht. pose proof (Hsub _ Ht) as Ht'. rewrite Hperm in Ht'.
      apply elem_of_app in Ht' as [Ht'|Ht']; [done|].
      exfalso. apply (decoys_apart _ _ _ _ v Hch Hv Hvne Hsn Hon t Ht').
      rewrite <-Hj. by apply list_elem_of_fmap_2.
    + by rewrite correctTiles_text.
  - intros ->. by rewrite correctTiles_text, bool_decide_eq_true_2.
Qed.

(** The tiles of "puella portat portam", both nouns feminine. *)
Lemma X21_accepted_sentence_has_no_decoy_witness :
  Sighting.tapAll [tile_puella; tile_portat; tile_portam] girl_round
  = judged_correct [tile_puella; tile_portat; tile_portam] girl_round
  ↔ [tile_puella; tile_portat; tile_portam] = Sighting.correctTiles girl_challenge.
Proof.
  apply (X21_accepted_sentence_has_no_decoy
           3 girl_rng girl_challenge (mkRng (draws girl_rng) 4)
           girl_tiles (mkRng (draws girl_rng) 15) "normal").
  - vm_compute. reflexivity.
  - vm_compute. reflexivity.
  - discriminate.
  - discriminate.
  - intros t Ht. rewrite !elem_of_cons in Ht. unfold girl_tiles.
    rewrite !elem_of_cons. tauto.
  - apply (bool_decide_unpack _). by vm_compute.
  - reflexivity.
Defined.

Lemma NoDup_replace_middle {A} (l1 l2 : list A) (x y : A) :
  NoDup (l1 ++ x :: l2) → y ∉ l1 ++ l2 → NoDup (l1 ++ y :: l2).
Proof.
  rewrite <-!Permutation_middle, !NoDup_cons. by intros [_ H] Hy.
Qed.

(** A tile that is no tile of the sentence but shows one of its words can
    stand in for the tile of that word. *)
Lemma decoy_word_accepted key ch ts d :
  (length (Sighting.latin ch) ≤ 4)%nat →
  Sighting.text d ∈ Sighting.latin ch →
  (∃ r, Sighting.id d = String "d" r) →
  ∃ p, d ∈ p ∧ p ⊆ d :: Sighting.correctTiles ch ∧
       Sighting.tapAll p (Sighting.fresh key ch ts [])
       = judged_correct p (Sighting.fresh key ch ts []).
Proof.
  intros Hlen Hin [r Hid].
  apply list_elem_of_lookup in Hin as [i Hi].
  rewrite <-correctTiles_text, list_lookup_fmap in Hi.
  destruct (Sighting.correctTiles ch !! i) as [c|] eqn:Hc; [|done].
  simpl in Hi. injection Hi as Hi.
  pose proof (take_drop_middle _ _ _ Hc) as Hmid.
  pose proof (correctTiles_ids ch Hlen) as Hnd.
  pose proof (correctTiles_length ch) as Hcl.
  pose proof (correctTiles_text ch) as Hct.
  pose proof (correctTiles_id_prefix ch (String "d" r)) as Hpre.
  revert Hmid Hnd Hcl Hct Hpre.
  generalize (take i (Sighting.correctTiles ch)) as l1.
  generalize (drop (S i) (Sighting.correctTiles ch)) as l2.
  intros l2 l1 Hmid. rewrite <-Hmid. clear Hmid Hc. intros Hnd Hcl Hct Hpre.
  exists (l1 ++ d :: l2). split; [apply elem_of_app; right; left|]. split.
  - intros x Hx. apply elem_of_app in Hx as [Hx|Hx].
    + right. apply elem_of_app. by left.
    + apply elem_of_cons in Hx as [->|Hx]; [left|].
      right. apply elem_of_app. right. by right.
  - rewrite tapAll_full.
    + cbn [Sighting.fresh Sighting.challenge].
      rewrite bool_decide_eq_true_2; [done|]. f_equal.
      rewrite <-Hct, !fmap_app, !fmap_cons. by rewrite Hi.
    + done.
    + done.
    + rewrite fmap_app, fmap_cons in Hnd |- *.
      apply NoDup_replace_middle with (Sighting.id c); [done|].
      rewrite Hid. intros Hx.
      destruct Hpre as [r' Hr']; [|discriminate].
      rewrite fmap_app, fmap_cons. apply elem_of_app in Hx as [Hx|Hx].
      * apply elem_of_app. by left.
      * apply elem_of_app. right. by right.
    + cbn [Sighting.fresh Sighting.challenge]. rewrite <-Hcl, !length_app. done.
    + intros H. by destruct l1.
Qed.

(** X22: a decoy that is accepted.  When the subject of a generated
    challenge is neuter, the decoy "d-subj-wrong" shows the accusative of
    the subject, which is the same word as its nominative; when the object
    is neuter, the decoy "d-obj-wrong" shows the nominative of the object,
    the same word as its accusative.  Either way there is a selection of
    offered tiles that holds a tile flagged as not correct and is judged
    correct all the same. *)
Theorem X22_neuter_decoy_is_accepted len g ch g1 ts g2 key :
  Sighting.makeChallenge len g = Some (ch, g1) →
  Sighting.makeTiles ch g1 = Some (ts, g2) →
  noun_gender (Sighting.subject ch) = g_n ∨ noun_gender (Sighting.object ch) = g_n →
  ∃ p d, p ⊆ ts ∧ d ∈ p ∧ Sighting.correct d = false ∧
         Sighting.text d ∈ Sighting.latin ch ∧
         Sighting.tapAll p (Sighting.fresh key ch ts [])
         = judged_correct p (Sighting.fresh key ch ts []).
Proof.
  intros Hch Hts Hneuter.
  destruct (offered_tiles _ _ _ _ _ _ Hch Hts) as (v & _ & _ & Hperm).
  destruct (challenge_words _ _ _ _ Hch) as [_ Hl34].
  apply makeChallenge_inv in Hch as (_ & Hs & _ & Ho & _ & _ & Hshape).
  assert (Hd : ∃ d, d ∈ Sighting.decoysWith ch v ∧ Sighting.correct d = false ∧
                    Sighting.text d ∈ Sighting.latin ch ∧
                    ∃ r, Sighting.id d = String "d" r).
  { destruct Hneuter as [Hn|Hn].
    - exists (Sighting.mkTile "d-subj-wrong" (nounForm (Sighting.subject ch) accSg) false).
      split; [left|]. split; [done|]. split; [|by eexists].
      apply noun_cases in Hn; [|done]. cbn [Sighting.text]. rewrite Hn.
      destruct Hshape as [(_ & _ & _ & ->)|(_ & a & [] & _ & _ & _ & ->)];
        cbv beta iota zeta delta [sentence]; rewrite !elem_of_cons; tauto.
    - exists (Sighting.mkTile "d-obj-wrong" (nounForm (Sighting.object ch) nomSg) false).
      split; [right; left|]. split; [done|]. split; [|by eexists].
      apply noun_cases in Hn; [|done]. cbn [Sighting.text]. rewrite <-Hn.
      destruct Hshape as [(_ & _ & _ & ->)|(_ & a & [] & _ & _ & _ & ->)];
        cbv beta iota zeta delta [sentence]; rewrite !elem_of_cons; tauto. }
  destruct Hd as (d & Hd & Hflag & Htext & Hid).
  destruct (decoy_word_accepted key ch ts d ltac:(lia) Htext Hid) as (p & Hdp & Hsub & Hok).
  exists p, d. split; [|done].
  intros x Hx. rewrite Hperm. apply Hsub in Hx.
  apply elem_of_cons in Hx as [->|Hx]; apply elem_of_app; [by right|by left].
Qed.

(** "bellum amat puellam", with the decoy "bellum" among the tiles. *)
Lemma X22_neuter_decoy_is_accepted_witness :
  ∃ p d, p ⊆ war_tiles ∧ d ∈ p ∧ Sighting.correct d = false ∧
         Sighting.text d ∈ Sighting.latin war_challenge ∧
         Sighting.tapAll p (Sighting.fresh "normal" war_challenge war_tiles [])
         = judged_correct p (Sighting.fresh "normal" war_challenge war_tiles []).
Proof.
  apply (X22_neuter_decoy_is_accepted
           3 war_rng war_challenge (mkRng (draws war_rng) 4)
           war_tiles (mkRng (draws war_rng) 15) "normal").
  - vm_compute. reflexivity.
  - vm_compute. reflexivity.
  - left. reflexivity.
Defined.

Lemma sighting_run_cons e es st :
  Sighting.run (e :: es) st
  = ((Sighting.run es (Sighting.step e st).1).1,
     (Sighting.step e st).2 ++ (Sighting.run es (Sighting.step e st).1).2).
Proof.
  cbn [Sighting.run]. destruct (Sighting.step e st) as [st1 calls1].
  rewrite fst_of_pair. by destruct (Sighting.run es st1) as [st2 calls2].
Qed.

Lemma sighting_playing_no_calls st calls :
  sighting_round_inv st calls → Sighting.phase st = playing → calls = [].
Proof.
  intros [Hcalls _] Hp. destruct calls as [|c cs]; [done|].
  destruct (Hcalls c) as [_ H]; [left|congruence].
Qed.

Lemma sighting_tap_round_inv tile st calls :
  sighting_round_inv st calls → sighting_round_inv (Sighting.tapTile tile st) calls.
Proof.
  intros Hinv. unfold Sighting.tapTile.
  case_bool_decide as Hph; [done|].
  case_bool_decide as Hfull; [done|].
  case_bool_decide as Hdup; [done|].
  assert (Hp : Sighting.phase st = playing)
    by (destruct (Sighting.phase st); [done|by destruct Hph]).
  pose proof (sighting_playing_no_calls _ _ Hinv Hp) as ->.
  destruct Hinv as [_ Hcases].
  assert (Hstart : Sighting.score st = 0 ∧ Sighting.combo st = 0 ∧ Sighting.timers st = []).
  { unfold sighting_full in Hcases.
    destruct Hcases as [(Hs & Hc & _ & [Ht|[_ Hf]])|(_ & _ & Hf & _)];
      [done|lia..]. }
  destruct Hstart as (Hs & Hc & Ht).
  pose proof (xpFor_range (Sighting.secondsLeft st) (Sighting.combo st + 1)
                          (Sighting.difficultyKey st)) as Hxp.
  split; [by intros c Hc'%elem_of_nil|].
  cbv zeta. case_bool_decide as Hlen; [case_bool_decide as Hj|].
  - right. unfold sighting_full. cbn. rewrite Hs, Hc, Ht. rewrite Hc in Hxp.
    split; [lia|]. split; [done|]. split; [done|]. split; [done|].
    left. split; [done|simpl; lia].
  - left. unfold sighting_full. cbn. rewrite Ht.
    split; [done|]. split; [done|]. split; [lia|]. by right.
  - left. cbn. split; [done|]. split; [done|]. split; [lia|]. by left.
Qed.

Lemma sighting_tick_round_inv st calls :
  sighting_round_inv st calls →
  sighting_round_inv (Sighting.tick st).1 (calls ++ (Sighting.tick st).2).
Proof.
  intros Hinv. unfold Sighting.tick.
  destruct (Sighting.phase st) eqn:Hp; [|by rewrite fst_of_pair, app_nil_r].
  pose proof (sighting_playing_no_calls _ _ Hinv Hp) as ->.
  destruct Hinv as [_ Hcases]. cbn [Sighting.secondsLeft].
  case_bool_decide as Hzero.
  - unfold Sighting.finishRound. cbn. split.
    + by intros c ->%list_elem_of_singleton.
    + unfold sighting_full in *. cbn.
      destruct Hcases as [(Hs & Hc & _ & Ht)|(Hs & Hc & Hf & Hj & [[Ht _]|(_ & ? & _)])];
        [left|right|congruence].
      * split; [done|]. split; [done|]. split; [simpl; lia|done].
      * split; [done|]. split; [done|]. split; [done|]. split; [done|].
        left. split; [done|simpl; lia].
  - cbn. split; [by intros c Hc'%elem_of_nil|].
    unfold sighting_full in *. cbn.
    destruct Hcases as [(Hs & Hc & Hl & Ht)|(Hs & Hc & Hf & Hj & [Ht|(_ & ? & _)])];
      [left|right|congruence].
    + split; [done|]. split; [done|]. split; [simpl; lia|done].
    + split; [done|]. split; [done|]. split; [done|]. split; [done|].
      left. exact Ht.
Qed.

Lemma sighting_fire_round_inv i st calls :
  sighting_round_inv st calls →
  sighting_round_inv (Sighting.fireAt i st).1 (calls ++ (Sighting.fireAt i st).2).
Proof.
  intros Hinv. unfold Sighting.fireAt.
  destruct (Sighting.timers st !! i) as [t|] eqn:Ht;
    [|by rewrite fst_of_pair, app_nil_r].
  destruct Hinv as [Hcalls Hcases]. unfold sighting_full in *.
  destruct Hcases
    as [(Hs & Hc & Hl & [Ht'|[Ht' Hf]])|(Hs & Hc & Hf & Hj & [[Ht' Hl]|(Ht' & _)])];
    rewrite Ht' in Ht |- *; destruct i as [|i]; try done;
    injection Ht as <-.
  - rewrite fst_of_pair, app_nil_r. split; [done|]. left. cbn.
    repeat split; try done. by left.
  - cbn. split.
    + intros c [Hc'| ->%list_elem_of_singleton]%elem_of_app; [|done].
      by destruct (Hcalls c Hc').
    + right. cbn. repeat split; try done; try lia. right.
      rewrite length_app. simpl. repeat split; try done; lia.
Qed.

Lemma sighting_step_round_inv e st calls :
  Sighting.one_round [e] = true →
  sighting_round_inv st calls →
  sighting_round_inv (Sighting.step e st).1 (calls ++ (Sighting.step e st).2).
Proof.
  intros He Hinv. destruct e as [tile| |i|g]; [| | |done].
  - cbn [Sighting.step]. rewrite fst_of_pair, app_nil_r.
    by apply sighting_tap_round_inv.
  - by apply sighting_tick_round_inv.
  - by apply sighting_fire_round_inv.
Qed.

Lemma sighting_run_round_inv es st calls :
  Sighting.one_round es = true →
  sighting_round_inv st calls →
  sighting_round_inv (Sighting.run es st).1 (calls ++ (Sighting.run es st).2).
Proof.
  revert st calls. induction es as [|e es IH]; intros st calls Hes Hinv.
  - cbn. by rewrite app_nil_r.
  - rewrite sighting_run_cons, fst_of_pair.
    cbn [Sighting.one_round forallb] in Hes.
    apply andb_prop in Hes as [He Hes].
    cbn [snd]. rewrite app_assoc. apply IH; [done|].
    apply sighting_step_round_inv; [|done].
    cbn [Sighting.one_round forallb]. by rewrite He.
Qed.

Lemma sighting_run_challenge es st :
  Sighting.one_round es = true →
  Sighting.challenge (Sighting.run es st).1 = Sighting.challenge st.
Proof.
  revert st. induction es as [|e es IH]; intros st Hes; [done|].
  rewrite sighting_run_cons, fst_of_pair.
  cbn [Sighting.one_round forallb] in Hes. apply andb_prop in Hes as [He Hes].
  rewrite (IH _ Hes).
  destruct e as [tile| |i|g]; [| | |done].
  - cbn [Sighting.step]. rewrite fst_of_pair. unfold Sighting.tapTile.
    repeat case_bool_decide; done.
  - cbn [Sighting.step]. unfold Sighting.tick.
    destruct (Sighting.phase st); [|done]. by case_bool_decide.
  - cbn [Sighting.step]. unfold Sighting.fireAt.
    by destruct (Sighting.timers st !! i) as [[]|].
Qed.

(** X24: a sighting round reports its final values.  In one round at one
    of the three difficulties, from its start through any taps, ticks and
    timeouts, the score is 0 with
    combo 0, or it is the one award (24 to 172) with combo 1 and the answer
    shown is the accepted sentence; [onRoundEnd] is called at most twice;
    and every call carries the score and the combo the round ends with,
    after which the round is paused.  (The match round reports the values of
    an earlier render.) *)
Theorem X24_sighting_round_reports_final_values key ch ts es :
  key ∈ difficulty_keys →
  Sighting.one_round es = true →
  let st := (Sighting.run es (Sighting.fresh key ch ts [])).1 in
  let calls := (Sighting.run es (Sighting.fresh key ch ts [])).2 in
  (length calls ≤ 2)%nat ∧
  (∀ c, c ∈ calls →
     c = mkSummary "Sighting Log" (Sighting.score st) (Sighting.combo st) ∧
     Sighting.phase st = paused) ∧
  ((Sighting.score st = 0 ∧ Sighting.combo st = 0)
   ∨ (24 ≤ Sighting.score st ≤ 172 ∧ Sighting.combo st = 1 ∧
      join " " (Sighting.text <$> Sighting.answer st) = join " " (Sighting.latin ch))) ∧
  Sighting.challenge st = ch.
Proof.
  intros _ Hes st calls.
  assert (Hinv : sighting_round_inv st ([] ++ calls)).
  { apply sighting_run_round_inv; [done|].
    split; [by intros c Hc%elem_of_nil|]. left. cbn. repeat split; try done.
    - lia.
    - by left. }
  assert (Hch : Sighting.challenge st = ch)
    by (subst st; by rewrite sighting_run_challenge).
  simpl in Hinv. destruct Hinv as [Hcalls Hcases].
  split; [|split; [done|split; [|done]]].
  - destruct Hcases as [(_ & _ & ? & _)|(_ & _ & _ & _ & [[_ ?]|(_ & _ & ?)])]; lia.
  - destruct Hcases as [(? & ? & _)|(? & ? & _ & Hj & _)]; [by left|right].
    rewrite Hch in Hj. done.
Qed.

(** Two right taps, a wrong third, the removal of that tile, the right
    third, a tick and the end of the round. *)
Lemma X24_sighting_round_reports_final_values_witness :
  let es := [ Sighting.Tap tile_puella; Sighting.Tap tile_portat;
              Sighting.Tap tile_porta; Sighting.Fire 0; Sighting.Tap tile_portam;
              Sighting.Tick; Sighting.Fire 0 ] in
  let st := (Sighting.run es girl_round).1 in
  let calls := (Sighting.run es girl_round).2 in
  (length calls ≤ 2)%nat ∧
  (∀ c, c ∈ calls →
     c = mkSummary "Sighting Log" (Sighting.score st) (Sighting.combo st) ∧
     Sighting.phase st = paused) ∧
  ((Sighting.score st = 0 ∧ Sighting.combo st = 0)
   ∨ (24 ≤ Sighting.score st ≤ 172 ∧ Sighting.combo st = 1 ∧
      join " " (Sighting.text <$> Sighting.answer st)
      = join " " (Sighting.latin girl_challenge))) ∧
  Sighting.challenge st = girl_challenge.
Proof.
  apply (X24_sighting_round_reports_final_values "normal" girl_challenge girl_tiles).
  - apply (bool_decide_unpack _). by vm_compute.
  - reflexivity.
Defined.

(** X25: a sentence completed in the last second is counted twice.  When
    the accepted sentence is completed with at most one second left, and the
    clock runs out before the timeout of 180 ms fires, [onRoundEnd] is called
    by the clock and again by the timeout, both times with the final score
    and combo, so that the lifetime experience grows by twice the score of
    the round. *)
Theorem X25_late_sentence_is_counted_twice (cards : list BirdCard)
    (st : Sighting.State) (tile : Sighting.Tile) (s : PersistedState) :
  Sighting.phase st = playing → Sighting.timers st = [] →
  Sighting.secondsLeft st ≤ 1 →
  S (length (Sighting.answer st)) = length (Sighting.latin (Sighting.challenge st)) →
  ¬ Exists (λ a, Sighting.id a = Sighting.id tile) (Sighting.answer st) →
  join " " (Sighting.text <$> Sighting.answer st ++ [tile])
  = join " " (Sighting.latin (Sighting.challenge st)) →
  let gained := xpFor true (Sighting.secondsLeft st) (Sighting.combo st + 1)
                      (Sighting.difficultyKey st) in
  let report := mkSummary "Sighting Log" (Sighting.score st + gained)
                          (Sighting.combo st + 1) in
  (Sighting.run [Sighting.Tap tile; Sighting.Tick; Sighting.Fire 0] st).2
  = [report; report] ∧
  totalXP (best (awardAll cards [report; report] s))
  = totalXP (best s) + 2 * (Sighting.score st + gained).
Proof.
  intros Hp Ht Hs Hlen Hid Hj gained report. split.
  - rewrite !sighting_run_cons. cbn [Sighting.step Sighting.run fst snd].
    rewrite tapTile_full by done. cbv zeta.
    rewrite bool_decide_eq_true_2 by done.
    unfold judged_correct, Sighting.tick. cbn [Sighting.phase]. rewrite Hp.
    cbn [Sighting.secondsLeft]. rewrite bool_decide_eq_true_2 by lia.
    unfold Sighting.finishRound, Sighting.fireAt.
    cbn [fst snd Sighting.timers Sighting.score Sighting.combo
         Sighting.secondsLeft Sighting.difficultyKey].
    by rewrite Ht.
  - unfold awardAll. cbn [foldl sum_score sum_comboMax report].
    destruct (awardXP_fold cards (Sighting.score st + gained) (Sighting.combo st + 1) s)
      as (H1 & _).
    destruct (awardXP_fold cards (Sighting.score st + gained) (Sighting.combo st + 1)
                (awardXP_update cards (Sighting.score st + gained)
                                (Sighting.combo st + 1) s).1)
      as (H2 & _).
    cbv zeta in H1, H2. rewrite H2, H1. lia.
Qed.

(** "puella portat" in the last second, then "portam", a tick and the
    timeout: two reports of 34 points. *)
Lemma X25_late_sentence_is_counted_twice_witness :
  (Sighting.run [Sighting.Tap tile_portam; Sighting.Tick; Sighting.Fire 0]
                girl_last_second).2
  = [mkSummary "Sighting Log" 36 1; mkSummary "Sighting Log" 36 1] ∧
  totalXP (best (awardAll [] [mkSummary "Sighting Log" 36 1;
                              mkSummary "Sighting Log" 36 1] base))
  = totalXP (best base) + 2 * 36.
Proof.
  apply (X25_late_sentence_is_counted_twice [] girl_last_second tile_portam base).
  - reflexivity.
  - reflexivity.
  - vm_compute. discriminate.
  - reflexivity.
  - apply (bool_decide_unpack _). by vm_compute.
  - reflexivity.
Defined.

Lemma sighting_totalTime_range key : 18 ≤ Sighting.totalTime key ≤ 28.
Proof.
  unfold Sighting.totalTime. destruct (conf_of_cases key) as [->|[->| ->]]; simpl; lia.
Qed.

Lemma sighting_fresh_inv key ch ts pending :
  sighting_inv (Sighting.fresh key ch ts pending).
Proof.
  pose proof (sighting_totalTime_range key). unfold sighting_inv, Sighting.fresh.
  cbn. repeat split; try lia. apply NoDup_nil_2.
Qed.

Lemma popLast_take {A} (l : list A) : popLast l = take (length l - 1) l.
Proof. unfold popLast. f_equal. lia. Qed.

Lemma sighting_tap_inv tile st :
  sighting_inv st →
  sighting_inv (Sighting.tapTile tile st) ∧
  Sighting.difficultyKey (Sighting.tapTile tile st) = Sighting.difficultyKey st.
Proof.
  intros Hinv. pose proof Hinv as (Hlen & Hnd & Hc & Hs & Ht & Hp).
  unfold Sighting.tapTile.
  case_bool_decide as Hph; [by split|].
  case_bool_decide as Hfull; [by split|].
  case_bool_decide as Hdup; [by split|].
  pose proof (xpFor_range (Sighting.secondsLeft st) (Sighting.combo st + 1)
                          (Sighting.difficultyKey st)) as Hxp.
  assert (Hnd' : NoDup (Sighting.id <$> Sighting.answer st ++ [tile])).
  { rewrite fmap_app. apply NoDup_app. split; [done|].
    split; [|apply NoDup_singleton].
    intros x Hx ->%list_elem_of_singleton. apply Hdup.
    apply list_elem_of_fmap in Hx as (a & Ha & Hin).
    apply Exists_exists. by exists a. }
  assert (Hlen' : (length (Sighting.answer st ++ [tile])
                   ≤ length (Sighting.latin (Sighting.challenge st)))%nat)
    by (rewrite length_app; simpl; lia).
  cbv zeta. repeat case_bool_decide; (split; [|done]);
    unfold sighting_inv; cbn; repeat split; try done; try lia; auto.
Qed.

Lemma sighting_tick_inv st :
  sighting_inv st →
  sighting_inv (Sighting.tick st).1 ∧
  Sighting.difficultyKey (Sighting.tick st).1 = Sighting.difficultyKey st.
Proof.
  intros Hinv. pose proof Hinv as (Hlen & Hnd & Hc & Hs & Ht & Hp).
  unfold Sighting.tick. destruct (Sighting.phase st) eqn:Hph; [|by split].
  specialize (Hp eq_refl). cbn [Sighting.secondsLeft].
  case_bool_decide; (split; [|done]); unfold sighting_inv; cbn;
    repeat split; try done; lia.
Qed.

Lemma sighting_fire_inv i st :
  sighting_inv st →
  sighting_inv (Sighting.fireAt i st).1 ∧
  Sighting.difficultyKey (Sighting.fireAt i st).1 = Sighting.difficultyKey st.
Proof.
  intros Hinv. pose proof Hinv as (Hlen & Hnd & Hc & Hs & Ht & Hp).
  unfold Sighting.fireAt.
  destruct (Sighting.timers st !! i) as [[newScore nextCombo|]|]; [| |by split];
    (split; [|done]); unfold sighting_inv; cbn.
  - repeat split; try done; lia.
  - rewrite popLast_take, length_take, fmap_take.
    repeat split; try done; try lia.
    eapply sublist_NoDup; [exact Hnd|apply sublist_take].
Qed.

(** Firing the oldest timeout. *)
Lemma fireAt_oldest st : Sighting.fireAt 0 st = Sighting.fire st.
Proof.
  unfold Sighting.fireAt, Sighting.fire.
  by destruct (Sighting.timers st) as [|[] rest].
Qed.

Lemma sighting_step_NextRound g st :
  Sighting.step (Sighting.NextRound g) st
  = (match Sighting.nextRound g st with Some (st', _) => st' | None => st end, []).
Proof. reflexivity. Qed.

Lemma sighting_nextRound_inv g st :
  sighting_inv st →
  sighting_inv (Sighting.step (Sighting.NextRound g) st).1 ∧
  Sighting.difficultyKey (Sighting.step (Sighting.NextRound g) st).1
  = Sighting.difficultyKey st.
Proof.
  intros Hinv. rewrite sighting_step_NextRound, fst_of_pair.
  unfold Sighting.nextRound.
  destruct (Sighting.makeChallenge _ g) as [[ch g1]|]; [|by split].
  cbn [mbind option_bind].
  destruct (Sighting.makeTiles ch g1) as [[ts g2]|]; [|by split].
  cbn [mbind option_bind]. split; [|done]. apply sighting_fresh_inv.
Qed.

Lemma sighting_step_inv e st :
  sighting_inv st →
  sighting_inv (Sighting.step e st).1 ∧
  Sighting.difficultyKey (Sighting.step e st).1 = Sighting.difficultyKey st.
Proof.
  intros Hinv. destruct e as [tile| |i|g].
  - by apply sighting_tap_inv.
  - by apply sighting_tick_inv.
  - by apply sighting_fire_inv.
  - by apply sighting_nextRound_inv.
Qed.

Lemma sighting_run_inv es st :
  sighting_inv st →
  sighting_inv (Sighting.run es st).1 ∧
  Sighting.difficultyKey (Sighting.run es st).1 = Sighting.difficultyKey st.
Proof.
  revert st. induction es as [|e es IH]; intros st Hinv; [by split|].
  rewrite sighting_run_cons, fst_of_pair.
  destruct (sighting_step_inv e st Hinv) as [Hinv1 Hkey1].
  destruct (IH _ Hinv1) as [Hinv2 Hkey2].
  split; [done|congruence].
Qed.

(** X23: what stays true of the sighting log at each of the three
    difficulties, from its first render through any sequence of taps on any
    tiles, ticks, pending timeouts firing in any order, and restarts
    (timeouts of an earlier round may still fire after a restart).  The
    component always mounts; the answer never holds more tiles than the
    sentence has tokens and never the same identifier twice; combo and score
    are never negative; the seconds left are never negative and never above
    the time of the difficulty; and while the round is played at least one
    second is left. *)
Theorem X23_sighting_log_invariants (key : string) (g : Rng) (es : list Sighting.Event) :
  key ∈ difficulty_keys →
  ∃ st0 g', Sighting.mount key g = Some (st0, g') ∧
    let st := (Sighting.run es st0).1 in
    sighting_inv st ∧ Sighting.difficultyKey st = key.
Proof.
  intros _. unfold Sighting.mount.
  destruct (makeChallenge_total (sentenceLen (conf_of key)) g) as [[ch g1] Hch].
  rewrite Hch. cbn [mbind option_bind].
  destruct (makeTiles_total ch g1) as [[ts g2] Hts].
  rewrite Hts. cbn [mbind option_bind].
  eexists _, _. split; [reflexivity|].
  apply (sighting_run_inv es). apply sighting_fresh_inv.
Qed.

(** A tap, a tick, a timeout and a restart at normal difficulty. *)
Lemma X23_sighting_log_invariants_witness :
  ∃ st0 g', Sighting.mount "normal" girl_rng = Some (st0, g') ∧
    let st := (Sighting.run [ Sighting.Tap tile_puella; Sighting.Tick;
                              Sighting.Fire 0; Sighting.NextRound girl_rng ] st0).1 in
    sighting_inv st ∧ Sighting.difficultyKey st = "normal".
Proof.
  apply (X23_sighting_log_invariants "normal" girl_rng).
  apply (bool_decide_unpack _). by vm_compute.
Defined.

(** ** What the header of a match round shows *)

Lemma countdownPct_range s t :
  0 ≤ s ≤ t → (t = 28 ∨ t = 22 ∨ t = 18) →
  (0 <= countdownPct s t)%Q ∧ (countdownPct s t <= 100)%Q.
Proof.
  intros Hs Ht. unfold countdownPct.
  rewrite bool_decide_eq_true_2 by lia.
  destruct Ht as [->|[->| ->]]; unfold Qle; cbn; lia.
Qed.

(** X26: what the header of a match round shows at each of the three
    difficulties, from the first render through any clicks on the buttons of
    the columns, ticks, timeouts and restarts.  The number of pairs left is
    never negative and never above the number of items of the round; the
    seconds shown, [Math.max(0, secondsLeft)], are the seconds left; and the
    exact percentage of the countdown bar is between 0 and 100. *)
Theorem X26_match_header_is_in_range (key : string) (g : Rng) (es : list Match.Event) :
  key ∈ difficulty_keys →
  Match.playable es (Match.mount key g).1 = true →
  let st := (Match.run es (Match.mount key g).1).1 in
  0 ≤ Match.pending st ≤ Z.of_nat (length (Match.items (Match.round st))) ∧
  Z.max 0 (Match.secondsLeft st) = Match.secondsLeft st ∧
  (0 <= countdownPct (Z.max 0 (Match.secondsLeft st)) (Match.totalTime key))%Q ∧
  (countdownPct (Z.max 0 (Match.secondsLeft st)) (Match.totalTime key) <= 100)%Q.
Proof.
  intros Hkey0. unfold Match.mount.
  generalize (makeRound_spec (roundSize (conf_of key)) g).
  destruct (Match.makeRound _ g) as [r g']. cbn [fst].
  intros (_ & Hnd0 & _ & _ & Hr0) Hes.
  set (st0 := Match.mkState key playing (Match.totalTime key) r None [] 0 0 None []).
  assert (Hh : match_header_inv (Match.run es st0).1).
  { apply match_run_header; [done|].
    split; [exact Hnd0|]. split; [exact Hr0|]. cbn. by intros x Hx%elem_of_nil. }
  destruct (match_run_inv es st0 (match_fresh_inv key r [])) as [Hinv Hkey].
  cbv zeta. revert Hh Hinv Hkey. generalize (Match.run es st0).1 as st.
  intros st (Hnd & Hr & Hsub) (Hdone & _ & _ & Ht & _) Hkey.
  cbn [Match.difficultyKey st0] in Hkey. rewrite Hkey in Ht.
  assert (Hlen : (length (Match.doneIds st) ≤ length (Match.items (Match.round st)))%nat).
  { rewrite <-(length_fmap Match.id (Match.items (Match.round st))).
    apply submseteq_length, NoDup_submseteq; done. }
  split; [unfold Match.pending; lia|].
  split; [lia|]. rewrite Z.max_r by lia.
  apply countdownPct_range; [lia|].
  unfold Match.totalTime, difficulty_keys in *.
  rewrite !elem_of_cons, elem_of_nil in Hkey0.
  destruct Hkey0 as [->|[->|[->|[]]]]; cbn; auto.
Qed.

(** A pair, a tick, a miss, a restart and a timeout on an easy round. *)
Lemma X26_match_header_is_in_range_witness :
  let es := [ Match.ChooseLatin "puella-nom"; Match.ChooseMeaning "puella-nom";
              Match.Tick; Match.ChooseLatin "femina-nom";
              Match.ChooseMeaning "femina-acc"; Match.NextRound match_rng;
              Match.Fire ] in
  let st := (Match.run es (Match.mount "easy" match_rng).1).1 in
  0 ≤ Match.pending st ≤ Z.of_nat (length (Match.items (Match.round st))) ∧
  Z.max 0 (Match.secondsLeft st) = Match.secondsLeft st ∧
  (0 <= countdownPct (Z.max 0 (Match.secondsLeft st)) (Match.totalTime "easy"))%Q ∧
  (countdownPct (Z.max 0 (Match.secondsLeft st)) (Match.totalTime "easy") <= 100)%Q.
Proof.
  apply (X26_match_header_is_in_range "easy" match_rng).
  - apply (bool_decide_unpack _). by vm_compute.
  - vm_compute. reflexivity.
Defined.
